(** * langserver-typescript: file-system synchronisation and project resolution

  A shallow embedding of [fs.ts] ([FileSystemUpdater]) and
  [project-manager.ts] ([ProjectManager], [ProjectConfiguration],
  [InMemoryLanguageServiceHost]) together with the properties the
  specification states about them.

  Conventions of the embedding
  - JavaScript runs one job at a time, so every method call and every
    promise continuation is one atomic transition of the state.
  - A [Promise<void>] is an object with identity: an index into a heap of
    promise states.
  - A [Map<string, V>] is a [gmap string V]; [Map.get] is [!!].
  - A thrown exception is the [Throw] constructor of [res].
  - Collaborators outside the repository (the TypeScript compiler, Node's
    [path] module, the remote client) are either transcribed (Node's
    [posix.dirname]) or taken as parameters. *)

From Stdlib Require Import Ascii.
From Stdlib Require String.
From stdpp Require Import gmap strings list fin_maps.

(** ** Results of calls that may throw *)

Inductive res (A : Type) : Type :=
| Ok (a : A)
| Throw (err : string).
Arguments Ok {A} a.
Arguments Throw {A} err.

(** ** Node's [path.posix] and the regular expressions used on paths *)

Module PosixPath.

Definition slash : ascii := "/"%char.

Definition is_slash (c : option ascii) : bool :=
  match c with
  | Some c => if decide (c = slash) then true else false
  | None => false
  end.

(** The backwards scan of [posix.dirname]:
    [for (i = path.length - 1; i >= 1; --i)], started at index [i] with the
    flag [matchedSlash]; returns [end] when the loop breaks, [None] for
    [end === -1]. *)
Fixpoint dirname_scan (path : string) (i : nat) (matchedSlash : bool) : option nat :=
  match i with
  | O => None
  | S i' =>
      if is_slash (String.get i path)
      then (if matchedSlash then dirname_scan path i' true else Some i)
      else dirname_scan path i' false
  end.

(** [path.posix.dirname] of Node.js. *)
Definition dirname (path : string) : string :=
  if decide (String.length path = 0) then "."
  else
    let hasRoot := is_slash (String.get 0 path) in
    match dirname_scan path (String.length path - 1) true with
    | None => if hasRoot then "/" else "."
    | Some e =>
        if hasRoot && (e =? 1)%nat then "//"
        else String.substring 0 e path
    end.

(** [s.endsWith(suf)] *)
Definition ends_with (suf s : string) : bool :=
  let n := String.length s in
  let k := String.length suf in
  (k <=? n)%nat && String.eqb (String.substring (n - k) k s) suf.

(** [s.includes(sub)] *)
Fixpoint includes (sub s : string) : bool :=
  String.prefix sub s ||
  match s with
  | EmptyString => false
  | String _ s' => includes sub s'
  end.

(** [/(^|\/)[tj]sconfig\.json$/.test(s)] *)
Definition is_config_marker (s : string) : bool :=
  String.eqb s "tsconfig.json" || String.eqb s "jsconfig.json"
  || ends_with "/tsconfig.json" s || ends_with "/jsconfig.json" s.

(** [/(^|\/)jsconfig\.json$/.test(s)] *)
Definition is_jsconfig (s : string) : bool :=
  String.eqb s "jsconfig.json" || ends_with "/jsconfig.json" s.

(** [/(^|\/)node_modules\//.test(s)] *)
Definition in_node_modules (s : string) : bool :=
  String.prefix "node_modules/" s || includes "/node_modules/" s.

(** The idiom [dir = dirname(x); if (dir === '.') dir = '';] *)
Definition dirname_or_empty (path : string) : string :=
  let dir := dirname path in
  if String.eqb dir "." then "" else dir.

(** A path is relative when it does not start with a slash. *)
Definition is_relative (path : string) : bool :=
  negb (is_slash (String.get 0 path)).

End PosixPath.

(** ** Promises

  A promise is an index into [list Promise.state]. [Follows q] is a promise
  that was resolved with the promise [q] and takes over its outcome. *)

Module Promise.

Inductive state : Type :=
| Pending
| Fulfilled
| Rejected (err : string)
| Follows (q : nat).

Definition alloc (h : list state) : nat * list state :=
  (length h, h ++ [Pending]).

Definition settle (p : nat) (st : state) (h : list state) : list state :=
  <[p := st]> h.

(** The outcome seen by whoever awaits [p]; [fuel] bounds the length of a
    chain of [Follows]. *)
Fixpoint outcome (fuel : nat) (h : list state) (p : nat) : option state :=
  match h !! p with
  | Some (Follows q) =>
      match fuel with
      | O => None
      | S fuel' => outcome fuel' h q
      end
  | o => o
  end.

End Promise.

(** ** The in-memory file system

    [memfs.ts] is not available; [FileSystemUpdater] and [ProjectManager]
    only call it. Its operations follow the specification's
    VirtualFileSystem. *)

Module MemFs.

Inductive content : Type :=
| Text (text : string)
| Placeholder.

Record t : Type := mk {
  files : gmap string content;
  edited : gset string
}.

Definition empty : t := {| files := ∅; edited := ∅ |}.

(** Modelled from the spec: [InMemoryFileSystem.add] of the absent
    [memfs.ts]. "add(path, content?) - inserts a new record; if content
    omitted, inserts a placeholder." The spec does not say what happens to
    a record that is already there; inserting replaces it. For a record that
    a local edit made while a fetch was in flight the spec asks that the
    fetch not overwrite it, by a comparison of versions that [add] has no
    means to make (it is given a path and a content). What [add] does to
    such a record is therefore left open: the statements about a fetch that
    an edit overtakes say which call the fetch makes, not what reading
    returns after it. *)
Definition add (path : string) (c : option string) (fs : t) : t :=
  {| files := <[path := match c with Some text => Text text | None => Placeholder end]> (files fs);
     edited := edited fs |}.

(** Modelled from the spec: [InMemoryFileSystem.getContent] of the absent
    [memfs.ts]. "getContent(path) -> text - fails with NotFetched if only a
    placeholder exists, NotFound if absent." *)
Definition getContent (path : string) (fs : t) : res string :=
  match files fs !! path with
  | Some (Text text) => Ok text
  | Some Placeholder => Throw "NotFetched"
  | None => Throw "NotFound"
  end.

(** Modelled from the spec: [InMemoryFileSystem.readFile] of the absent
    [memfs.ts]; the spec has one reader, [getContent]. *)
Definition readFile (path : string) (fs : t) : res string := getContent path fs.

(** Modelled from the spec: [InMemoryFileSystem.fileExists] of the absent
    [memfs.ts]. "exists(path) -> bool - true for placeholder or real
    content." *)
Definition fileExists (path : string) (fs : t) : bool :=
  bool_decide (is_Some (files fs !! path)).

(** Modelled from the spec: [InMemoryFileSystem.uris] of the absent
    [memfs.ts]. "listPaths() -> sequence of path (stable order not
    required)". *)
Definition uris (fs : t) : list string := (map_to_list (files fs)).*1.

(** Modelled from the spec: [InMemoryFileSystem.didChange] of the absent
    [memfs.ts]. "edit(path, text) - local edit: bumps version, stores as
    real content, marks edited". The version counter itself lives in
    [ProjectManager.versions], which the source does show. *)
Definition didChange (path text : string) (fs : t) : t :=
  {| files := <[path := Text text]> (files fs);
     edited := {[path]} ∪ edited fs |}.

(** Modelled from the spec: [InMemoryFileSystem.didClose] of the absent
    [memfs.ts]. "close(path) - marks a file no longer open (does not remove
    content)". *)
Definition didClose (path : string) (fs : t) : t :=
  {| files := files fs; edited := edited fs ∖ {[path]} |}.

(** Modelled from the spec: [InMemoryFileSystem.didSave] of the absent
    [memfs.ts]. The spec gives a save no effect on the stored records. *)
Definition didSave (path : string) (fs : t) : t := fs.

End MemFs.

(** ** [FileSystemUpdater] ([fs.ts])

  The remote file system answers asynchronously, so a content fetch is three
  transitions: [fetch] queues the body on the semaphore and caches the
  promise, [start] runs the body up to [await getTextDocumentContent(uri)],
  and [content_reply] resumes it with the answer. The fields [waiting],
  [running], [listing] and [suspended] hold the parked continuations;
  [history] is a ghost log of what was asked of the remote file system and
  how each fetch body ended (newest entry first). *)

Module FileSystemUpdater.

Inductive obs : Type :=
| Invoked (uri : string)     (* remoteFs.getTextDocumentContent(uri) was called *)
| Succeeded (uri : string)   (* the body of fetch(uri) ran to its end *)
| Failed (uri : string)      (* the body of fetch(uri) went through its catch *)
| Listed.                    (* remoteFs.getWorkspaceFiles() was called *)

#[global] Instance obs_eq_dec : EqDecision obs.
Proof. solve_decision. Defined.

Fixpoint count (o : obs) (h : list obs) : nat :=
  match h with
  | [] => 0
  | x :: h' => (if decide (x = o) then 1 else 0) + count o h'
  end.

Record t : Type := mk {
  structureFetch : option nat;
  fetches : gmap string nat;
  inMemoryFs : MemFs.t;
  promises : list Promise.state;
  waiting : list (nat * string);
  running : list (nat * string);
  listing : list nat;
  suspended : list (nat * option nat);
  history : list obs
}.

(** [new Semaphore(100)] *)
Definition concurrencyLimit : nat := 100.

(** [new FileSystemUpdater(remoteFs, inMemoryFs)] *)
Definition create (fs : MemFs.t) : t :=
  {| structureFetch := None; fetches := ∅; inMemoryFs := fs;
     promises := []; waiting := []; running := []; listing := [];
     suspended := []; history := [] |}.

Definition set_structureFetch (v : option nat) (s : t) : t :=
  mk v (fetches s) (inMemoryFs s) (promises s) (waiting s) (running s)
     (listing s) (suspended s) (history s).
Definition set_fetches (v : gmap string nat) (s : t) : t :=
  mk (structureFetch s) v (inMemoryFs s) (promises s) (waiting s) (running s)
     (listing s) (suspended s) (history s).
Definition set_inMemoryFs (v : MemFs.t) (s : t) : t :=
  mk (structureFetch s) (fetches s) v (promises s) (waiting s) (running s)
     (listing s) (suspended s) (history s).
Definition set_promises (v : list Promise.state) (s : t) : t :=
  mk (structureFetch s) (fetches s) (inMemoryFs s) v (waiting s) (running s)
     (listing s) (suspended s) (history s).
Definition set_waiting (v : list (nat * string)) (s : t) : t :=
  mk (structureFetch s) (fetches s) (inMemoryFs s) (promises s) v (running s)
     (listing s) (suspended s) (history s).
Definition set_running (v : list (nat * string)) (s : t) : t :=
  mk (structureFetch s) (fetches s) (inMemoryFs s) (promises s) (waiting s) v
     (listing s) (suspended s) (history s).
Definition set_listing (v : list nat) (s : t) : t :=
  mk (structureFetch s) (fetches s) (inMemoryFs s) (promises s) (waiting s)
     (running s) v (suspended s) (history s).
Definition set_suspended (v : list (nat * option nat)) (s : t) : t :=
  mk (structureFetch s) (fetches s) (inMemoryFs s) (promises s) (waiting s)
     (running s) (listing s) v (history s).
Definition log (o : obs) (s : t) : t :=
  mk (structureFetch s) (fetches s) (inMemoryFs s) (promises s) (waiting s)
     (running s) (listing s) (suspended s) (o :: history s).

Definition new_promise (s : t) : nat * t :=
  let '(p, h) := Promise.alloc (promises s) in (p, set_promises h s).

Definition settle (p : nat) (st : Promise.state) (s : t) : t :=
  set_promises (Promise.settle p st (promises s)) s.

(** Removes the continuation of promise [p] from a list of parked ones. *)
Fixpoint take {A : Type} (p : nat) (l : list (nat * A)) : option (A * list (nat * A)) :=
  match l with
  | [] => None
  | (q, a) :: l' =>
      if decide (q = p) then Some (a, l')
      else match take p l' with
           | Some (b, r) => Some (b, (q, a) :: r)
           | None => None
           end
  end.

(** [fetch(uri)]: the body is handed to [concurrencyLimit.execute], the
    promise of its completion goes into [fetches]. [fetch] is an async
    function: what the caller gets is a promise of its own, resolved with
    the cached one. *)
Definition fetch (uri : string) (s : t) : nat * t :=
  let '(promise, s) := new_promise s in
  let s := set_waiting (waiting s ++ [(promise, uri)]) s in
  let s := set_fetches (<[uri := promise]> (fetches s)) s in
  let '(result, s) := new_promise s in
  (result, settle result (Promise.Follows promise) s).

(** The semaphore lets the oldest waiting body in; it runs up to
    [await this.remoteFs.getTextDocumentContent(uri)]. *)
Definition start (s : t) : option t :=
  match waiting s with
  | [] => None
  | (promise, uri) :: rest =>
      if decide (length (running s) < concurrencyLimit)
      then Some (log (Invoked uri)
                   (set_running (running s ++ [(promise, uri)])
                      (set_waiting rest s)))
      else None
  end.

(** The [catch] block of the body of [fetch]. *)
Definition fetch_failed (promise : nat) (uri err : string) (s : t) : t :=
  log (Failed uri)
    (settle promise (Promise.Rejected err)
       (set_fetches (delete uri (fetches s)) s)).

(** The body of [fetch] resumes with the answer of the remote file system:
    [inMemoryFs.add(uri, content); inMemoryFs.getContent(uri)], or the
    [catch] block. *)
Definition content_reply (promise : nat) (answer : res string) (s : t) : option t :=
  match take promise (running s) with
  | None => None
  | Some (uri, rest) =>
      let s := set_running rest s in
      match answer with
      | Ok content =>
          let s := set_inMemoryFs (MemFs.add uri (Some content) (inMemoryFs s)) s in
          match MemFs.getContent uri (inMemoryFs s) with
          | Ok _ => Some (log (Succeeded uri) (settle promise Promise.Fulfilled s))
          | Throw err => Some (fetch_failed promise uri err s)
          end
      | Throw err => Some (fetch_failed promise uri err s)
      end
  end.

(** [ensure(uri)]: [this.fetches.get(uri) || this.fetch(uri)]. A promise
    object is truthy, so [fetch] runs exactly when the map has no entry. The
    earlier revision awaits the same expression inside an async function,
    [return await (this.fetches.get(uri) || this.fetch(uri))], whose own
    promise takes over the outcome of the one returned here. *)
Definition ensure (uri : string) (s : t) : nat * t :=
  match fetches s !! uri with
  | Some promise => (promise, s)
  | None => fetch uri s
  end.

(** [invalidate(uri)] *)
Definition invalidate (uri : string) (s : t) : t :=
  set_fetches (delete uri (fetches s)) s.

(** [fetchStructure()]: the async body runs synchronously up to
    [await this.remoteFs.getWorkspaceFiles()], then its promise is stored. *)
Definition fetchStructure (s : t) : nat * t :=
  let '(promise, s) := new_promise s in
  let s := log Listed (set_listing (listing s ++ [promise]) s) in
  (promise, set_structureFetch (Some promise) s).

(** The body of [fetchStructure] resumes with the answer:
    [for (const uri of uris) this.inMemoryFs.add(uri)], or the [catch]
    block. *)
Definition files_reply (promise : nat) (answer : res (list string)) (s : t) : option t :=
  if decide (promise ∈ listing s) then
    let s := set_listing (filter (λ q, q ≠ promise) (listing s)) s in
    match answer with
    | Ok uris =>
        let fs := foldl (λ fs uri, MemFs.add uri None fs) (inMemoryFs s) uris in
        Some (settle promise Promise.Fulfilled (set_inMemoryFs fs s))
    | Throw err =>
        Some (settle promise (Promise.Rejected err) (set_structureFetch None s))
    end
  else None.

(** [ensureStructure()] of the later revision:
    [return this.structureFetch || this.fetchStructure(span)] *)
Definition ensureStructure (s : t) : nat * t :=
  match structureFetch s with
  | Some promise => (promise, s)
  | None => fetchStructure s
  end.

(** [invalidateStructure()] *)
Definition invalidateStructure (s : t) : t := set_structureFetch None s.

(** [ensureStructure()] of the earlier revision is an async function whose
    body is [return await this.structureFetch || this.fetchStructure()].
    [await] binds tighter than [||]: the call reads [this.structureFetch],
    parks at the [await] and returns its own promise. *)
Definition ensureStructure_v1 (s : t) : nat * t :=
  let '(w, s') := new_promise s in
  (w, set_suspended (suspended s' ++ [(w, structureFetch s)]) s').

(** The parked call resumes with the value of the awaited expression. A
    [Promise<void>] fulfils with [undefined], and so does [await undefined];
    [undefined || this.fetchStructure()] then calls [fetchStructure]. A
    rejection is rethrown by the [catch] block. *)
Definition resume_v1 (w : nat) (s : t) : option t :=
  match take w (suspended s) with
  | None => None
  | Some (awaited, rest) =>
      let run_fetch s :=
        let '(q, s) := fetchStructure s in
        Some (settle w (Promise.Follows q) s) in
      match awaited with
      | None => run_fetch (set_suspended rest s)
      | Some p =>
          match promises s !! p with
          | Some Promise.Fulfilled => run_fetch (set_suspended rest s)
          | Some (Promise.Rejected err) =>
              Some (settle w (Promise.Rejected err) (set_suspended rest s))
          | _ => None
          end
      end
  end.

(** Everything that can happen to a [FileSystemUpdater]. *)
Inductive event : Type :=
| Ensure (uri : string)
| Fetch (uri : string)
| Invalidate (uri : string)
| EnsureStructure
| FetchStructure
| InvalidateStructure
| EnsureStructure_v1
| Resume_v1 (w : nat)
| Start
| ContentReply (promise : nat) (answer : res string)
| FilesReply (promise : nat) (answer : res (list string))
| LocalEdit (f : MemFs.t → MemFs.t).

Definition step (ev : event) (s : t) : option t :=
  match ev with
  | Ensure uri => Some (ensure uri s).2
  | Fetch uri => Some (fetch uri s).2
  | Invalidate uri => Some (invalidate uri s)
  | EnsureStructure => Some (ensureStructure s).2
  | FetchStructure => Some (fetchStructure s).2
  | InvalidateStructure => Some (invalidateStructure s)
  | EnsureStructure_v1 => Some (ensureStructure_v1 s).2
  | Resume_v1 w => resume_v1 w s
  | Start => start s
  | ContentReply promise answer => content_reply promise answer s
  | FilesReply promise answer => files_reply promise answer s
  | LocalEdit f => Some (set_inMemoryFs (f (inMemoryFs s)) s)
  end.

Fixpoint run (evs : list event) (s : t) : option t :=
  match evs with
  | [] => Some s
  | ev :: evs' =>
      match step ev s with
      | Some s' => run evs' s'
      | None => None
      end
  end.

(** The promises that some parked continuation will settle. *)
Definition parked (s : t) (id : nat) : Prop :=
  id ∈ (waiting s).*1 ∨ id ∈ (running s).*1 ∨ id ∈ listing s
  ∨ id ∈ (suspended s).*1.

(** Every parked continuation belongs to an allocated promise. *)
Definition allocated (s : t) : Prop :=
  ∀ id, parked s id → id < length (promises s).

(** [w] is an allocated promise that no parked continuation will settle. *)
Definition quiet (w : nat) (s : t) : Prop :=
  w < length (promises s) ∧ ¬ parked s w.

(** What a transition from [s] to [s'] may do to the promises: allocate new
    ones, park continuations for new ones only, and settle only those that
    had a continuation parked. *)
Definition evolves (s s' : t) : Prop :=
  length (promises s) ≤ length (promises s')
  ∧ (∀ id, parked s' id →
           parked s id ∨ length (promises s) ≤ id < length (promises s'))
  ∧ (∀ w, quiet w s → promises s' !! w = promises s !! w).

(** Number of parked fetch bodies for [p]. *)
Fixpoint n_tasks (p : string) (l : list (nat * string)) : nat :=
  match l with
  | [] => 0
  | (_, uri) :: l' => (if decide (uri = p) then 1 else 0) + n_tasks p l'
  end.

(** The calls the rest of the server makes on the updater: [ProjectManager]
    only goes through [ensure], [ensureStructure] and [fetchStructure]. A
    direct [fetch(p)] or an [invalidate(p)] asks for a new fetch of [p] by
    design. *)
Definition keeps_cache (p : string) (ev : event) : Prop :=
  ev ≠ Fetch p ∧ ev ≠ Invalidate p.

(** The single-flight invariant for [p]: every call of
    [getTextDocumentContent(p)] belongs to a fetch that failed, succeeded or
    is still awaiting its answer; at most one fetch for [p] is alive or has
    succeeded; and while there is one, [fetches] has an entry for [p]. *)
Definition single_flight (p : string) (s : t) : Prop :=
  let h := history s in
  let alive := n_tasks p (waiting s) + n_tasks p (running s) in
  count (Invoked p) h = count (Failed p) h + count (Succeeded p) h + n_tasks p (running s)
  ∧ count (Succeeded p) h + alive ≤ 1
  ∧ (1 ≤ count (Succeeded p) h + alive → is_Some (fetches s !! p)).

End FileSystemUpdater.


(** ** Collaborators

    The TypeScript compiler API, Node's [path] functions that are not
    transcribed above, and the helpers of [util.ts] and [memfs.ts], which
    are not available. The embedding is parametric in all of them. *)

Module Env.

Record t : Type := mk {
  (* the TypeScript compiler *)
  json : Type;                      (* a configuration object *)
  options : Type;                   (* ts.CompilerOptions *)
  program : Type;                   (* ts.Program *)
  parseConfigFileTextToJson : string → string → res json;
  parseJsonConfigFileContent : json → MemFs.t → string → list string * options;
  allowJs : options → options;           (* options.allowJs = true *)
  traceResolution : options → options;   (* options.traceResolution = true *)
  getProgram : options → list string → MemFs.t → program;
  scriptVersionQueries : list string → list string;
  getSourceFile : program → string → bool;
  preProcessFile : string → list string * list string;
  resolveModuleName : string → string → options → MemFs.t → option string;
  catchAllConfig : json;
  (* util.ts *)
  uri2path : string → string;
  toUnixPath : string → string;
  normalizeDir : string → string;
  isGlobalTSFile : string → bool;
  isDependencyFile : string → bool;
  isDeclarationFile : string → bool;
  (* memfs.ts *)
  fsPath : string;
  walkInMemoryFs : MemFs.t → string → res (list (string * bool));
  (* path *)
  isAbsolute : string → bool;
  join : string → string → string;
  relative : string → string → string;
  resolveReference : bool → string → string → string → string
}.

End Env.

(** ** [InMemoryLanguageServiceHost] ([project-manager.ts]) *)

Module Host.
Section Host.
Variable E : Env.t.

(** The fields [fs] and [versions] are references to the objects shared with
    the [ProjectManager]; the methods that read or write through them take
    the object as an argument. *)
Record t : Type := mk {
  complete : bool;
  rootPath : string;
  options : Env.options E;
  expectedFilePaths : list string;
  filePaths : list string;
  projectVersion : N
}.

(** The constructor; [complete] starts out [undefined]. *)
Definition create (rootPath : string) (options : Env.options E)
    (expectedFiles : list string) : t :=
  mk false rootPath options expectedFiles [] 1.

Definition incProjectVersion (h : t) : t :=
  mk (complete h) (rootPath h) (options h) (expectedFilePaths h) (filePaths h)
     (projectVersion h + 1).

Definition addFile (filePath : string) (h : t) : t :=
  incProjectVersion
    (mk (complete h) (rootPath h) (options h) (expectedFilePaths h)
        (filePaths h ++ [filePath]) (projectVersion h)).

Definition set_complete (b : bool) (h : t) : t :=
  mk b (rootPath h) (options h) (expectedFilePaths h) (filePaths h)
     (projectVersion h).

(** [getScriptVersion(fileName)]: a missing (or zero) version becomes 1 in
    the shared map. *)
Definition getScriptVersion (fileName : string) (h : t) (versions : gmap string N)
    : N * gmap string N :=
  let fileName :=
    if Env.isAbsolute E fileName
    then Env.relative E (rootPath h) (Env.toUnixPath E fileName)
    else fileName in
  match versions !! fileName with
  | Some (Npos v) => (Npos v, versions)
  | _ => (1%N, <[fileName := 1%N]> versions)
  end.

(** [service.getProgram()] over this host: the compiler asks the host for
    the versions of some files and builds the program from the host's
    settings, script file names and file system. *)
Definition syncVersions (h : t) (versions : gmap string N) : gmap string N :=
  foldl (λ vs f, (getScriptVersion f h vs).2) versions
        (Env.scriptVersionQueries E (filePaths h)).

Definition getProgram (h : t) (disk : MemFs.t) : Env.program E :=
  Env.getProgram E (options h) (filePaths h) disk.

End Host.
Arguments complete {E} _.
Arguments rootPath {E} _.
Arguments options {E} _.
Arguments expectedFilePaths {E} _.
Arguments filePaths {E} _.
Arguments projectVersion {E} _.
End Host.

(** ** [ProjectConfiguration] ([project-manager.ts])

    [init] builds its promise with [new Promise(executor)]: the executor runs
    at once and calls [resolve] or [reject] before [init] returns, so the
    promise kept in [initialized] is settled from the start and is
    represented by its outcome, [Ok ()] or [Throw err]. The callbacks given
    to [then] are run in the same transition. [fs] and [versions] are
    references (object identities) to the file system and the version map
    that the [ProjectManager] shares with all its configurations; [parses]
    is a ghost counter of runs of the executor. *)

Module ProjectConfiguration.
Section ProjectConfiguration.
Variable E : Env.t.

Inductive LanguageService : Type := Service.

Record t : Type := mk {
  service : option LanguageService;
  program : option (Env.program E);
  host : option (Host.t E);
  fs : nat;
  configFilePath : string;
  configContent : option (Env.json E);
  versions : nat;
  traceModuleResolution : bool;
  rootFilePath : string;
  initialized : option (res ());
  ensuredBasicFiles : option (res ());
  ensuredAllFiles : option (res ());
  parses : nat
}.

(** The constructor. *)
Definition create (fs : nat) (rootFilePath : string) (versions : nat)
    (configFilePath : string) (configContent : option (Env.json E))
    (traceModuleResolution : bool) : t :=
  mk None None None fs configFilePath configContent versions
     traceModuleResolution rootFilePath None None None 0.

(** [reset()] *)
Definition reset (c : t) : t :=
  mk None None None (fs c) (configFilePath c) (configContent c) (versions c)
     (traceModuleResolution c) (rootFilePath c) None None None (parses c).

Definition set_initialized (r : res ()) (c : t) : t :=
  mk (service c) (program c) (host c) (fs c) (configFilePath c)
     (configContent c) (versions c) (traceModuleResolution c) (rootFilePath c)
     (Some r) (ensuredBasicFiles c) (ensuredAllFiles c) (parses c).
Definition set_ensuredBasicFiles (r : res ()) (c : t) : t :=
  mk (service c) (program c) (host c) (fs c) (configFilePath c)
     (configContent c) (versions c) (traceModuleResolution c) (rootFilePath c)
     (initialized c) (Some r) (ensuredAllFiles c) (parses c).
Definition set_ensuredAllFiles (r : res ()) (c : t) : t :=
  mk (service c) (program c) (host c) (fs c) (configFilePath c)
     (configContent c) (versions c) (traceModuleResolution c) (rootFilePath c)
     (initialized c) (ensuredBasicFiles c) (Some r) (parses c).
Definition set_host (h : Host.t E) (c : t) : t :=
  mk (service c) (program c) (Some h) (fs c) (configFilePath c)
     (configContent c) (versions c) (traceModuleResolution c) (rootFilePath c)
     (initialized c) (ensuredBasicFiles c) (ensuredAllFiles c) (parses c).
Definition set_program (p : Env.program E) (c : t) : t :=
  mk (service c) (Some p) (host c) (fs c) (configFilePath c)
     (configContent c) (versions c) (traceModuleResolution c) (rootFilePath c)
     (initialized c) (ensuredBasicFiles c) (ensuredAllFiles c) (parses c).
Definition set_service (c : t) : t :=
  mk (Some Service) (program c) (host c) (fs c) (configFilePath c)
     (configContent c) (versions c) (traceModuleResolution c) (rootFilePath c)
     (initialized c) (ensuredBasicFiles c) (ensuredAllFiles c) (parses c).
Definition count_parse (c : t) : t :=
  mk (service c) (program c) (host c) (fs c) (configFilePath c)
     (configContent c) (versions c) (traceModuleResolution c) (rootFilePath c)
     (initialized c) (ensuredBasicFiles c) (ensuredAllFiles c) (S (parses c)).

Definition uninitialized : string := "project is uninitialized".

Definition getService (c : t) : res LanguageService :=
  match service c with Some s => Ok s | None => Throw uninitialized end.
Definition getProgram (c : t) : res (Env.program E) :=
  match program c with Some p => Ok p | None => Throw uninitialized end.
Definition getHost (c : t) : res (Host.t E) :=
  match host c with Some h => Ok h | None => Throw uninitialized end.

(** [this.program = this.getService().getProgram()], used by [syncProgram]
    and after files were added. *)
Definition syncProgram (disk : MemFs.t) (vs : gmap string N) (c : t)
    : res () * t * gmap string N :=
  match service c, host c with
  | Some _, Some h =>
      (Ok (), set_program (Host.getProgram E h disk) c, Host.syncVersions E h vs)
  | _, _ => (Throw uninitialized, c, vs)
  end.

(** The first part of the executor in [init]: the configuration object. *)
Definition configObject (disk : MemFs.t) (c : t) : res (Env.json E) :=
  match configContent c with
  | None =>
      match MemFs.readFile (configFilePath c) disk with
      | Throw err => Throw err
      | Ok text =>
          match Env.parseConfigFileTextToJson E (configFilePath c) text with
          | Throw messageText =>
              Throw ("Cannot parse " +:+ configFilePath c +:+ ": " +:+ messageText)
          | Ok config => Ok config
          end
      end
  | Some content => Ok content
  end.

(** The executor of the promise made by [init]. *)
Definition init_executor (disk : MemFs.t) (vs : gmap string N) (c : t)
    : res () * t * gmap string N :=
  let c := count_parse c in
  match configObject disk c with
  | Throw err => (Throw err, c, vs)
  | Ok object =>
      let dir := PosixPath.dirname_or_empty (configFilePath c) in
      let base := if decide (dir = "") then Env.fsPath E else dir in
      let '(fileNames, options) := Env.parseJsonConfigFileContent E object disk base in
      let nodeModulesDir := Env.join E base "node_modules" in
      match Env.walkInMemoryFs E disk nodeModulesDir with
      | Throw err => (Throw err, c, vs)
      | Ok visited =>
          let globals :=
            (filter (λ e, negb e.2 && Env.isGlobalTSFile E e.1 = true) visited).*1 in
          let expFiles := fileNames ++ globals in
          let options :=
            if PosixPath.is_jsconfig (configFilePath c)
            then Env.allowJs E options else options in
          let options :=
            if traceModuleResolution c
            then Env.traceResolution E options else options in
          let h := Host.create E (Env.fsPath E) options expFiles in
          let c := set_service (set_host h c) in
          (Ok (), set_program (Host.getProgram E h disk) c,
           Host.syncVersions E h vs)
      end
  end.

(** [init()] *)
Definition init (disk : MemFs.t) (vs : gmap string N) (c : t)
    : res () * t * gmap string N :=
  match initialized c with
  | Some outcome => (outcome, c, vs)
  | None =>
      let '(outcome, c, vs) := init_executor disk vs c in
      (outcome, set_initialized outcome c, vs)
  end.

(** [ensureConfigFile()] *)
Definition ensureConfigFile := init.

(** The loop shared by [ensureBasicFiles] and [ensureAllFiles]: every
    expected file that passes [wanted] and has no source file in the current
    program is added to the host. *)
Definition addMissing (wanted : string → bool) (prog : Env.program E)
    (h : Host.t E) : Host.t E * bool :=
  foldl (λ '(h, changed) fileName,
           if wanted fileName && negb (Env.getSourceFile E prog fileName)
           then (Host.addFile E fileName h, true)
           else (h, changed))
        (h, false) (Host.expectedFilePaths h).

Definition materialize (wanted : string → bool) (disk : MemFs.t)
    (vs : gmap string N) (c : t) : res (bool) * t * gmap string N :=
  match host c, program c with
  | Some h, Some prog =>
      let '(h, changed) := addMissing wanted prog h in
      let c := set_host h c in
      if changed
      then let '(r, c, vs) := syncProgram disk vs c in
           (match r with Ok _ => Ok changed | Throw err => Throw err end, c, vs)
      else (Ok changed, c, vs)
  | _, _ => (Throw uninitialized, c, vs)
  end.

(** [ensureBasicFiles()] *)
Definition ensureBasicFiles (disk : MemFs.t) (vs : gmap string N) (c : t)
    : res () * t * gmap string N :=
  match ensuredBasicFiles c with
  | Some outcome => (outcome, c, vs)
  | None =>
      let '(ready, c, vs) := init disk vs c in
      match ready with
      | Throw err => (Throw err, set_ensuredBasicFiles (Throw err) c, vs)
      | Ok _ =>
          let wanted fileName :=
            Env.isGlobalTSFile E fileName
            || (negb (Env.isDependencyFile E fileName)
                && Env.isDeclarationFile E fileName) in
          let '(r, c, vs) := materialize wanted disk vs c in
          let outcome := match r with Ok _ => Ok () | Throw err => Throw err end in
          (outcome, set_ensuredBasicFiles outcome c, vs)
      end
  end.

(** [ensureAllFiles()] *)
Definition ensureAllFiles (disk : MemFs.t) (vs : gmap string N) (c : t)
    : res () * t * gmap string N :=
  match ensuredAllFiles c with
  | Some outcome => (outcome, c, vs)
  | None =>
      let '(ready, c, vs) := init disk vs c in
      match ready with
      | Throw err => (Throw err, set_ensuredAllFiles (Throw err) c, vs)
      | Ok _ =>
          match host c with
          | None => (Throw uninitialized, set_ensuredAllFiles (Throw uninitialized) c, vs)
          | Some h =>
              if Host.complete h then (Ok (), set_ensuredAllFiles (Ok ()) c, vs)
              else
                let '(r, c, vs) := materialize (λ _, true) disk vs c in
                match r, host c with
                | Ok _, Some h =>
                    (Ok (), set_ensuredAllFiles (Ok ())
                              (set_host (Host.set_complete E true h) c), vs)
                | Ok _, None =>
                    (Throw uninitialized, set_ensuredAllFiles (Throw uninitialized) c, vs)
                | Throw err, _ => (Throw err, set_ensuredAllFiles (Throw err) c, vs)
                end
          end
      end
  end.

End ProjectConfiguration.
Arguments service {E} _.
Arguments program {E} _.
Arguments host {E} _.
Arguments fs {E} _.
Arguments configFilePath {E} _.
Arguments configContent {E} _.
Arguments versions {E} _.
Arguments traceModuleResolution {E} _.
Arguments rootFilePath {E} _.
Arguments initialized {E} _.
Arguments ensuredBasicFiles {E} _.
Arguments ensuredAllFiles {E} _.
Arguments parses {E} _.
End ProjectConfiguration.

(** ** [ProjectManager] ([project-manager.ts])

    [localFs] is the [InMemoryFileSystem] the manager shares with its
    [updater]; the object is kept in the updater's state. The fields that
    memoize whole-workspace operations ([ensuredModuleStructure],
    [ensuredFilesForHoverAndDefinition], [ensuredAllFiles]) play no part in
    the operations below and are left out. *)

Module ProjectManager.
Section ProjectManager.
Variable E : Env.t.

Local Abbreviation Config := (ProjectConfiguration.t E).

(** Identities of the two objects every configuration refers to. *)
Definition localFsRef : nat := 0.
Definition versionsRef : nat := 1.

Record t : Type := mk {
  rootPath : string;
  configs : gmap string Config;
  strict : bool;
  updater : FileSystemUpdater.t;
  versions : gmap string N;
  traceModuleResolution : bool
}.

Definition localFs (pm : t) : MemFs.t := FileSystemUpdater.inMemoryFs (updater pm).

(** The constructor. *)
Definition create (rootPath : string) (updater : FileSystemUpdater.t)
    (strict traceModuleResolution : bool) : t :=
  mk (Env.toUnixPath E rootPath) ∅ strict updater ∅ traceModuleResolution.

Definition set_configs (v : gmap string Config) (pm : t) : t :=
  mk (rootPath pm) v (strict pm) (updater pm) (versions pm) (traceModuleResolution pm).
Definition set_updater (v : FileSystemUpdater.t) (pm : t) : t :=
  mk (rootPath pm) (configs pm) (strict pm) v (versions pm) (traceModuleResolution pm).
Definition set_versions (v : gmap string N) (pm : t) : t :=
  mk (rootPath pm) (configs pm) (strict pm) (updater pm) v (traceModuleResolution pm).
Definition set_localFs (v : MemFs.t) (pm : t) : t :=
  set_updater (FileSystemUpdater.set_inMemoryFs v (updater pm)) pm.

(** The [while (dir && dir !== this.rootPath)] loop of [getConfiguration].
    [None]: the loop is still running when the fuel is used up.
    [Some None]: the loop ended without a configuration. *)
Fixpoint getConfiguration_walk (fuel : nat) (configs : gmap string Config)
    (rootPath dir : string) : option (option (string * Config)) :=
  match fuel with
  | O => None
  | S fuel' =>
      if decide (dir = "") then Some None
      else if decide (dir = rootPath) then Some None
      else match configs !! dir with
           | Some config => Some (Some (dir, config))
           | None =>
               getConfiguration_walk fuel' configs rootPath
                 (PosixPath.dirname_or_empty dir)
           end
  end.

Definition notFound (filePath : string) : string :=
  "TypeScript config file for " +:+ filePath +:+ " not found".

(** [getConfiguration(filePath)]. The configuration object is returned
    together with the key of [configs] it is stored under. The result is
    [None] when the loop does not end; [getConfiguration_walk_fuel] shows
    that the fuel given here decides that. *)
Definition getConfiguration (pm : t) (filePath : string)
    : option (res (string * Config)) :=
  match getConfiguration_walk (S (String.length filePath)) (configs pm)
          (rootPath pm) filePath with
  | None => None
  | Some (Some found) => Some (Ok found)
  | Some None =>
      match configs pm !! "" with
      | Some config => Some (Ok ("", config))
      | None => Some (Throw (notFound filePath))
      end
  end.

(** [versions.get(filePath) || 0], then [versions.set(filePath, ++version)].
    Version numbers are JavaScript numbers used as counters; they are exact
    integers far beyond any number of edits. *)
Definition bumpVersion (filePath : string) (pm : t) : t :=
  let version := default 0%N (versions pm !! filePath) in
  set_versions (<[filePath := (version + 1)%N]> (versions pm)) pm.

(** [config.ensureConfigFile().then(() => { config.getHost().incProjectVersion();
    config.syncProgram(); })] for the configuration stored under [dir]. *)
Definition resync (dir : string) (config : Config) (pm : t) : t :=
  let '(ready, config, vs) :=
    ProjectConfiguration.ensureConfigFile E (localFs pm) (versions pm) config in
  let '(config, vs) :=
    match ready, ProjectConfiguration.host config with
    | Ok _, Some h =>
        let config := ProjectConfiguration.set_host E (Host.incProjectVersion E h) config in
        let '(_, config, vs) := ProjectConfiguration.syncProgram E (localFs pm) vs config in
        (config, vs)
    | _, _ => (config, vs)
    end in
  set_versions vs (set_configs (<[dir := config]> (configs pm)) pm).

(** [didChange(filePath, text)] *)
Definition didChange (filePath text : string) (pm : t) : option (res () * t) :=
  let pm := set_localFs (MemFs.didChange filePath text (localFs pm)) pm in
  let pm := bumpVersion filePath pm in
  match getConfiguration pm filePath with
  | None => None
  | Some (Throw err) => Some (Throw err, pm)
  | Some (Ok (dir, config)) => Some (Ok (), resync dir config pm)
  end.

(** [didOpen(filePath, text)] *)
Definition didOpen (filePath text : string) (pm : t) : option (res () * t) :=
  didChange filePath text pm.

(** [didClose(filePath)] *)
Definition didClose (filePath : string) (pm : t) : option (res () * t) :=
  let pm := set_localFs (MemFs.didClose filePath (localFs pm)) pm in
  let pm := bumpVersion filePath pm in
  match getConfiguration pm filePath with
  | None => None
  | Some (Throw err) => Some (Throw err, pm)
  | Some (Ok (dir, config)) => Some (Ok (), resync dir config pm)
  end.

(** [didSave(filePath)] *)
Definition didSave (filePath : string) (pm : t) : option (res () * t) :=
  Some (Ok (), set_localFs (MemFs.didSave filePath (localFs pm)) pm).

(** The configuration made for a marker file,
    [new ProjectConfiguration(this.localFs, posix.join('/', dir), this.versions,
    relativeFilePath, undefined, this.traceModuleResolution, this.logger)]. *)
Definition markerConfig (pm : t) (dir relativeFilePath : string) : Config :=
  ProjectConfiguration.create E localFsRef (Env.join E "/" dir) versionsRef
    relativeFilePath None (traceModuleResolution pm).

(** The catch-all configuration,
    [new ProjectConfiguration(this.localFs, '/', this.versions, '', {...},
    this.traceModuleResolution, this.logger)]. *)
Definition catchAllConfig (pm : t) : Config :=
  ProjectConfiguration.create E localFsRef "/" versionsRef ""
    (Some (Env.catchAllConfig E)) (traceModuleResolution pm).

(** One turn of the [for (const uri of this.localFs.uris())] loop of
    [createConfigurations]. *)
Definition createConfigurations_step (pm : t)
    (acc : gmap string Config * gset string) (uri : string)
    : gmap string Config * gset string :=
  let '(configs, rootdirs) := acc in
  let relativeFilePath := Env.relative E (rootPath pm) (Env.uri2path E uri) in
  if negb (PosixPath.is_config_marker relativeFilePath) then acc
  else if PosixPath.in_node_modules relativeFilePath then acc
  else
    let dir := PosixPath.dirname_or_empty relativeFilePath in
    let configs :=
      match configs !! dir with
      | Some _ => configs
      | None => <[dir := markerConfig pm dir relativeFilePath]> configs
      end in
    (configs, {[dir]} ∪ rootdirs).

(** [createConfigurations()] *)
Definition createConfigurations (pm : t) : t :=
  let '(configs, rootdirs) :=
    foldl (createConfigurations_step pm) (configs pm, ∅) (MemFs.uris (localFs pm)) in
  if negb (bool_decide ("" ∈ rootdirs)) && negb (bool_decide (is_Some (configs !! "")))
  then set_configs (<["" := catchAllConfig pm]> configs) pm
  else set_configs configs pm.

(** The last loop of [refreshFileTree(rootPath, ...)]: every configuration
    whose directory is inside, around or equal to the refreshed directory is
    [reset()]. *)
Definition affected (dir rootPath : string) : bool :=
  String.prefix (rootPath +:+ "/") dir
  || String.prefix (dir +:+ "/") rootPath
  || String.eqb rootPath dir.

Definition resetAffected (rootPath : string) (pm : t) : t :=
  let rootPath := Env.normalizeDir E rootPath in
  set_configs
    (map_imap (λ dir config,
                 Some (if affected (Env.normalizeDir E dir) rootPath
                       then ProjectConfiguration.reset E config
                       else config))
              (configs pm))
    pm.

(** *** The lookup as the specification words it

    "walks from path's directory upward through ancestor directories looking
    for a registered config, stopping at the workspace root; falls back to
    the catch-all root config; fails with NoProjectFound if none exists at
    all". [None] stands for [NoProjectFound]. *)
Fixpoint ancestorDirs (n : nat) (rootPath dir : string) : list string :=
  match n with
  | O => []
  | S n' =>
      if decide (dir = "" ∨ dir = rootPath) then []
      else dir :: ancestorDirs n' rootPath (PosixPath.dirname_or_empty dir)
  end.

Fixpoint firstRegistered (configs : gmap string Config) (dirs : list string)
    : option (string * Config) :=
  match dirs with
  | [] => None
  | dir :: dirs' =>
      match configs !! dir with
      | Some config => Some (dir, config)
      | None => firstRegistered configs dirs'
      end
  end.

Definition resolve (configs : gmap string Config) (rootPath path : string)
    : option (string * Config) :=
  match firstRegistered configs
          (ancestorDirs (String.length path) rootPath
             (PosixPath.dirname_or_empty path)) with
  | Some found => Some found
  | None => pair "" <$> configs !! ""
  end.

(** Every registered configuration is reachable from the root: either there
    is none at all or there is one for the root directory. *)
Definition rooted (configs : gmap string Config) : Prop :=
  configs = ∅ ∨ is_Some (configs !! "").

(** A marker file as [createConfigurations] recognises it, and one that
    lies directly in the workspace root. *)
Definition isMarker (pm : t) (uri : string) : bool :=
  let relativeFilePath := Env.relative E (rootPath pm) (Env.uri2path E uri) in
  PosixPath.is_config_marker relativeFilePath
  && negb (PosixPath.in_node_modules relativeFilePath).

Definition isRootMarker (pm : t) (uri : string) : bool :=
  let relativeFilePath := Env.relative E (rootPath pm) (Env.uri2path E uri) in
  isMarker pm uri
  && String.eqb (PosixPath.dirname_or_empty relativeFilePath) "".

(** [createConfigurations] added the catch-all configuration: it is the
    configuration of the root directory after the call and was not before. *)
Definition catchAllAdded (pm : t) : Prop :=
  configs pm !! "" ≠ Some (catchAllConfig pm)
  ∧ configs (createConfigurations pm) !! "" = Some (catchAllConfig pm).

(** *** The dependency crawl

    The crawl awaits the updater, the configuration and, through
    [Promise.all], its own recursive calls. It is embedded for the schedule
    in which every awaited promise is settled when it is awaited: the remote
    file system, [remote], answers each request at once, and the recursive
    calls run one after the other in the iteration order of [importPaths].
    How often a path is entered does not depend on the schedule when the
    fetches succeed. [visits] and [expansions] are ghost logs (newest
    first): the [uri]s of the calls of [ensureTransitiveFileDependencies],
    and the [uri]s whose imports were collected. *)

Record Crawl : Type := mkCrawl {
  manager : t;
  seen : gset string;
  visits : list string;
  expansions : list string
}.

Definition set_manager (pm : t) (w : Crawl) : Crawl :=
  mkCrawl pm (seen w) (visits w) (expansions w).

(** The remote answers every request that is awaiting its answer, then the
    semaphore lets the waiting bodies in one by one. *)
Definition reply_all (remote : string → res string) (u : FileSystemUpdater.t)
    : FileSystemUpdater.t :=
  foldl (λ u '(promise, uri),
           default u (FileSystemUpdater.content_reply promise (remote uri) u))
        u (FileSystemUpdater.running u).

Definition drain (remote : string → res string) (u : FileSystemUpdater.t)
    : FileSystemUpdater.t :=
  foldl (λ u _, match FileSystemUpdater.start u with
                | Some u' => reply_all remote u'
                | None => u
                end)
        (reply_all remote u) (FileSystemUpdater.waiting u).

(** [await this.updater.ensure(uri, span)] *)
Definition awaitEnsure (remote : string → res string) (uri : string)
    (u : FileSystemUpdater.t) : res () * FileSystemUpdater.t :=
  let '(promise, u) := FileSystemUpdater.ensure uri u in
  let u := drain remote u in
  match Promise.outcome 1 (FileSystemUpdater.promises u) promise with
  | Some Promise.Fulfilled => (Ok (), u)
  | Some (Promise.Rejected err) => (Throw err, u)
  | _ => (Throw "unsettled", u)
  end.

(** A JavaScript [Set] built by [add]: first occurrences, in order. *)
Definition setOf (l : list string) : list string :=
  foldl (λ acc x, if decide (x ∈ acc) then acc else acc ++ [x]) [] l.

(** The two loops of [ensureTransitiveFileDependencies] that fill
    [importPaths]. *)
Definition importPathsOf (pm : t) (filePath : string)
    (compilerOpt : Env.options E) (contents : string) : list string :=
  let '(importedFiles, referencedFiles) := Env.preProcessFile E contents in
  setOf
    (omap (λ imp, Env.resolveModuleName E (Env.toUnixPath E imp) filePath
                    compilerOpt (localFs pm)) importedFiles
     ++ map (λ ref, Env.resolveReference E (strict pm) (rootPath pm) filePath ref)
            referencedFiles).

(** [ensureTransitiveFileDependencies(uri, maxDepth, seen)]. [None]: the
    call does not return ([getConfiguration] loops). *)
Fixpoint ensureTransitiveFileDependencies (remote : string → res string)
    (maxDepth : nat) (uri : string) (w : Crawl) : option (res () * Crawl) :=
  (* seen.add(uri) *)
  let w := mkCrawl (manager w) ({[uri]} ∪ seen w) (uri :: visits w) (expansions w) in
  let '(fetched, u) := awaitEnsure remote uri (updater (manager w)) in
  let w := set_manager (set_updater u (manager w)) w in
  match fetched with
  | Throw err => Some (Throw err, w)
  | Ok _ =>
      match maxDepth with
      | O => Some (Ok (), w)
      | S depth =>
          let pm := manager w in
          let filePath := Env.uri2path E uri in
          match getConfiguration pm filePath with
          | None => None
          | Some (Throw err) => Some (Throw err, w)
          | Some (Ok (dir, config)) =>
              let '(basic, config, vs) :=
                ProjectConfiguration.ensureBasicFiles E (localFs pm) (versions pm) config in
              let pm := set_versions vs (set_configs (<[dir := config]> (configs pm)) pm) in
              let w := set_manager pm w in
              match basic, MemFs.getContent uri (localFs pm),
                    ProjectConfiguration.getHost E config with
              | Throw err, _, _ => Some (Throw err, w)
              | Ok _, Throw err, _ => Some (Throw err, w)
              | Ok _, Ok _, Throw err => Some (Throw err, w)
              | Ok _, Ok contents, Ok h =>
                  let importPaths :=
                    importPathsOf pm filePath (Host.options h) contents in
                  let w := mkCrawl (manager w) (seen w) (visits w) (uri :: expansions w) in
                  (* Promise.all(iterate(importPaths).map(async importPath => ...)):
                     every path of importPaths is entered, errors are logged *)
                  match
                    foldl (λ acc importPath,
                             match acc with
                             | None => None
                             | Some w =>
                                 match ensureTransitiveFileDependencies remote depth importPath w with
                                 | None => None
                                 | Some (_, w') => Some w'
                                 end
                             end)
                          (Some w) importPaths
                  with
                  | None => None
                  | Some w => Some (Ok (), w)
                  end
              end
          end
      end
  end.

(** Two crawl states that differ at most in their [seen] sets. *)
Definition alike (w1 w2 : Crawl) : Prop :=
  manager w1 = manager w2 ∧ visits w1 = visits w2
  ∧ expansions w1 = expansions w2.

Definition alike_result (o1 o2 : option (res () * Crawl)) : Prop :=
  match o1, o2 with
  | Some (r1, w1), Some (r2, w2) => r1 = r2 ∧ alike w1 w2
  | None, None => True
  | _, _ => False
  end.

Definition alike_acc (a1 a2 : option Crawl) : Prop :=
  match a1, a2 with
  | Some w1, Some w2 => alike w1 w2
  | None, None => True
  | _, _ => False
  end.

(** The crawl as [ensureFilesForHoverAndDefinition] starts it: depth 30 and a
    fresh [seen] set. *)
Definition crawl (remote : string → res string) (uri : string) (pm : t)
    : option (res () * Crawl) :=
  ensureTransitiveFileDependencies remote 30 uri (mkCrawl pm ∅ [] []).

End ProjectManager.
Arguments rootPath {E} _.
Arguments configs {E} _.
Arguments strict {E} _.
Arguments updater {E} _.
Arguments versions {E} _.
Arguments traceModuleResolution {E} _.
Arguments localFs {E} _.
Arguments manager {E} _.
Arguments seen {E} _.
Arguments visits {E} _.
Arguments expansions {E} _.
End ProjectManager.

(** ** A small instance of the collaborators

    Used to run the embedding on concrete workspaces. A file's text is the
    one module it imports (the empty text imports nothing), every import
    resolves to the path of the same name, the only well-formed
    configuration text is ["{}"], and paths already are relative to the
    root. *)

Definition exampleEnv : Env.t :=
  {| Env.json := ();
     Env.options := ();
     Env.program := list string;
     Env.parseConfigFileTextToJson := λ _ text,
       if decide (text = "{}") then Ok () else Throw "syntax error";
     Env.parseJsonConfigFileContent := λ _ _ _, ([], ());
     Env.allowJs := id;
     Env.traceResolution := id;
     Env.getProgram := λ _ files _, files;
     Env.scriptVersionQueries := id;
     Env.getSourceFile := λ prog f, bool_decide (f ∈ prog);
     Env.preProcessFile := λ contents,
       (if decide (contents = "") then [] else [contents], []);
     Env.resolveModuleName := λ imp _ _ _, Some imp;
     Env.catchAllConfig := ();
     Env.uri2path := id;
     Env.toUnixPath := id;
     Env.normalizeDir := id;
     Env.isGlobalTSFile := λ _, false;
     Env.isDependencyFile := PosixPath.in_node_modules;
     Env.isDeclarationFile := PosixPath.ends_with ".d.ts";
     Env.fsPath := "/";
     Env.walkInMemoryFs := λ _ _, Ok [];
     Env.isAbsolute := λ p, negb (PosixPath.is_relative p);
     Env.join := λ a b, a +:+ "/" +:+ b;
     Env.relative := λ _ p, p;
     Env.resolveReference := λ _ _ _ ref, ref |}.

(** A manager over an empty in-memory file system, workspace root ["/"]. *)
Definition exampleManager : ProjectManager.t exampleEnv :=
  ProjectManager.create exampleEnv "/" (FileSystemUpdater.create MemFs.empty) true false.

(** A workspace with one project: [proj/tsconfig.json] and a source file. *)
Definition exampleProject : ProjectManager.t exampleEnv :=
  ProjectManager.createConfigurations exampleEnv
    (ProjectManager.set_localFs exampleEnv
       (MemFs.add "proj/tsconfig.json" (Some "{}")
          (MemFs.add "proj/src/x.ts" (Some "") MemFs.empty))
       exampleManager).

(** A workspace whose only marker file lies in a subdirectory. *)
Definition exampleSubproject : ProjectManager.t exampleEnv :=
  ProjectManager.set_localFs exampleEnv
    (MemFs.add "sub/tsconfig.json" (Some "{}")
       (MemFs.add "main.ts" (Some "") MemFs.empty))
    exampleManager.

(** A workspace whose configuration file is malformed. *)
Definition exampleBrokenDisk : MemFs.t :=
  MemFs.add "bad/tsconfig.json" (Some "{") MemFs.empty.

Definition exampleBroken : ProjectManager.t exampleEnv :=
  ProjectManager.createConfigurations exampleEnv
    (ProjectManager.set_localFs exampleEnv exampleBrokenDisk exampleManager).


(** A remote workspace with a cyclic import graph: [a.ts] imports [b.ts] and
    [b.ts] imports [a.ts]. *)
Definition exampleCyclicRemote (uri : string) : res string :=
  if decide (uri = "a.ts") then Ok "b.ts"
  else if decide (uri = "b.ts") then Ok "a.ts"
  else Throw "NotFound".

Definition exampleCyclic : ProjectManager.t exampleEnv :=
  ProjectManager.createConfigurations exampleEnv exampleManager.

(** How often [x] occurs in a log. *)
Definition occurrences (x : string) (l : list string) : nat :=
  length (filter (λ y, y = x) l).

(** A manager whose workspace root is [/workspace], with no configuration
    yet, and the same manager after [createConfigurations]: the file system
    is empty, so the catch-all configuration is its only one. *)
Definition exampleWorkspaceManager : ProjectManager.t exampleEnv :=
  ProjectManager.create exampleEnv "/workspace"
    (FileSystemUpdater.create MemFs.empty) true false.

Definition exampleWorkspace : ProjectManager.t exampleEnv :=
  ProjectManager.createConfigurations exampleEnv exampleWorkspaceManager.


(** ** [DiagnosticsPublisher] ([diagnostics.ts])

    A JavaScript [Map] or [Set] that is iterated keeps its insertion order:
    [Map<string, V>] is an association list with distinct keys in insertion
    order, [Set<string>] a list without repetition. The calls of
    [remoteClient.textDocumentPublishDiagnostics] are collected in the order
    they are made. *)

Module JsMap.
Section JsMap.
Context {V : Type}.

(** [map.get(key)] *)
Fixpoint get (key : string) (m : list (string * V)) : option V :=
  match m with
  | [] => None
  | (k, v) :: m' => if decide (k = key) then Some v else get key m'
  end.

(** [map.has(key)] *)
Definition has (key : string) (m : list (string * V)) : bool :=
  bool_decide (is_Some (get key m)).

(** [map.set(key, value)]: an existing key keeps its place, a new key goes
    to the end. *)
Fixpoint set (key : string) (value : V) (m : list (string * V)) : list (string * V) :=
  match m with
  | [] => [(key, value)]
  | (k, v) :: m' =>
      if decide (k = key) then (k, value) :: m' else (k, v) :: set key value m'
  end.

End JsMap.

(** [set.add(x)] on a [Set<string>] *)
Definition add (x : string) (s : list string) : list string :=
  if decide (x ∈ s) then s else s ++ [x].

End JsMap.

Module Diagnostics.

(** [ts.DiagnosticCategory] *)
Inductive DiagnosticCategory : Type := Warning | Error | Message.

(** [DiagnosticSeverity] of the language server protocol *)
Inductive DiagnosticSeverity : Type :=
| SeverityError | SeverityWarning | SeverityInformation | SeverityHint.

(** The [TypeError] thrown when [property] is read from [undefined]. *)
Definition typeError (property : string) : string :=
  "TypeError: Cannot read property '" +:+ property +:+ "' of undefined".

(** [array.map(f)] for an [f] that may throw: the first error ends it. *)
Fixpoint mapRes {A B : Type} (f : A → res B) (l : list A) : res (list B) :=
  match l with
  | [] => Ok []
  | x :: l' =>
      match f x with
      | Throw err => Throw err
      | Ok y =>
          match mapRes f l' with
          | Throw err => Throw err
          | Ok ys => Ok (y :: ys)
          end
      end
  end.

Section Diagnostics.
(** [ts.Diagnostic.messageText] and [ts.flattenDiagnosticMessageText] *)
Variable MessageText : Type.
Variable flattenDiagnosticMessageText : MessageText → string → string.
(** [sourceFile.getLineAndCharacterOfPosition], by file name *)
Variable getLineAndCharacterOfPosition : string → nat → nat * nat.
(** [util.path2uri] *)
Variable path2uri : string → string → string.

(** [ts.Diagnostic]. [file] is the [fileName] of the diagnostic's source
    file; it is [None] when the diagnostic has none ([file] is [undefined],
    as for the diagnostics of the compiler options and the global ones that
    [ts.getPreEmitDiagnostics] returns). *)
Record Diagnostic : Type := mkDiagnostic {
  file : option string;
  start : nat;
  length : nat;
  messageText : MessageText;
  category : DiagnosticCategory;
  code : nat
}.

(** The diagnostic objects of [PublishDiagnosticsParams]. *)
Record LspDiagnostic : Type := mkLspDiagnostic {
  range : (nat * nat) * (nat * nat);
  message : string;
  severity : DiagnosticSeverity;
  lspCode : nat;
  source : string
}.

Record PublishDiagnosticsParams : Type := mkParams {
  uri : string;
  diagnostics : list LspDiagnostic
}.

(** [parseDiagnosticCategory(category)] *)
Definition parseDiagnosticCategory (c : DiagnosticCategory) : DiagnosticSeverity :=
  match c with
  | Error => SeverityError
  | Warning => SeverityWarning
  | Message => SeverityInformation
  end.

(** ['\n'] *)
Definition newline : string := String (ascii_of_nat 10) EmptyString.

(** The callback of [diagnostics.map] in [publishFileDiagnostics]:
    [d.file.getLineAndCharacterOfPosition] is a [TypeError] when [d] has no
    file. *)
Definition lspDiagnostic (d : Diagnostic) : res LspDiagnostic :=
  let text := flattenDiagnosticMessageText (messageText d) newline in
  match file d with
  | None => Throw (typeError "getLineAndCharacterOfPosition")
  | Some fileName =>
      Ok {| range := (getLineAndCharacterOfPosition fileName (start d),
                      getLineAndCharacterOfPosition fileName (start d + length d));
            message := text;
            severity := parseDiagnosticCategory (category d);
            lspCode := code d;
            source := "ts" |}
  end.

(** The argument of [textDocumentPublishDiagnostics] that
    [publishFileDiagnostics(file, diagnostics)] builds; the message is sent
    when building it did not throw. *)
Definition publishFileDiagnostics (fileName : string) (ds : list Diagnostic)
    : res PublishDiagnosticsParams :=
  match mapRes lspDiagnostic ds with
  | Throw err => Throw err
  | Ok diagnostics => Ok {| uri := path2uri "" fileName; diagnostics := diagnostics |}
  end.

(** [groupByFile(diagnostics)]: [d.file.fileName] is a [TypeError] when [d]
    has no file, which ends the [forEach] and the call. *)
Definition groupByFile (ds : list Diagnostic) : res (list (string * list Diagnostic)) :=
  foldl (λ acc d,
           match acc with
           | Throw err => Throw err
           | Ok diagnosticsByFile =>
               match file d with
               | None => Throw (typeError "fileName")
               | Some fileName =>
                   Ok (match JsMap.get fileName diagnosticsByFile with
                       | None => JsMap.set fileName [d] diagnosticsByFile
                       | Some diagnosticsForFile =>
                           JsMap.set fileName (diagnosticsForFile ++ [d])
                             diagnosticsByFile
                       end)
               end
           end)
        (Ok []) ds.

(** The map [diagnosticsByFile] of [updateFileDiagnostics] after the loop
    over [problemFiles]; [grouped] is what [groupByFile] returned. *)
Definition diagnosticsByFile (problemFiles : list string)
    (grouped : list (string * list Diagnostic)) : list (string * list Diagnostic) :=
  foldl (λ byFile fileName,
           if JsMap.has fileName byFile then byFile
           else JsMap.set fileName [] byFile)
        grouped problemFiles.

(** [updateFileDiagnostics(diagnostics)]: how the call ends, the messages
    sent, in order, and [problemFiles] when it ends. An error of
    [groupByFile] comes before anything is sent and before
    [problemFiles.clear()]. *)
Definition updateFileDiagnostics (problemFiles : list string) (ds : list Diagnostic)
    : res () * list PublishDiagnosticsParams * list string :=
  match groupByFile ds with
  | Throw err => (Throw err, [], problemFiles)
  | Ok grouped =>
      foldl (λ '(outcome, sent, problemFiles) '(fileName, diagnostics),
               match outcome with
               | Throw err => (Throw err, sent, problemFiles)
               | Ok _ =>
                   match publishFileDiagnostics fileName diagnostics with
                   | Throw err => (Throw err, sent, problemFiles)
                   | Ok params =>
                       (Ok (), sent ++ [params],
                        if decide (0 < List.length diagnostics)
                        then JsMap.add fileName problemFiles
                        else problemFiles)
                   end
               end)
            (Ok (), [], []) (diagnosticsByFile problemFiles grouped)
  end.

(** The files that have a diagnostic in [ds], each once, in the order of
    their first diagnostic. *)
Definition filesOf (ds : list Diagnostic) : list string :=
  foldl (λ files d,
           match file d with
           | Some fileName => JsMap.add fileName files
           | None => files
           end) [] ds.

(** Every diagnostic of [ds] has a source file. *)
Definition allHaveFile (ds : list Diagnostic) : Prop :=
  Forall (λ d, is_Some (file d)) ds.

End Diagnostics.
End Diagnostics.

(** Three diagnostics of two files, and a diagnostic without a file. *)
Definition exampleDiagnostic (fileName : option string) (position : nat)
    : Diagnostics.Diagnostic string :=
  Diagnostics.mkDiagnostic string fileName position 1 "message" Diagnostics.Error position.

Definition exampleDiagnostics : list (Diagnostics.Diagnostic string) :=
  [exampleDiagnostic (Some "a.ts") 1; exampleDiagnostic (Some "b.ts") 2;
   exampleDiagnostic (Some "a.ts") 3].

Definition exampleGlobalDiagnostics : list (Diagnostics.Diagnostic string) :=
  [exampleDiagnostic (Some "a.ts") 1; exampleDiagnostic None 0].

(** ** Runs of the updater that leave the structure cache to [ensureStructure]

    The structure is listed by [fetchStructure]; the later revision's
    [ensureStructure] is the caller that respects the cache. A run [uses
    the structure cache] when it neither calls [fetchStructure] directly,
    nor [invalidateStructure], nor the earlier revision's
    [ensureStructure]. *)

Definition usesStructureCache (ev : FileSystemUpdater.event) : Prop :=
  match ev with
  | FileSystemUpdater.FetchStructure
  | FileSystemUpdater.InvalidateStructure
  | FileSystemUpdater.EnsureStructure_v1
  | FileSystemUpdater.Resume_v1 _ => False
  | _ => True
  end.

(** The number of listings that the remote file system answered with an
    error in a run. *)
Fixpoint failedListings (evs : list FileSystemUpdater.event) : nat :=
  match evs with
  | [] => 0
  | FileSystemUpdater.FilesReply _ (Throw _) :: evs' => S (failedListings evs')
  | _ :: evs' => failedListings evs'
  end.

(** 1 while no listing is cached in [structureFetch], else 0. *)
Definition noListingCached (s : FileSystemUpdater.t) : nat :=
  match FileSystemUpdater.structureFetch s with Some _ => 0 | None => 1 end.

(** ** More vocabulary for [ProjectManager] *)

Section ProjectManager_more_defs.
Variable E : Env.t.

(** The directory [createConfigurations] registers for a marker file. *)
Definition markerDir (pm : ProjectManager.t E) (uri : string) : string :=
  PosixPath.dirname_or_empty
    (Env.relative E (ProjectManager.rootPath pm) (Env.uri2path E uri)).

(** [dir] and its next [n] ancestors, as the loop of [getConfiguration]
    steps through them. *)
Fixpoint parents (n : nat) (dir : string) : list string :=
  match n with
  | O => [dir]
  | S n' => dir :: parents n' (PosixPath.dirname_or_empty dir)
  end.

(** The crawl state [w'] continues [w]: the visits of [w'] are those of
    [w] with [new] ones in front, and [seen] has grown by exactly the new
    visits. *)
Definition continues (w w' : ProjectManager.Crawl E) (new : list string) : Prop :=
  ProjectManager.visits w' = new ++ ProjectManager.visits w
  ∧ ProjectManager.seen w' = list_to_set new ∪ ProjectManager.seen w.

(** No version in [vs'] is lower than in [vs]; a missing version counts as
    0. *)
Definition versionsGrow (vs vs' : gmap string N) : Prop :=
  ∀ k, (default 0 (vs !! k) ≤ default 0 (vs' !! k))%N.

End ProjectManager_more_defs.

(** ** [ProjectConfiguration]: its memoized state *)

Section ProjectConfiguration_more_defs.
Variable E : Env.t.

Local Abbreviation Config := (ProjectConfiguration.t E).

(** The memoized promises agree with the objects they stand for: a
    configuration whose [initialized] promise is fulfilled has its host,
    service and program, a fulfilled [ensuredBasicFiles] or
    [ensuredAllFiles] comes after a fulfilled [initialized], and a
    fulfilled [ensuredAllFiles] has a host marked complete. *)
Definition coherent (c : Config) : Prop :=
  (ProjectConfiguration.initialized c = Some (Ok ()) →
     is_Some (ProjectConfiguration.service c)
     ∧ is_Some (ProjectConfiguration.host c)
     ∧ is_Some (ProjectConfiguration.program c))
  ∧ (ProjectConfiguration.ensuredBasicFiles c = Some (Ok ()) →
     ProjectConfiguration.initialized c = Some (Ok ()))
  ∧ (ProjectConfiguration.ensuredAllFiles c = Some (Ok ()) →
     ProjectConfiguration.initialized c = Some (Ok ())
     ∧ Host.complete <$> ProjectConfiguration.host c = Some true).

(** [getHost()], [getService()] and [getProgram()] all return. *)
Definition gettersReturn (c : Config) : Prop :=
  (∃ h, ProjectConfiguration.getHost E c = Ok h)
  ∧ (∃ s, ProjectConfiguration.getService E c = Ok s)
  ∧ (∃ p, ProjectConfiguration.getProgram E c = Ok p).

(** The public methods of a configuration that change it, as its callers
    invoke them one after the other. *)
Inductive call : Type :=
  | EnsureConfigFile | EnsureBasicFiles | EnsureAllFiles | SyncProgram | Reset.

(** One call against the file system as it is at that moment; the outcome
    is dropped, the configuration and the shared versions are kept. *)
Definition perform (st : Config * gmap string N) (k : MemFs.t * call)
    : Config * gmap string N :=
  let '(c, vs) := st in
  let '(disk, method) := k in
  match method with
  | EnsureConfigFile =>
      let '(_, c, vs) := ProjectConfiguration.ensureConfigFile E disk vs c in (c, vs)
  | EnsureBasicFiles =>
      let '(_, c, vs) := ProjectConfiguration.ensureBasicFiles E disk vs c in (c, vs)
  | EnsureAllFiles =>
      let '(_, c, vs) := ProjectConfiguration.ensureAllFiles E disk vs c in (c, vs)
  | SyncProgram =>
      let '(_, c, vs) := ProjectConfiguration.syncProgram E disk vs c in (c, vs)
  | Reset => (ProjectConfiguration.reset E c, vs)
  end.

Definition performAll (ks : list (MemFs.t * call)) (st : Config * gmap string N)
    : Config * gmap string N :=
  foldl perform st ks.

Definition resets (ks : list (MemFs.t * call)) : nat :=
  sum_list (map (λ k, match k.2 with Reset => 1 | _ => 0 end) ks).

(** What one more [init] may still cost: the parses so far, and one more
    while nothing is memoized. *)
Definition parseBudget (c : Config) : nat :=
  ProjectConfiguration.parses c
  + match ProjectConfiguration.initialized c with Some _ => 0 | None => 1 end.

(** The files the loops of [ensureBasicFiles] and [ensureAllFiles] add: the
    expected files that pass [wanted] and have no source file in the
    program. *)
Definition missing (wanted : string → bool) (prog : Env.program E) (h : Host.t E)
    : list string :=
  filter (λ fileName, wanted fileName && negb (Env.getSourceFile E prog fileName) = true)
         (Host.expectedFilePaths h).

(** The test of the loop of [ensureBasicFiles]. *)
Definition isBasicFile (fileName : string) : bool :=
  Env.isGlobalTSFile E fileName
  || (negb (Env.isDependencyFile E fileName) && Env.isDeclarationFile E fileName).

End ProjectConfiguration_more_defs.

(** ** [ProjectConfiguration.getPackageName]

    [path_.dirname] is taken on a POSIX platform, where it is
    [path.posix.dirname]. [None]: the [while (true)] loop is still running
    when the fuel is used up. The result [Ok None] is [null] (or a
    [package.json] without a name). *)

Section ProjectConfiguration_getPackageName_defs.
Variable E : Env.t.
Variable jsonName : string → res (option string).   (* JSON.parse(text).name *)

Fixpoint getPackageName_loop (fuel : nat) (disk : MemFs.t) (currentDir : string)
    : option (res (option string)) :=
  match fuel with
  | O => None
  | S fuel' =>
      let pkgJsonFile := Env.join E currentDir "package.json" in
      if MemFs.fileExists pkgJsonFile disk
      then Some (match MemFs.readFile pkgJsonFile disk with
                 | Ok text => jsonName text
                 | Throw err => Throw err
                 end)
      else
        let parentDir := PosixPath.dirname currentDir in
        if decide (parentDir = "." ∨ parentDir = "/" ∨ parentDir = currentDir)
        then Some (Ok None)
        else getPackageName_loop fuel' disk parentDir
  end.

Definition getPackageName (disk : MemFs.t) (c : ProjectConfiguration.t E)
    : option (res (option string)) :=
  getPackageName_loop (S (String.length (ProjectConfiguration.rootFilePath c))) disk
    (ProjectConfiguration.rootFilePath c).

(** The directories whose [package.json] a search from [rootFilePath] may
    look at: [rootFilePath] itself and the directories above it other than
    ["/"] and ["."]. *)
Definition mayProbe (rootFilePath dir : string) : Prop :=
  ∃ n, Nat.iter n PosixPath.dirname rootFilePath = dir
       ∧ (n = 0 ∨ (dir ≠ "/" ∧ dir ≠ ".")).

End ProjectConfiguration_getPackageName_defs.

(** ** [ProjectManager.ensureFiles]

    [Promise.all(iterate(files).map(async path => ...))] starts every
    callback at once: each runs up to its [await], so [updater.ensure] has
    been called for every file, in order, before any answer arrives. The
    answers are then taken in the schedule of [drain]: the remote file
    system answers at once and the semaphore lets the waiting bodies in one
    by one. A failed fetch is caught and logged by the callback, so the
    promise of [ensureFiles] is fulfilled either way. The cancellation token
    is the one of a call that is never cancelled ([CancellationToken.None],
    no [dispose()]). *)

Section ProjectManager_ensureFiles_defs.
Variable E : Env.t.
Variable path2uri : string → string → string.   (* util.path2uri *)

Definition ensureFiles (remote : string → res string) (files : list string)
    (pm : ProjectManager.t E) : ProjectManager.t E :=
  let u := foldl (λ u path, (FileSystemUpdater.ensure (path2uri "" path) u).2)
                 (ProjectManager.updater pm) files in
  ProjectManager.set_updater E (ProjectManager.drain remote u) pm.

End ProjectManager_ensureFiles_defs.

(** Collaborators like [exampleEnv], except that a configuration expects
    every file of the file system. *)
Definition exampleListingEnv : Env.t :=
  {| Env.json := ();
     Env.options := ();
     Env.program := list string;
     Env.parseConfigFileTextToJson := λ _ text,
       if decide (text = "{}") then Ok () else Throw "syntax error";
     Env.parseJsonConfigFileContent := λ _ disk _, (MemFs.uris disk, ());
     Env.allowJs := id;
     Env.traceResolution := id;
     Env.getProgram := λ _ files _, files;
     Env.scriptVersionQueries := id;
     Env.getSourceFile := λ prog f, bool_decide (f ∈ prog);
     Env.preProcessFile := λ contents,
       (if decide (contents = "") then [] else [contents], []);
     Env.resolveModuleName := λ imp _ _ _, Some imp;
     Env.catchAllConfig := ();
     Env.uri2path := id;
     Env.toUnixPath := id;
     Env.normalizeDir := id;
     Env.isGlobalTSFile := λ _, false;
     Env.isDependencyFile := PosixPath.in_node_modules;
     Env.isDeclarationFile := PosixPath.ends_with ".d.ts";
     Env.fsPath := "/";
     Env.walkInMemoryFs := λ _ _, Ok [];
     Env.isAbsolute := λ p, negb (PosixPath.is_relative p);
     Env.join := λ a b, a +:+ "/" +:+ b;
     Env.relative := λ _ p, p;
     Env.resolveReference := λ _ _ _ ref, ref |}.

(** A project with a source file and a declaration file, and its
    configuration as [createConfigurations] makes it. *)
Definition exampleTypedDisk : MemFs.t :=
  MemFs.add "tsconfig.json" (Some "{}")
    (MemFs.add "main.ts" (Some "")
       (MemFs.add "types.d.ts" (Some "") MemFs.empty)).

Definition exampleTypedConfig : ProjectConfiguration.t exampleListingEnv :=
  ProjectConfiguration.create exampleListingEnv ProjectManager.localFsRef "/"
    ProjectManager.versionsRef "tsconfig.json" None false.

(** The host [init] makes for [exampleTypedConfig]. *)
Definition exampleTypedHost : Host.t exampleListingEnv :=
  Host.create exampleListingEnv "/" () (MemFs.uris exampleTypedDisk).

(** A project in [/proj/a] whose [package.json] lies one directory up, and
    the same file system with two more [package.json] files, one of them
    in the root directory. *)
Definition examplePackageConfig : ProjectConfiguration.t exampleEnv :=
  ProjectConfiguration.create exampleEnv ProjectManager.localFsRef "/proj/a"
    ProjectManager.versionsRef "proj/a/tsconfig.json" None false.

Definition examplePackageDisk : MemFs.t :=
  MemFs.add "/proj/package.json" (Some "proj") MemFs.empty.

Definition examplePackageDisk' : MemFs.t :=
  MemFs.add "//package.json" (Some "root")
    (MemFs.add "/other/package.json" (Some "other") examplePackageDisk).

Section PosixPath_examples.
Import PosixPath.

Example dirname_nested : dirname "proj/src/x.ts" = "proj/src".
Proof. reflexivity. Qed.
Example dirname_plain : dirname "x.ts" = ".".
Proof. reflexivity. Qed.
Example dirname_root_file : dirname "/x.ts" = "/".
Proof. reflexivity. Qed.
Example dirname_root : dirname "/" = "/".
Proof. reflexivity. Qed.
Example dirname_trailing : dirname "a/b/" = "a".
Proof. reflexivity. Qed.
Example dirname_double : dirname "//a" = "//".
Proof. reflexivity. Qed.
Example dirname_empty : dirname "" = ".".
Proof. reflexivity. Qed.
Example marker_nested : is_config_marker "proj/tsconfig.json" = true.
Proof. reflexivity. Qed.
Example marker_not_suffix : is_config_marker "proj/xtsconfig.json" = false.
Proof. reflexivity. Qed.
Example marker_not_prefix : is_config_marker "tsconfig.json.bak" = false.
Proof. reflexivity. Qed.
Example node_modules_inside : in_node_modules "a/node_modules/b/tsconfig.json" = true.
Proof. reflexivity. Qed.
Example node_modules_lookalike : in_node_modules "a/my_node_modules/tsconfig.json" = false.
Proof. reflexivity. Qed.
End PosixPath_examples.

(** ** Facts about [dirname] used by the directory walk *)

Section PosixPath_facts.
Import PosixPath.

Lemma dirname_scan_bound path i m e :
  dirname_scan path i m = Some e →
  1 ≤ e ∧ e ≤ i ∧ (m = true → e < i).
Proof.
  revert m e. induction i as [|i IH]; intros m e; simpl; [discriminate|].
  destruct (is_slash (String.get (S i) path)).
  - destruct m.
    + intros H. apply IH in H. lia.
    + intros [= <-]. split; [lia|]. split; [lia|discriminate].
  - intros H. apply IH in H. lia.
Qed.

Lemma length_substring_0 (s : string) e :
  e ≤ String.length s → String.length (String.substring 0 e s) = e.
Proof.
  revert s. induction e as [|e IH]; intros s He.
  - destruct s; reflexivity.
  - destruct s as [|c s]; simpl in *; [lia|]. rewrite IH; lia.
Qed.

Lemma get_substring_0 (s : string) e :
  1 ≤ e → String.get 0 (String.substring 0 e s) = String.get 0 s.
Proof. destruct e; [lia|]. destruct s; reflexivity. Qed.

Lemma eqb_dot_length (s : string) :
  String.length (if String.eqb s "." then "" else s) ≤ String.length s.
Proof. destruct (String.eqb s "."); simpl; lia. Qed.

(** Every step of the walk shortens the path, except at the root ["/"],
    which is its own parent. *)
Lemma dirname_or_empty_shorter path :
  path ≠ "" → path ≠ "/" →
  String.length (dirname_or_empty path) < String.length path.
Proof.
  intros Hne Hroot. unfold dirname_or_empty, dirname. cbv zeta.
  destruct (decide (String.length path = 0)) as [Hz|Hz].
  { destruct path; [done|discriminate]. }
  destruct (dirname_scan _ _ true) as [e|] eqn:Hscan.
  - apply dirname_scan_bound in Hscan as (He1 & He2 & He3).
    specialize (He3 eq_refl).
    destruct (is_slash (String.get 0 path) && (e =? 1)%nat) eqn:Hr.
    + apply andb_true_iff in Hr as [_ Hr]. apply Nat.eqb_eq in Hr.
      change (2 < String.length path). lia.
    + pose proof (eqb_dot_length (String.substring 0 e path)) as Hle.
      rewrite length_substring_0 in Hle by lia. lia.
  - destruct (is_slash (String.get 0 path)) eqn:Hr.
    + change (1 < String.length path).
      destruct path as [|c [|c' path]]; simpl in *; [lia| |lia].
      exfalso. apply Hroot. unfold is_slash in Hr.
      destruct (decide (c = slash)); [by subst|discriminate].
    + change (0 < String.length path). lia.
Qed.

Lemma dirname_root_fixed : dirname_or_empty "/" = "/".
Proof. reflexivity. Qed.

(** The parent of a relative path is relative. *)
Lemma dirname_or_empty_relative path :
  is_relative path = true → is_relative (dirname_or_empty path) = true.
Proof.
  unfold is_relative, dirname_or_empty, dirname. cbv zeta. intros Hrel.
  apply negb_true_iff in Hrel.
  destruct (decide (String.length path = 0)); [reflexivity|].
  rewrite Hrel. simpl andb.
  destruct (dirname_scan _ _ true) as [e|] eqn:Hscan; [|reflexivity].
  apply dirname_scan_bound in Hscan as (He1 & _ & _).
  destruct (String.eqb _ "."); [reflexivity|].
  by rewrite get_substring_0, Hrel.
Qed.

Lemma relative_not_root path : is_relative path = true → path ≠ "/".
Proof. intros H ->. discriminate. Qed.

End PosixPath_facts.

(** ** Single-flight content fetches *)

Section FileSystemUpdater_single_flight.
Import FileSystemUpdater.

Variable p : string.

Lemma n_tasks_app l1 l2 : n_tasks p (l1 ++ l2) = n_tasks p l1 + n_tasks p l2.
Proof.
  induction l1 as [|[q u] l1 IH]; simpl; [done|]. rewrite IH. lia.
Qed.

Lemma take_n_tasks pr l uri rest :
  take pr l = Some (uri, rest) →
  n_tasks p l = (if decide (uri = p) then 1 else 0) + n_tasks p rest.
Proof.
  revert rest. induction l as [|[q u] l IH]; intros rest; simpl; [done|].
  destruct (decide (q = pr)).
  - by intros [= -> ->].
  - destruct (take pr l) as [[b r]|]; [|done].
    intros [= -> <-]. simpl. rewrite (IH r eq_refl). lia.
Qed.

Lemma fetch_frame uri s :
  let s' := (fetch uri s).2 in
  (fetch uri s).1 = S (length (promises s))
  ∧ fetches s' = <[uri := length (promises s)]> (fetches s)
  ∧ waiting s' = waiting s ++ [(length (promises s), uri)]
  ∧ running s' = running s
  ∧ listing s' = listing s
  ∧ suspended s' = suspended s
  ∧ history s' = history s
  ∧ inMemoryFs s' = inMemoryFs s
  ∧ structureFetch s' = structureFetch s
  ∧ promises s'
    = <[S (length (promises s)) := Promise.Follows (length (promises s))]>
        ((promises s ++ [Promise.Pending]) ++ [Promise.Pending]).
Proof.
  unfold fetch, new_promise, settle, Promise.settle, Promise.alloc. simpl.
  rewrite length_app. simpl. rewrite Nat.add_1_r. by repeat split.
Qed.

Lemma single_flight_create fs : single_flight p (create fs).
Proof. repeat split; simpl; lia. Qed.

Lemma single_flight_fetch_other uri s :
  uri ≠ p → single_flight p s → single_flight p (fetch uri s).2.
Proof.
  intros Hne (H1 & H2 & H3).
  destruct (fetch_frame uri s) as (_ & Hf & Hw & Hr & _ & _ & Hh & _).
  unfold single_flight. rewrite Hf, Hw, Hr, Hh.
  rewrite n_tasks_app; simpl. destruct (decide (uri = p)); [done|].
  rewrite lookup_insert_ne by done. rewrite !Nat.add_0_r. done.
Qed.

Lemma single_flight_ensure uri s :
  single_flight p s → single_flight p (ensure uri s).2.
Proof.
  intros Hinv. unfold ensure.
  destruct (fetches s !! uri) as [pr|] eqn:Hf; [done|].
  destruct (decide (uri = p)) as [->|Hne];
    [|by apply single_flight_fetch_other].
  destruct Hinv as (H1 & H2 & H3).
  assert (count (Succeeded p) (history s)
          + (n_tasks p (waiting s) + n_tasks p (running s)) = 0) as Hz.
  { destruct (decide (1 ≤ count (Succeeded p) (history s)
                      + (n_tasks p (waiting s) + n_tasks p (running s)))) as [Hge|]; [|lia].
    apply H3 in Hge. rewrite Hf in Hge. by destruct Hge. }
  destruct (fetch_frame p s) as (_ & Hf' & Hw & Hr & _ & _ & Hh & _).
  unfold single_flight. rewrite Hf', Hw, Hr, Hh.
  rewrite n_tasks_app; simpl. destruct (decide (p = p)); [|done].
  rewrite lookup_insert_eq. split; [lia|]. split; [lia|eauto].
Qed.

Lemma single_flight_start s s' :
  single_flight p s → start s = Some s' → single_flight p s'.
Proof.
  intros (H1 & H2 & H3). unfold start.
  destruct (waiting s) as [|[pr uri] rest] eqn:Hw; [done|].
  destruct (decide _); [|done]. intros [= <-].
  unfold single_flight; simpl in *. rewrite n_tasks_app; simpl.
  destruct (decide (uri = p)) as [->|Hne].
  - destruct (decide (Invoked p = Invoked p)); [|done].
    destruct (decide (Invoked p = Failed p)); [done|].
    destruct (decide (Invoked p = Succeeded p)); [done|].
    simpl. split; [lia|]. split; [lia|]. intros _. apply H3. lia.
  - destruct (decide (Invoked uri = Invoked p)); [congruence|].
    destruct (decide (Invoked uri = Failed p)); [done|].
    destruct (decide (Invoked uri = Succeeded p)); [done|].
    simpl. rewrite !Nat.add_0_r. split; [lia|]. split; [lia|].
    intros Hge. apply H3. lia.
Qed.

Lemma single_flight_fetch_failed pr uri err rest s :
  single_flight p s →
  take pr (running s) = Some (uri, rest) →
  single_flight p (fetch_failed pr uri err (set_running rest s)).
Proof.
  intros (H1 & H2 & H3) Ht. apply take_n_tasks in Ht.
  unfold single_flight, fetch_failed; simpl.
  destruct (decide (uri = p)) as [->|Hne].
  - destruct (decide (Failed p = Invoked p)); [done|].
    destruct (decide (Failed p = Failed p)); [|done].
    destruct (decide (Failed p = Succeeded p)); [done|].
    simpl. split; [lia|]. split; [lia|]. intros Hge. lia.
  - destruct (decide (Failed uri = Invoked p)); [done|].
    destruct (decide (Failed uri = Failed p)); [congruence|].
    destruct (decide (Failed uri = Succeeded p)); [done|].
    simpl. rewrite lookup_delete_ne by done.
    split; [lia|]. split; [lia|]. intros Hge. apply H3. lia.
Qed.

Lemma single_flight_content_reply pr answer s s' :
  single_flight p s → content_reply pr answer s = Some s' → single_flight p s'.
Proof.
  intros Hinv. unfold content_reply.
  destruct (take pr (running s)) as [[uri rest]|] eqn:Ht; [|done].
  destruct answer as [content|err].
  - destruct (MemFs.getContent _ _) as [c|err].
    + intros [= <-]. destruct Hinv as (H1 & H2 & H3).
      apply take_n_tasks in Ht.
      unfold single_flight; simpl.
      destruct (decide (uri = p)) as [->|Hne].
      * destruct (decide (Succeeded p = Invoked p)); [done|].
        destruct (decide (Succeeded p = Failed p)); [done|].
        destruct (decide (Succeeded p = Succeeded p)); [|done].
        simpl. split; [lia|]. split; [lia|]. intros _. apply H3. lia.
      * destruct (decide (Succeeded uri = Invoked p)); [done|].
        destruct (decide (Succeeded uri = Failed p)); [done|].
        destruct (decide (Succeeded uri = Succeeded p)); [congruence|].
        simpl. split; [lia|]. split; [lia|]. intros Hge. apply H3. lia.
    + intros [= <-].
      by apply (single_flight_fetch_failed pr uri err rest
                  (set_inMemoryFs (MemFs.add uri (Some content) (inMemoryFs s)) s)).
  - intros [= <-]. by apply single_flight_fetch_failed.
Qed.

End FileSystemUpdater_single_flight.

Section FileSystemUpdater_trace.
Import FileSystemUpdater.

Variable p : string.

Lemma fetchStructure_frame s :
  let s' := (fetchStructure s).2 in
  fetches s' = fetches s ∧ waiting s' = waiting s ∧ running s' = running s
  ∧ inMemoryFs s' = inMemoryFs s ∧ suspended s' = suspended s
  ∧ history s' = Listed :: history s.
Proof. by repeat split. Qed.

Lemma resume_v1_frame w s s' :
  resume_v1 w s = Some s' →
  fetches s' = fetches s ∧ waiting s' = waiting s ∧ running s' = running s
  ∧ (history s' = history s ∨ history s' = Listed :: history s).
Proof.
  unfold resume_v1. destruct (take w (suspended s)) as [[awaited rest]|]; [|done].
  destruct awaited as [q|].
  - destruct (promises s !! q) as [[| |err|]|]; try done; intros [= <-]; simpl; auto.
  - intros [= <-]; simpl; auto.
Qed.

Lemma files_reply_frame pr answer s s' :
  files_reply pr answer s = Some s' →
  fetches s' = fetches s ∧ waiting s' = waiting s ∧ running s' = running s
  ∧ history s' = history s.
Proof.
  unfold files_reply. destruct (decide _); [|done].
  destruct answer; intros [= <-]; by simpl.
Qed.

Lemma single_flight_frame s s' :
  fetches s' = fetches s → waiting s' = waiting s → running s' = running s →
  (history s' = history s ∨ history s' = Listed :: history s) →
  single_flight p s → single_flight p s'.
Proof.
  unfold single_flight. intros -> -> -> [->| ->]; simpl; [done|].
  destruct (decide (Listed = Invoked p)); [done|].
  destruct (decide (Listed = Failed p)); [done|].
  destruct (decide (Listed = Succeeded p)); [done|]. done.
Qed.

(** Every transition other than a direct [fetch(p)] or [invalidate(p)]
    keeps the invariant. *)
Lemma single_flight_step ev s s' :
  keeps_cache p ev → single_flight p s → step ev s = Some s' →
  single_flight p s'.
Proof.
  intros [Hnf Hni] Hinv. destruct ev as [uri|uri|uri| | | | |w| |pr a|pr a|f]; simpl.
  - intros [= <-]. by apply single_flight_ensure.
  - intros [= <-]. apply single_flight_fetch_other; [congruence|done].
  - intros [= <-]. destruct Hinv as (H1 & H2 & H3). unfold single_flight; simpl.
    rewrite lookup_delete_ne by congruence. done.
  - intros [= <-]. unfold ensureStructure. destruct (structureFetch s); [done|].
    eapply single_flight_frame; [..|exact Hinv]; simpl; auto.
  - intros [= <-]. eapply single_flight_frame; [..|exact Hinv]; simpl; auto.
  - intros [= <-]. done.
  - intros [= <-]. done.
  - intros Hr. apply resume_v1_frame in Hr as (? & ? & ? & ?).
    by eapply single_flight_frame.
  - by apply single_flight_start.
  - by apply single_flight_content_reply.
  - intros Hr. apply files_reply_frame in Hr as (? & ? & ? & ?).
    eapply single_flight_frame; eauto.
  - intros [= <-]. done.
Qed.

Lemma single_flight_run evs s s' :
  Forall (keeps_cache p) evs → single_flight p s → run evs s = Some s' →
  single_flight p s'.
Proof.
  revert s. induction evs as [|ev evs IH]; intros s Hall Hinv; simpl.
  - by intros [= <-].
  - destruct (step ev s) as [s1|] eqn:Hstep; [|done].
    apply Forall_cons in Hall as [Hev Hall].
    apply IH; [done|]. by eapply single_flight_step.
Qed.

(** The number of failed fetches of [p] never goes down ... *)
Lemma failed_mono_step ev s s' :
  step ev s = Some s' →
  count (Failed p) (history s) ≤ count (Failed p) (history s').
Proof.
  destruct ev as [uri|uri|uri| | | | |w| |pr a|pr a|f]; simpl.
  - intros [= <-]. unfold ensure. destruct (fetches s !! uri); simpl; lia.
  - intros [= <-]. simpl. lia.
  - intros [= <-]. simpl. lia.
  - intros [= <-]. unfold ensureStructure. destruct (structureFetch s); simpl; [lia|].
    destruct (decide (Listed = Failed p)); [done|]. simpl; lia.
  - intros [= <-]. simpl. lia.
  - intros [= <-]. simpl. lia.
  - intros [= <-]. simpl. lia.
  - intros Hr. apply resume_v1_frame in Hr as (_ & _ & _ & [-> | ->]); simpl; lia.
  - unfold start. destruct (waiting s) as [|[pr uri] rest]; [done|].
    destruct (decide _); [|done]. intros [= <-]. simpl. lia.
  - unfold content_reply. destruct (take pr (running s)) as [[uri rest]|]; [|done].
    destruct a as [content|err]; [destruct (MemFs.getContent _ _)|];
      intros [= <-]; simpl; lia.
  - intros Hr. apply files_reply_frame in Hr as (_ & _ & _ & ->). lia.
  - intros [= <-]. simpl. lia.
Qed.

Lemma failed_mono_run evs s s' :
  run evs s = Some s' →
  count (Failed p) (history s) ≤ count (Failed p) (history s').
Proof.
  revert s. induction evs as [|ev evs IH]; intros s; simpl.
  - by intros [= <-].
  - destruct (step ev s) as [s1|] eqn:Hstep; [|done]. intros Hrun.
    apply failed_mono_step in Hstep. apply IH in Hrun. lia.
Qed.

(** ... and as long as it stays the same, the cached promise of [p] stays
    in [fetches]. *)
Lemma entry_kept_step ev s s' pr :
  keeps_cache p ev → step ev s = Some s' →
  fetches s !! p = Some pr →
  count (Failed p) (history s') = count (Failed p) (history s) →
  fetches s' !! p = Some pr.
Proof.
  intros [Hnf Hni]. destruct ev as [uri|uri|uri| | | | |w| |pr' a|pr' a|f]; simpl.
  - intros [= <-] Hf _. unfold ensure.
    destruct (fetches s !! uri) eqn:Hu; [done|]. simpl.
    rewrite lookup_insert_ne; [done|]. intros ->. congruence.
  - intros [= <-] Hf _. simpl. rewrite lookup_insert_ne; [done|congruence].
  - intros [= <-] Hf _. simpl. rewrite lookup_delete_ne; [done|congruence].
  - intros [= <-] Hf _. unfold ensureStructure. by destruct (structureFetch s).
  - by intros [= <-].
  - by intros [= <-].
  - by intros [= <-].
  - intros Hr. apply resume_v1_frame in Hr as (-> & _). done.
  - unfold start. destruct (waiting s) as [|[q uri] rest]; [done|].
    destruct (decide _); [|done]. by intros [= <-].
  - unfold content_reply. destruct (take pr' (running s)) as [[uri rest]|]; [|done].
    assert (∀ err s0, fetches s0 = fetches s →
              fetches s0 !! p = Some pr →
              count (Failed p) (history (fetch_failed pr' uri err s0))
                = count (Failed p) (history s0) →
              fetches (fetch_failed pr' uri err s0) !! p = Some pr) as Hfail.
    { intros err s0 _ Hf. simpl. destruct (decide (Failed uri = Failed p)) as [|Hne].
      - lia.
      - intros _. rewrite lookup_delete_ne; [done|congruence]. }
    destruct a as [content|err]; [destruct (MemFs.getContent _ _)|];
      intros [= <-] Hf Hc; [done|by apply Hfail..].
  - intros Hr. apply files_reply_frame in Hr as (-> & _). done.
  - by intros [= <-].
Qed.

Lemma entry_kept_run evs s s' pr :
  Forall (keeps_cache p) evs → run evs s = Some s' →
  fetches s !! p = Some pr →
  count (Failed p) (history s') = count (Failed p) (history s) →
  fetches s' !! p = Some pr.
Proof.
  revert s. induction evs as [|ev evs IH]; intros s Hall; simpl.
  - by intros [= <-].
  - destruct (step ev s) as [s1|] eqn:Hstep; [|done]. intros Hrun Hf Hc.
    apply Forall_cons in Hall as [Hev Hall].
    pose proof (failed_mono_step _ _ _ Hstep) as Hm1.
    pose proof (failed_mono_run _ _ _ Hrun) as Hm2.
    apply (IH s1); [done|done| |lia].
    eapply entry_kept_step; eauto. lia.
Qed.

End FileSystemUpdater_trace.

(** ** Promises that nobody settles *)

Section FileSystemUpdater_quiet.
Import FileSystemUpdater.

Lemma take_elem {A : Type} id (l : list (nat * A)) a rest :
  take id l = Some (a, rest) →
  id ∈ l.*1 ∧ ∀ id', id' ∈ rest.*1 → id' ∈ l.*1.
Proof.
  revert rest. induction l as [|[q b] l IH]; intros rest; simpl; [done|].
  destruct (decide (q = id)) as [->|Hne].
  - intros Heq. injection Heq as -> ->. split; [left|]. intros id' Hin. by right.
  - destruct (take id l) as [[c r]|]; [|done].
    intros Heq. injection Heq as -> <-. destruct (IH r eq_refl) as [Hin Hsub].
    split; [by right|]. intros id'. simpl. rewrite !elem_of_cons.
    intros [->|Hr]; [by left|]. right. by apply Hsub.
Qed.

Lemma evolves_refl s : evolves s s.
Proof. split; [done|]. split; [by left|done]. Qed.

Lemma evolves_frame s s' :
  promises s' = promises s → waiting s' = waiting s → running s' = running s →
  listing s' = listing s → suspended s' = suspended s →
  evolves s s'.
Proof.
  intros Hp Hw Hr Hl Hs. split; [by rewrite Hp|]. split.
  - intros id. unfold parked. rewrite Hw, Hr, Hl, Hs. by left.
  - intros w _. by rewrite Hp.
Qed.

Lemma evolves_quiet w s s' : evolves s s' → quiet w s → quiet w s'.
Proof.
  intros (Hlen & Hparked & _) [Hw Hnot]. split; [lia|].
  intros Hp. apply Hparked in Hp as [Hp|Hp]; [done|lia].
Qed.

Lemma evolves_trans s1 s2 s3 : evolves s1 s2 → evolves s2 s3 → evolves s1 s3.
Proof.
  intros H12 H23. pose proof H12 as (Hlen1 & Hp1 & Hl1).
  pose proof H23 as (Hlen2 & Hp2 & Hl2). split; [lia|]. split.
  - intros id Hp. apply Hp2 in Hp as [Hp|Hp]; [|right; lia].
    apply Hp1 in Hp as [Hp|Hp]; [by left|right; lia].
  - intros w Hq. rewrite Hl2; [by apply Hl1|]. by apply (evolves_quiet w s1).
Qed.

Lemma evolves_allocated s s' : evolves s s' → allocated s → allocated s'.
Proof.
  intros (Hlen & Hparked & _) Hall id Hp.
  apply Hparked in Hp as [Hp|Hp]; [|lia]. apply Hall in Hp. lia.
Qed.

Lemma evolves_fetch uri s : evolves s (fetch uri s).2.
Proof.
  destruct (fetch_frame uri s) as (_ & _ & Hw & Hr & Hl & Hs & _ & _ & _ & Hp).
  split; [|split].
  - rewrite Hp, length_insert, !length_app. simpl. lia.
  - intros id. unfold parked. rewrite Hw, Hr, Hl, Hs, Hp.
    rewrite fmap_app, elem_of_app, length_insert, !length_app. simpl.
    rewrite list_elem_of_singleton. intros [[?| ->]|?]; [tauto|right; lia|tauto].
  - intros w [Hlt _]. rewrite Hp. rewrite list_lookup_insert_ne by lia.
    rewrite <- app_assoc. by rewrite lookup_app_l.
Qed.

Lemma evolves_fetchStructure s : evolves s (fetchStructure s).2.
Proof.
  split; [|split].
  - simpl. rewrite length_app. lia.
  - intros id. unfold parked. simpl. rewrite elem_of_app, length_app. simpl.
    rewrite list_elem_of_singleton.
    intros [?|[?|[[?| ->]|?]]]; [tauto..|right; lia|tauto].
  - intros w [Hlt _]. simpl. by rewrite lookup_app_l.
Qed.

Lemma evolves_ensureStructure_v1 s : evolves s (ensureStructure_v1 s).2.
Proof.
  split; [|split].
  - simpl. rewrite length_app. lia.
  - intros id. unfold parked. simpl.
    rewrite fmap_app, elem_of_app, length_app. simpl.
    rewrite list_elem_of_singleton.
    intros [?|[?|[?|[?| ->]]]]; [tauto..|right; lia].
  - intros w [Hlt _]. simpl. by rewrite lookup_app_l.
Qed.

(** Settling the promise of a parked continuation and dropping parked
    continuations. *)
Lemma evolves_settle id st s s' :
  parked s id →
  promises s' = Promise.settle id st (promises s) →
  (∀ id', parked s' id' → parked s id') →
  evolves s s'.
Proof.
  intros Hid Hp Hsub. unfold Promise.settle in Hp. split; [|split].
  - by rewrite Hp, length_insert.
  - intros id' Hp'. left. by apply Hsub.
  - intros w [_ Hnot]. rewrite Hp. apply list_lookup_insert_ne. by intros ->.
Qed.

Lemma evolves_content_reply pr answer s s' :
  content_reply pr answer s = Some s' → evolves s s'.
Proof.
  unfold content_reply.
  destruct (take pr (running s)) as [[uri rest]|] eqn:Ht; [|done].
  apply take_elem in Ht as [Hin Hsub].
  assert (parked s pr) as Hpr by (right; by left).
  destruct answer as [content|err]; [destruct (MemFs.getContent _ _)|];
    intros Heq; injection Heq as <-;
    (eapply (evolves_settle pr); [done|reflexivity|]);
    intros id; unfold parked; simpl; intros [?|[?|[?|?]]]; auto.
Qed.

Lemma evolves_files_reply pr answer s s' :
  files_reply pr answer s = Some s' → evolves s s'.
Proof.
  unfold files_reply.
  destruct (decide (pr ∈ listing s)) as [Hin|]; [|done].
  assert (parked s pr) as Hpr by (right; right; by left).
  destruct answer as [uris|err]; intros Heq; injection Heq as <-;
    (eapply (evolves_settle pr); [done|reflexivity|]);
    intros id; unfold parked; simpl; rewrite list_elem_of_filter;
    intros [?|[?|[[_ ?]|?]]]; auto.
Qed.

Lemma evolves_resume_v1 w s s' : resume_v1 w s = Some s' → evolves s s'.
Proof.
  unfold resume_v1.
  destruct (take w (suspended s)) as [[awaited rest]|] eqn:Ht; [|done].
  apply take_elem in Ht as [Hin Hsub].
  assert (parked s w) as Hpw by (do 3 right; done).
  assert (evolves s (settle w (Promise.Follows (length (promises s)))
                       (fetchStructure (set_suspended rest s)).2)) as Hrun.
  { split; [|split].
    - simpl. unfold Promise.settle. rewrite length_insert, length_app. simpl. lia.
    - intros id. unfold parked. simpl. unfold Promise.settle.
      rewrite elem_of_app, length_insert, length_app. simpl.
      rewrite list_elem_of_singleton.
      intros [?|[?|[[?| ->]|?]]]; [tauto..|right; lia|auto 6].
    - intros w' [Hlt Hnot]. simpl. unfold Promise.settle.
      rewrite list_lookup_insert_ne by (by intros ->).
      by rewrite lookup_app_l. }
  assert (∀ id, parked (set_suspended rest s) id → parked s id) as Hdrop.
  { intros id. unfold parked. simpl. intros [?|[?|[?|?]]]; auto 6. }
  destruct awaited as [q|].
  - destruct (promises s !! q) as [[| |err|]|] eqn:Hq'; try done.
    + intros Heq. by injection Heq as <-.
    + intros Heq. injection Heq as <-. by eapply (evolves_settle w).
  - intros Heq. by injection Heq as <-.
Qed.

Lemma evolves_start s s' : start s = Some s' → evolves s s'.
Proof.
  unfold start. destruct (waiting s) as [|[pr uri] rest] eqn:Hw; [done|].
  destruct (decide _); [|done]. intros Heq. injection Heq as <-.
  split; [done|]. split; [|done].
  intros id. unfold parked. simpl. rewrite Hw, fmap_app, elem_of_app. simpl.
  rewrite list_elem_of_singleton, elem_of_cons.
  intros [?|[[?|?]|[?|?]]]; auto 7.
Qed.

(** Every transition of the updater evolves the promises. *)
Lemma evolves_step ev s s' : step ev s = Some s' → evolves s s'.
Proof.
  destruct ev as [uri|uri|uri| | | | |w'| |pr a|pr a|f]; simpl.
  - intros Heq. injection Heq as <-. unfold ensure.
    destruct (fetches s !! uri); [apply evolves_refl|apply evolves_fetch].
  - intros Heq. injection Heq as <-. apply evolves_fetch.
  - intros Heq. injection Heq as <-. by apply evolves_frame.
  - intros Heq. injection Heq as <-. unfold ensureStructure.
    destruct (structureFetch s); [apply evolves_refl|apply evolves_fetchStructure].
  - intros Heq. injection Heq as <-. apply evolves_fetchStructure.
  - intros Heq. injection Heq as <-. by apply evolves_frame.
  - intros Heq. injection Heq as <-. apply evolves_ensureStructure_v1.
  - apply evolves_resume_v1.
  - apply evolves_start.
  - apply evolves_content_reply.
  - apply evolves_files_reply.
  - intros Heq. injection Heq as <-. by apply evolves_frame.
Qed.

Lemma evolves_run evs s s' : run evs s = Some s' → evolves s s'.
Proof.
  revert s. induction evs as [|ev evs IH]; intros s; simpl.
  - intros Heq. injection Heq as <-. apply evolves_refl.
  - destruct (step ev s) as [s1|] eqn:Hstep; [|done]. intros Hrun.
    eapply evolves_trans; [by eapply evolves_step|by apply IH].
Qed.

Lemma allocated_create fs : allocated (create fs).
Proof. intros id. unfold parked. simpl. rewrite !elem_of_nil. tauto. Qed.

(** The promise [fetch] hands to its caller is quiet, and it is resolved
    with the promise cached in [fetches]. *)
Lemma fetch_result_quiet uri s :
  allocated s →
  quiet (fetch uri s).1 (fetch uri s).2
  ∧ promises (fetch uri s).2 !! (fetch uri s).1
    = Some (Promise.Follows (length (promises s)))
  ∧ fetches (fetch uri s).2 !! uri = Some (length (promises s)).
Proof.
  intros Hall.
  destruct (fetch_frame uri s) as (H1 & Hf & Hw & Hr & Hl & Hs & _ & _ & _ & Hp).
  rewrite H1. split; [split|split].
  - rewrite Hp, length_insert, !length_app. simpl. lia.
  - unfold parked. rewrite Hw, Hr, Hl, Hs, fmap_app, elem_of_app. simpl.
    rewrite list_elem_of_singleton. intros [[Hin|?]|Hin]; [|lia|].
    + assert (parked s (S (length (promises s)))) as Hpk by (by left).
      apply Hall in Hpk. lia.
    + assert (parked s (S (length (promises s)))) as Hpk by (by right).
      apply Hall in Hpk. lia.
  - rewrite Hp. apply list_lookup_insert_eq. rewrite !length_app. simpl. lia.
  - rewrite Hf. apply lookup_insert_eq.
Qed.

End FileSystemUpdater_quiet.

(** ** What the specification says about [FileSystemUpdater] *)

Section FileSystemUpdater_claims.
Import FileSystemUpdater.

Lemma getContent_add uri content fs :
  MemFs.getContent uri (MemFs.add uri (Some content) fs) = Ok content.
Proof. unfold MemFs.getContent, MemFs.add; simpl. by rewrite lookup_insert_eq. Qed.

Lemma ensure_cached uri s pr :
  fetches s !! uri = Some pr → ensure uri s = (pr, s).
Proof. unfold ensure. by intros ->. Qed.

Lemma content_reply_ok_keeps_fetches pr content s s' :
  content_reply pr (Ok content) s = Some s' →
  fetches s' = fetches s
  ∧ ∃ uri, MemFs.getContent uri (inMemoryFs s') = Ok content
           ∧ history s' = Succeeded uri :: history s.
Proof.
  unfold content_reply.
  destruct (take pr (running s)) as [[uri rest]|]; [|done]. simpl.
  rewrite getContent_add. intros [= <-]. simpl. split; [done|].
  exists uri. by rewrite getContent_add.
Qed.

(** C3. A fetch for [p] begins when [ensure(p)] finds no entry; the caller
    gets a promise [w] that is resolved with the promise [pr] cached in
    [fetches]. From then on, over any further activity of the updater that
    goes through [ensure] (no direct [fetch(p)], no [invalidate(p)]) and in
    which that fetch does not fail, every [ensure(p)] returns the cached
    promise [pr] and changes nothing, [w] still follows [pr] (so every
    caller sees the one outcome of [pr]), the remote
    [getTextDocumentContent(p)] has been called at most once since the fetch
    began, and after the successful answer the entry is still cached, so
    [ensure(p)] again returns [pr] without a new fetch. *)
Theorem ensure_is_single_flight
    (p : string) (fs : MemFs.t) (before window : list event)
    (s0 s1 s2 : t) (w : nat) :
  Forall (keeps_cache p) before →
  run before (create fs) = Some s0 →
  fetches s0 !! p = None →
  ensure p s0 = (w, s1) →
  Forall (keeps_cache p) window →
  run window s1 = Some s2 →
  count (Failed p) (history s2) = count (Failed p) (history s1) →
  ∃ pr,
    fetches s1 !! p = Some pr
    ∧ promises s2 !! w = Some (Promise.Follows pr)
    ∧ ensure p s2 = (pr, s2)
    ∧ count (Invoked p) (history s2) ≤ S (count (Invoked p) (history s0))
    ∧ ∀ content s3, content_reply pr (Ok content) s2 = Some s3 →
                    ensure p s3 = (pr, s3)
                    ∧ promises s3 !! w = Some (Promise.Follows pr)
                    ∧ count (Invoked p) (history s3) = count (Invoked p) (history s2).
Proof.
  intros Hbefore Hrun0 Hnone Hens Hwindow Hrun Hfailed.
  pose proof (single_flight_run p _ _ _ Hbefore (single_flight_create p fs) Hrun0) as Hinv0.
  pose proof (single_flight_ensure p p s0 Hinv0) as Hinv1.
  rewrite Hens in Hinv1. simpl in Hinv1.
  pose proof (single_flight_run p _ _ _ Hwindow Hinv1 Hrun) as Hinv2.
  pose proof (evolves_allocated _ _ (evolves_run _ _ _ Hrun0) (allocated_create fs)) as Hall0.
  unfold ensure in Hens. rewrite Hnone in Hens.
  destruct (fetch_result_quiet p s0 Hall0) as (Hquiet1 & Hfollows1 & Hentry1).
  destruct (fetch_frame p s0) as (_ & _ & _ & _ & _ & _ & Hhist1 & _).
  rewrite Hens in Hquiet1, Hfollows1, Hentry1, Hhist1. simpl in *.
  pose proof (evolves_run _ _ _ Hrun) as Hev.
  pose proof (entry_kept_run p _ _ _ _ Hwindow Hrun Hentry1 Hfailed) as Hentry2.
  exists (length (promises s0)).
  split; [done|]. split.
  { destruct Hev as (_ & _ & Hkeep). by rewrite Hkeep. }
  split; [by apply ensure_cached|]. split.
  - destruct Hinv0 as (E0 & B0 & C0). destruct Hinv2 as (E2 & B2 & _).
    assert (count (Succeeded p) (history s0)
            + (n_tasks p (waiting s0) + n_tasks p (running s0)) = 0) as Hz.
    { destruct (decide (1 ≤ count (Succeeded p) (history s0)
                        + (n_tasks p (waiting s0) + n_tasks p (running s0)))) as [Hge|]; [|lia].
      apply C0 in Hge. rewrite Hnone in Hge. by destruct Hge. }
    rewrite Hhist1 in Hfailed. lia.
  - intros content s3 Hreply.
    pose proof (evolves_content_reply _ _ _ _ Hreply) as (_ & _ & Hkeep3).
    apply content_reply_ok_keeps_fetches in Hreply as (Hf & uri & _ & Hh).
    split; [|split].
    + apply ensure_cached. by rewrite Hf.
    + rewrite Hkeep3; [|by apply (evolves_quiet w s1)].
      destruct Hev as (_ & _ & Hkeep). by rewrite Hkeep.
    + rewrite Hh. simpl. by destruct (decide (Succeeded uri = Invoked p)).
Qed.

Lemma ensure_is_single_flight_witness :
  let p := "file:///a.ts" in
  let s0 := create MemFs.empty in
  let s1 := (ensure p s0).2 in
  ∃ s2, run [Ensure p; Start; Ensure "file:///b.ts"; Ensure p] s1 = Some s2
        ∧ ensure p s2 = (0, s2)
        ∧ promises s2 !! 1 = Some (Promise.Follows 0)
        ∧ count (Invoked p) (history s2) ≤ 1.
Proof.
  intros p s0 s1. eexists. split; [vm_compute; reflexivity|].
  match goal with |- ensure _ ?s2 = _ ∧ _ =>
    destruct (ensure_is_single_flight p MemFs.empty []
                [Ensure p; Start; Ensure "file:///b.ts"; Ensure p] s0 s1 s2 1)
      as (pr & H0 & H1 & H2 & H3 & _)
  end.
  - constructor.
  - reflexivity.
  - reflexivity.
  - reflexivity.
  - repeat constructor; discriminate.
  - vm_compute; reflexivity.
  - reflexivity.
  - assert (pr = 0) as -> by (vm_compute in H0; congruence).
    split; [exact H2|]. split; [exact H1|exact H3].
Defined.

(** C6. When the remote file system answers the fetch body of [p] with an
    error, the [catch] block deletes the entry of [p] from [fetches] and the
    promise of that fetch is rejected with the same error; the next
    [ensure(p)] therefore runs [fetch(p)]: it makes a new promise, queues a
    new fetch body for [p] and caches the new promise. *)
Theorem failed_fetch_is_retried (p err : string) (pr : nat) (rest : list (nat * string)) (s : t) :
  take pr (running s) = Some (p, rest) →
  pr < length (promises s) →
  ∃ s', content_reply pr (Throw err) s = Some s'
        ∧ fetches s' !! p = None
        ∧ promises s' !! pr = Some (Promise.Rejected err)
        ∧ ensure p s' = fetch p s'
        ∧ ∃ pr', pr' ≠ pr
                 ∧ fetches (ensure p s').2 !! p = Some pr'
                 ∧ waiting (ensure p s').2 = waiting s' ++ [(pr', p)]
                 ∧ promises (ensure p s').2 !! pr' = Some Promise.Pending
                 ∧ promises (ensure p s').2 !! (ensure p s').1
                   = Some (Promise.Follows pr').
Proof.
  intros Htake Hlt. unfold content_reply. rewrite Htake.
  eexists. split; [reflexivity|].
  set (s' := fetch_failed pr p err (set_running rest s)).
  assert (fetches s' !! p = None) as Hnone.
  { simpl. apply lookup_delete_eq. }
  assert (length (promises s') = length (promises s)) as Hlen.
  { simpl. unfold Promise.settle. by rewrite length_insert. }
  split; [done|]. split.
  { simpl. unfold Promise.settle. by apply list_lookup_insert_eq. }
  unfold ensure. rewrite Hnone. split; [done|].
  destruct (fetch_frame p s') as (H1 & Hf & Hw & _ & _ & _ & _ & _ & _ & Hp).
  exists (length (promises s')). split; [lia|].
  split; [by rewrite Hf, lookup_insert_eq|]. split; [done|]. split.
  - rewrite Hp. rewrite list_lookup_insert_ne by lia.
    rewrite <- app_assoc. rewrite lookup_app_r by lia.
    by rewrite Nat.sub_diag.
  - rewrite H1, Hp. apply list_lookup_insert_eq. rewrite !length_app. simpl. lia.
Qed.

Lemma failed_fetch_is_retried_witness :
  let p := "file:///a.ts" in
  let s := default (create MemFs.empty) (run [Ensure p; Start] (create MemFs.empty)) in
  take 0 (running s) = Some (p, [])
  ∧ ∃ s', content_reply 0 (Throw "SourceUnavailable") s = Some s'
          ∧ fetches s' !! p = None
          ∧ promises s' !! 0 = Some (Promise.Rejected "SourceUnavailable").
Proof.
  intros p s. split; [reflexivity|].
  destruct (failed_fetch_is_retried p "SourceUnavailable" 0 [] s)
    as (s' & H1 & H2 & H3 & _).
  - reflexivity.
  - vm_compute. lia.
  - exists s'. split; [exact H1|]. split; [exact H2|exact H3].
Defined.

(** The later revision of [ensureStructure] is single-flight. *)
Lemma ensureStructure_cached s pr :
  structureFetch s = Some pr → ensureStructure s = (pr, s).
Proof. unfold ensureStructure. by intros ->. Qed.

Lemma files_reply_ok_keeps_snapshot pr uris s s' :
  files_reply pr (Ok uris) s = Some s' →
  structureFetch s' = structureFetch s ∧ history s' = history s.
Proof. unfold files_reply. destruct (decide _); [|done]. by intros [= <-]. Qed.

Lemma files_reply_failed_clears_snapshot pr err s s' :
  files_reply pr (Throw err) s = Some s' →
  structureFetch s' = None ∧ fetchStructure s' = (ensureStructure s').
Proof.
  unfold files_reply. destruct (decide _); [|done]. by intros [= <-].
Qed.

(** C4, earlier revision of [fs.ts]. The structure fetch has completed
    successfully (one call of [getWorkspaceFiles], promise 0 fulfilled and
    cached in [structureFetch]). [ensureStructure()] then awaits the cached
    promise, gets [undefined], and calls [fetchStructure()] again: the file
    listing is requested a second time, the cached snapshot is replaced by
    a new promise, and the caller is left waiting for the second listing. *)
Theorem ensureStructure_v1_lists_again :
  ∃ s s',
    run [FetchStructure; FilesReply 0 (Ok ["file:///a.ts"])] (create MemFs.empty) = Some s
    ∧ structureFetch s = Some 0
    ∧ promises s !! 0 = Some Promise.Fulfilled
    ∧ count Listed (history s) = 1
    ∧ run [EnsureStructure_v1; Resume_v1 1] s = Some s'
    ∧ count Listed (history s') = 2
    ∧ structureFetch s' = Some 2
    ∧ promises s' !! 1 = Some (Promise.Follows 2)
    ∧ Promise.outcome 1 (promises s') 1 = Some Promise.Pending.
Proof.
  do 2 eexists. repeat (split; [vm_compute; reflexivity|]). vm_compute; reflexivity.
Qed.

(** The same run with the later revision's [ensureStructure]: no second
    listing, same promise. *)
Example ensureStructure_does_not_list_again :
  ∃ s s',
    run [FetchStructure; FilesReply 0 (Ok ["file:///a.ts"])] (create MemFs.empty) = Some s
    ∧ run [EnsureStructure] s = Some s'
    ∧ ensureStructure s = (0, s)
    ∧ count Listed (history s') = 1.
Proof.
  do 2 eexists. repeat (split; [vm_compute; reflexivity|]). vm_compute; reflexivity.
Qed.

End FileSystemUpdater_claims.

(** ** Project lookup *)

Section ProjectManager_lookup.
Import ProjectManager.
Variable E : Env.t.

Local Abbreviation Config := (ProjectConfiguration.t E).

Lemma empty_string_length (s : string) : String.length s = 0 → s = "".
Proof. by destruct s. Qed.

(** At ["/"] the walk makes no progress: unless ["/"] is the workspace root
    or has a configuration, the loop never ends. *)
Lemma getConfiguration_walk_stuck fuel (configs : gmap string Config) rootPath :
  rootPath ≠ "/" → configs !! "/" = None →
  getConfiguration_walk E fuel configs rootPath "/" = None.
Proof.
  intros Hroot Hnone. induction fuel as [|fuel IH]; [done|]. simpl.
  destruct (decide ("/" = rootPath)); [congruence|]. by rewrite Hnone.
Qed.

(** The fuel [getConfiguration] gives the loop is enough: more fuel never
    changes the result, so [None] does mean that the loop does not end. *)
Lemma getConfiguration_walk_fuel n fuel (configs : gmap string Config) rootPath dir :
  String.length dir ≤ n → S n ≤ fuel →
  getConfiguration_walk E fuel configs rootPath dir
  = getConfiguration_walk E (S n) configs rootPath dir.
Proof.
  revert fuel dir. induction n as [|n IH]; intros fuel dir Hlen Hfuel.
  - apply Nat.le_0_r, empty_string_length in Hlen as ->.
    destruct fuel; [lia|]. done.
  - destruct fuel as [|fuel]; [lia|].
    change (getConfiguration_walk E (S fuel) configs rootPath dir) with
      (if decide (dir = "") then Some None
       else if decide (dir = rootPath) then Some None
       else match configs !! dir with
            | Some config => Some (Some (dir, config))
            | None => getConfiguration_walk E fuel configs rootPath
                        (PosixPath.dirname_or_empty dir)
            end).
    change (getConfiguration_walk E (S (S n)) configs rootPath dir) with
      (if decide (dir = "") then Some None
       else if decide (dir = rootPath) then Some None
       else match configs !! dir with
            | Some config => Some (Some (dir, config))
            | None => getConfiguration_walk E (S n) configs rootPath
                        (PosixPath.dirname_or_empty dir)
            end).
    destruct (decide (dir = "")) as [|Hne]; [done|].
    destruct (decide (dir = rootPath)) as [|Hnr]; [done|].
    destruct (configs !! dir) eqn:Hc; [done|].
    destruct (decide (dir = "/")) as [->|Hns].
    + rewrite dirname_root_fixed.
      rewrite !getConfiguration_walk_stuck by done. done.
    + apply IH; [|lia].
      pose proof (dirname_or_empty_shorter dir Hne Hns). lia.
  Qed.

(** For a relative path the walk ends and finds the first registered
    directory among the path and its ancestors. *)
Lemma getConfiguration_walk_relative n (configs : gmap string Config) rootPath dir :
  PosixPath.is_relative dir = true → String.length dir ≤ n →
  getConfiguration_walk E (S n) configs rootPath dir
  = Some (firstRegistered E configs (ancestorDirs (S n) rootPath dir)).
Proof.
  revert dir. induction n as [|n IH]; intros dir Hrel Hlen.
  - apply Nat.le_0_r, empty_string_length in Hlen as ->. done.
  - change (getConfiguration_walk E (S (S n)) configs rootPath dir) with
      (if decide (dir = "") then Some None
       else if decide (dir = rootPath) then Some None
       else match configs !! dir with
            | Some config => Some (Some (dir, config))
            | None => getConfiguration_walk E (S n) configs rootPath
                        (PosixPath.dirname_or_empty dir)
            end).
    change (ancestorDirs (S (S n)) rootPath dir) with
      (if decide (dir = "" ∨ dir = rootPath) then []
       else dir :: ancestorDirs (S n) rootPath (PosixPath.dirname_or_empty dir)).
    destruct (decide (dir = "")) as [->|Hne].
    { by destruct (decide ("" = "" ∨ "" = rootPath)) as [|[]]; [|left]. }
    destruct (decide (dir = rootPath)) as [->|Hnr].
    { by destruct (decide (rootPath = "" ∨ rootPath = rootPath)) as [|[]]; [|right]. }
    destruct (decide (dir = "" ∨ dir = rootPath)) as [[|]|_]; [done..|].
    simpl firstRegistered. destruct (configs !! dir) eqn:Hc; [done|].
    apply IH; [by apply dirname_or_empty_relative|].
    pose proof (dirname_or_empty_shorter dir Hne (relative_not_root dir Hrel)). lia.
Qed.

Lemma firstRegistered_Some (configs : gmap string Config) dirs dir config :
  firstRegistered E configs dirs = Some (dir, config) → configs !! dir = Some config.
Proof.
  induction dirs as [|d dirs IH]; simpl; [done|].
  destruct (configs !! d) eqn:Hd; [|done]. by intros [= <- <-].
Qed.

(** Whenever the walk ends, it has found the first registered directory
    among the directory it started from and its ancestors. *)
Lemma getConfiguration_walk_first fuel (configs : gmap string Config) rootPath dir found :
  getConfiguration_walk E fuel configs rootPath dir = Some found →
  found = firstRegistered E configs (ancestorDirs fuel rootPath dir).
Proof.
  revert dir. induction fuel as [|fuel IH]; intros dir; [done|].
  change (getConfiguration_walk E (S fuel) configs rootPath dir) with
    (if decide (dir = "") then Some None
     else if decide (dir = rootPath) then Some None
     else match configs !! dir with
          | Some config => Some (Some (dir, config))
          | None => getConfiguration_walk E fuel configs rootPath
                      (PosixPath.dirname_or_empty dir)
          end).
  change (ancestorDirs (S fuel) rootPath dir) with
    (if decide (dir = "" ∨ dir = rootPath) then []
     else dir :: ancestorDirs fuel rootPath (PosixPath.dirname_or_empty dir)).
  destruct (decide (dir = "")) as [->|Hne].
  { destruct (decide ("" = "" ∨ "" = rootPath)) as [|[]]; [|by left].
    simpl. congruence. }
  destruct (decide (dir = rootPath)) as [->|Hnr].
  { destruct (decide (rootPath = "" ∨ rootPath = rootPath)) as [|[]]; [|by right].
    simpl. congruence. }
  destruct (decide (dir = "" ∨ dir = rootPath)) as [[|]|_]; [done..|].
  simpl firstRegistered. destruct (configs !! dir) eqn:Hc; [congruence|].
  apply IH.
Qed.

(** Whenever [getConfiguration(p)] returns for a file path [p] (not the
    workspace root and not itself a registered directory), what it returns
    is what the specification's lookup yields. *)
Lemma getConfiguration_agrees (pm : t E) (p : string) :
  p ≠ rootPath pm →
  configs pm !! p = None →
  rooted E (configs pm) →
  ∀ r, getConfiguration E pm p = Some r →
       match r with
       | Ok found =>
           resolve E (configs pm) (rootPath pm) p = Some found
           ∧ configs pm !! found.1 = Some found.2
       | Throw _ =>
           resolve E (configs pm) (rootPath pm) p = None ∧ configs pm = ∅
       end
       ∧ (configs pm = ∅ → ∃ err, r = Throw err).
Proof.
  intros Hroot Hfile Hrooted.
  intros r. unfold getConfiguration, resolve.
  destruct (decide (p = "")) as [->|Hne].
  - simpl. destruct (configs pm !! "") eqn:H0; [congruence|].
    intros Heq. injection Heq as <-. split; [|eauto].
    split; [done|]. by destruct Hrooted as [|[? ?]]; [|congruence].
  - destruct (String.length p) as [|n] eqn:Hlen.
    { by apply empty_string_length in Hlen. }
    change (getConfiguration_walk E (S (S n)) (configs pm) (rootPath pm) p) with
      (if decide (p = "") then Some None
       else if decide (p = rootPath pm) then Some None
       else match configs pm !! p with
            | Some config => Some (Some (p, config))
            | None => getConfiguration_walk E (S n) (configs pm) (rootPath pm)
                        (PosixPath.dirname_or_empty p)
            end).
    destruct (decide (p = "")); [done|].
    destruct (decide (p = rootPath pm)); [done|].
    rewrite Hfile.
    destruct (getConfiguration_walk E (S n) _ _ _) as [found|] eqn:Hwalk; [|done].
    apply getConfiguration_walk_first in Hwalk. rewrite <- Hwalk.
    destruct found as [[dir config]|].
    + intros Heq. injection Heq as <-. simpl.
      symmetry in Hwalk. apply firstRegistered_Some in Hwalk. split; [done|].
      intros Hempty. rewrite Hempty in Hwalk. by rewrite lookup_empty in Hwalk.
    + destruct (configs pm !! "") as [config|] eqn:H0.
      * intros Heq. injection Heq as <-. simpl. split; [done|].
        intros Hempty. rewrite Hempty in H0. by rewrite lookup_empty in H0.
      * intros Heq. injection Heq as <-. simpl. split; [|eauto].
        split; [done|]. by destruct Hrooted as [|[? ?]]; [|congruence].
Qed.

(** C9, as the code has it. [p] is a file path relative to the workspace
    root, as the parameter of [getConfiguration] is documented: not the root
    itself and not itself a registered project directory. Then
    [getConfiguration(p)] returns, and what it returns is what the
    specification's lookup yields: the configuration of the first
    registered directory met when walking from [p]'s directory upward,
    stopping at the workspace root, else the configuration registered for
    the root directory [""]; it throws only when no configuration exists at
    all, and then it does throw. The manager keeps its configurations
    [rooted] ([createConfigurations] always leaves one for [""]). *)
Theorem getConfiguration_resolves (pm : t E) (p : string) :
  PosixPath.is_relative p = true →
  p ≠ rootPath pm →
  configs pm !! p = None →
  rooted E (configs pm) →
  ∃ r, getConfiguration E pm p = Some r
       ∧ match r with
         | Ok found =>
             resolve E (configs pm) (rootPath pm) p = Some found
             ∧ configs pm !! found.1 = Some found.2
         | Throw _ =>
             resolve E (configs pm) (rootPath pm) p = None ∧ configs pm = ∅
         end
       ∧ (configs pm = ∅ → ∃ err, r = Throw err).
Proof.
  intros Hrel Hroot Hfile Hrooted.
  assert (is_Some (getConfiguration E pm p)) as [r Hr].
  { unfold getConfiguration.
    rewrite getConfiguration_walk_relative by done.
    destruct (firstRegistered E _ _); [eauto|].
    destruct (configs pm !! ""); eauto. }
  exists r. split; [done|]. by apply getConfiguration_agrees.
Qed.

End ProjectManager_lookup.

Lemma getConfiguration_resolves_witness :
  let pm := exampleProject in
  let p := "proj/src/x.ts" in
  ProjectManager.configs pm !! p = None
  ∧ ∃ found,
      ProjectManager.getConfiguration exampleEnv pm p = Some (Ok found)
      ∧ ProjectManager.resolve exampleEnv (ProjectManager.configs pm)
          (ProjectManager.rootPath pm) p = Some found
      ∧ found.1 = "proj".
Proof.
  intros pm p. split; [vm_compute; reflexivity|].
  destruct (getConfiguration_resolves exampleEnv pm p) as (r & Hget & Hagree & _).
  - reflexivity.
  - vm_compute. discriminate.
  - vm_compute. reflexivity.
  - right. vm_compute. eexists. reflexivity.
  - assert (ProjectManager.getConfiguration exampleEnv pm p
            = Some (Ok ("proj",
                        ProjectManager.markerConfig exampleEnv pm "proj"
                          "proj/tsconfig.json"))) as Hval
      by (vm_compute; reflexivity).
    rewrite Hval in Hget. injection Hget as <-.
    eexists. split; [exact Hval|]. split; [apply Hagree|reflexivity].
Defined.

(** C9, as the specification words it, fails for absolute paths, which the
    dependency crawl passes ([uri2path(uri)]). The workspace root is
    [/workspace] and the catch-all configuration is registered:
    [/other/y.ts] has no registered ancestor, so the specification's lookup
    falls back to the catch-all configuration, but the loop of
    [getConfiguration] climbs to [/], which is its own parent and not the
    workspace root, and never ends. And in [exampleProject], whose root is
    [/], the project directory is registered under the relative key [proj]:
    [proj/src/x.ts] finds it, the absolute [/proj/src/x.ts] is given the
    catch-all configuration instead. *)
Lemma getConfiguration_absolute_path_fails :
  (let pm := exampleWorkspace in
   let p := "/other/y.ts" in
   p ≠ ProjectManager.rootPath pm
   ∧ ProjectManager.configs pm !! p = None
   ∧ ProjectManager.rooted exampleEnv (ProjectManager.configs pm)
   ∧ ProjectManager.resolve exampleEnv (ProjectManager.configs pm)
       (ProjectManager.rootPath pm) p
     = Some ("", ProjectManager.catchAllConfig exampleEnv pm)
   ∧ (∀ fuel, ProjectManager.getConfiguration_walk exampleEnv fuel
                (ProjectManager.configs pm) (ProjectManager.rootPath pm) p = None)
   ∧ ProjectManager.getConfiguration exampleEnv pm p = None)
  ∧ (let pm := exampleProject in
     ∃ config,
       ProjectManager.configs pm !! "proj" = Some config
       ∧ ProjectManager.getConfiguration exampleEnv pm "proj/src/x.ts"
         = Some (Ok ("proj", config))
       ∧ ProjectManager.getConfiguration exampleEnv pm "/proj/src/x.ts"
         = Some (Ok ("", ProjectManager.catchAllConfig exampleEnv pm))).
Proof.
  split.
  - intros pm p. split; [discriminate|]. split; [vm_compute; reflexivity|].
    split; [right; vm_compute; eexists; reflexivity|].
    split; [vm_compute; reflexivity|].
    assert (∀ fuel, ProjectManager.getConfiguration_walk exampleEnv fuel
                      (ProjectManager.configs pm) (ProjectManager.rootPath pm) p = None)
      as Hwalk.
    { intros fuel. destruct fuel as [|[|[|fuel]]]; [vm_compute; reflexivity..|].
      assert (ProjectManager.getConfiguration_walk exampleEnv (S (S (S fuel)))
                (ProjectManager.configs pm) (ProjectManager.rootPath pm) p
              = ProjectManager.getConfiguration_walk exampleEnv (S fuel)
                  (ProjectManager.configs pm) (ProjectManager.rootPath pm) "/") as ->.
      { reflexivity. }
      apply getConfiguration_walk_stuck; [discriminate|vm_compute; reflexivity]. }
    split; [exact Hwalk|].
    unfold ProjectManager.getConfiguration. by rewrite Hwalk.
  - intros pm. eexists. split; [vm_compute; reflexivity|].
    split; vm_compute; reflexivity.
Qed.

Example getConfiguration_nested :
  ∃ config,
    ProjectManager.getConfiguration exampleEnv exampleProject "proj/src/x.ts"
    = Some (Ok ("proj", config))
    ∧ ProjectConfiguration.configFilePath config = "proj/tsconfig.json".
Proof. eexists. split; vm_compute; reflexivity. Qed.

Example getConfiguration_fallback :
  ProjectManager.getConfiguration exampleEnv exampleProject "other/y.ts"
  = Some (Ok ("", ProjectManager.catchAllConfig exampleEnv exampleProject)).
Proof. vm_compute. reflexivity. Qed.

(** An absolute path outside the workspace root: the loop reaches ["/"] and
    stays there. *)
Example getConfiguration_absolute_outside :
  ∀ fuel,
    ProjectManager.getConfiguration_walk exampleEnv fuel ∅ "/workspace" "/other/y.ts" = None.
Proof.
  intros fuel. destruct fuel as [|[|fuel]]; [done..|].
  change (ProjectManager.getConfiguration_walk exampleEnv (S (S fuel)) ∅ "/workspace" "/other/y.ts")
    with (ProjectManager.getConfiguration_walk exampleEnv (S fuel) ∅ "/workspace" "/other").
  destruct fuel as [|fuel]; [done|].
  change (ProjectManager.getConfiguration_walk exampleEnv (S (S fuel)) ∅ "/workspace" "/other")
    with (ProjectManager.getConfiguration_walk exampleEnv (S fuel) ∅ "/workspace" "/").
  by apply getConfiguration_walk_stuck.
Qed.

(** ** Project discovery *)

Section ProjectManager_discovery.
Import ProjectManager.
Variable E : Env.t.

Local Abbreviation Config := (ProjectConfiguration.t E).

(** What one turn of the loop does to the root directory [""]. *)
Lemma createConfigurations_step_root (pm : t E) (cfgs cfgs1 : gmap string Config)
    (rd rd1 : gset string) uri :
  createConfigurations_step E pm (cfgs, rd) uri = (cfgs1, rd1) →
  if isRootMarker E pm uri
  then "" ∈ rd1
       ∧ (∀ c, cfgs !! "" = Some c → cfgs1 !! "" = Some c)
       ∧ (cfgs !! "" = None →
          ∃ c, cfgs1 !! "" = Some c ∧ ProjectConfiguration.configContent c = None)
  else ("" ∈ rd1 ↔ "" ∈ rd) ∧ cfgs1 !! "" = cfgs !! "".
Proof.
  unfold createConfigurations_step, isRootMarker, isMarker.
  set (rel := Env.relative E (rootPath pm) (Env.uri2path E uri)).
  destruct (PosixPath.is_config_marker rel); simpl; [|by intros [= -> ->]].
  destruct (PosixPath.in_node_modules rel); simpl; [by intros [= -> ->]|].
  destruct (String.eqb (PosixPath.dirname_or_empty rel) "") eqn:Hdir.
  - apply String.eqb_eq in Hdir. rewrite Hdir. intros [= <- <-].
    split; [set_solver|]. split.
    + intros c Hc. by rewrite Hc.
    + intros Hc. rewrite Hc, lookup_insert_eq. eauto.
  - apply String.eqb_neq in Hdir. intros Heq. injection Heq as <- <-.
    split; [rewrite elem_of_union, elem_of_singleton; intuition congruence|].
    destruct (cfgs !! PosixPath.dirname_or_empty rel); [done|].
    by rewrite lookup_insert_ne.
Qed.

Lemma createConfigurations_fold (pm : t E) uris (cfgs cfgs' : gmap string Config)
    (rd rd' : gset string) :
  foldl (createConfigurations_step E pm) (cfgs, rd) uris = (cfgs', rd') →
  ("" ∈ rd' ↔ "" ∈ rd ∨ Exists (λ uri, isRootMarker E pm uri = true) uris)
  ∧ (cfgs' !! "" = None ↔
     cfgs !! "" = None ∧ Forall (λ uri, isRootMarker E pm uri = false) uris)
  ∧ (∀ c, cfgs !! "" = Some c → cfgs' !! "" = Some c)
  ∧ (∀ c, cfgs !! "" = None → cfgs' !! "" = Some c →
          ProjectConfiguration.configContent c = None).
Proof.
  revert cfgs rd. induction uris as [|uri uris IH]; intros cfgs rd; cbn [foldl].
  - intros [= <- <-]. split; [|split; [|split]].
    + rewrite Exists_nil. tauto.
    + split; [by intros ->|tauto].
    + done.
    + congruence.
  - destruct (createConfigurations_step E pm (cfgs, rd) uri) as [cfgs1 rd1] eqn:Hstep.
    intros Hfold. apply IH in Hfold as (IH1 & IH2 & IH3 & IH4).
    apply createConfigurations_step_root in Hstep.
    rewrite Exists_cons, Forall_cons.
    destruct (isRootMarker E pm uri) eqn:Hroot.
    + destruct Hstep as (Hin & Hkeep & Hnew).
      split; [|split; [|split]].
      * rewrite IH1. tauto.
      * rewrite IH2. split; [|by intros (_ & [=] & _)].
        intros [Hnone _]. destruct (cfgs !! "") as [c|] eqn:Hc.
        -- by rewrite (Hkeep c eq_refl) in Hnone.
        -- destruct (Hnew eq_refl) as (c & Hsome & _). congruence.
      * intros c Hc. eauto.
      * intros c Hnone Hc. destruct (Hnew Hnone) as (c1 & Hsome & Hcontent).
        rewrite (IH3 c1 Hsome) in Hc. by injection Hc as <-.
    + destruct Hstep as (Hin & Hsame).
      split; [|split; [|split]].
      * rewrite IH1, Hin. split; [|intros [|[[=]|]]; tauto]. tauto.
      * rewrite IH2, Hsame. tauto.
      * intros c Hc. apply IH3. by rewrite Hsame.
      * intros c Hnone Hc. apply (IH4 c); [by rewrite Hsame|done].
Qed.

(** After [createConfigurations] there is a configuration for the root
    directory, whatever the workspace holds. *)
Lemma createConfigurations_rooted (pm : t E) :
  is_Some (configs (createConfigurations E pm) !! "").
Proof.
  unfold createConfigurations.
  destruct (foldl _ _ _) as [cfgs rd] eqn:Hfold.
  destruct (bool_decide ("" ∈ rd)) eqn:Hrd; simpl.
  - apply bool_decide_eq_true in Hrd.
    apply createConfigurations_fold in Hfold as (H1 & H2 & _).
    destruct (cfgs !! "") eqn:Hc; [eauto|].
    destruct H2 as [H2 _]. destruct (H2 eq_refl) as [_ Hall].
    apply H1 in Hrd as [Hrd|Hex]; [set_solver|].
    apply Exists_exists in Hex as (uri & Hin & Hroot).
    rewrite Forall_forall in Hall. specialize (Hall uri Hin). congruence.
  - destruct (bool_decide (is_Some (cfgs !! ""))) eqn:Hc; simpl.
    + by apply bool_decide_eq_true in Hc.
    + rewrite lookup_insert_eq. eauto.
Qed.

(** The manager's configurations are [rooted] from the start and after every
    discovery. *)
Lemma create_rooted rootPath updater strict trace :
  rooted E (configs (create E rootPath updater strict trace)).
Proof. by left. Qed.

Lemma createConfigurations_keeps_rooted (pm : t E) :
  rooted E (configs (createConfigurations E pm)).
Proof. right. apply createConfigurations_rooted. Qed.

(** C7, as the code has it. [createConfigurations] adds the catch-all root
    configuration exactly when there is no root configuration: none was
    registered for the root directory [""] before the call, and no marker
    file ([tsconfig.json] or [jsconfig.json] outside [node_modules]) lies
    directly in the workspace root. Marker files in subdirectories do not
    prevent it. A configuration that was registered for the root directory
    is never replaced, by the catch-all or by anything else. *)
Theorem catchAll_iff_no_root_configuration (pm : t E) :
  (catchAllAdded E pm ↔
   configs pm !! "" = None
   ∧ Forall (λ uri, isRootMarker E pm uri = false) (MemFs.uris (localFs pm)))
  ∧ (∀ c, configs pm !! "" = Some c →
          configs (createConfigurations E pm) !! "" = Some c).
Proof.
  unfold catchAllAdded, createConfigurations.
  destruct (foldl _ _ _) as [cfgs rd] eqn:Hfold.
  apply createConfigurations_fold in Hfold as (H1 & H2 & H3 & H4).
  assert (cfgs !! "" = Some (catchAllConfig E pm) →
          configs pm !! "" ≠ Some (catchAllConfig E pm) → False) as Hnot.
  { intros Hsome Hne. destruct (configs pm !! "") as [c|] eqn:Hc.
    - rewrite (H3 c eq_refl) in Hsome. congruence.
    - by specialize (H4 _ eq_refl Hsome). }
  destruct (bool_decide ("" ∈ rd)) eqn:Hrd; simpl.
  - apply bool_decide_eq_true in Hrd. split; [split|exact H3].
    + intros [Hne Hsome]. by destruct (Hnot Hsome Hne).
    + intros [Hnone Hall]. exfalso.
      apply H1 in Hrd as [Hrd|Hex]; [set_solver|].
      apply Exists_exists in Hex as (uri & Hin & Hroot).
      rewrite Forall_forall in Hall. specialize (Hall uri Hin). congruence.
  - apply bool_decide_eq_false in Hrd.
    destruct (bool_decide (is_Some (cfgs !! ""))) eqn:Hc; simpl.
    + apply bool_decide_eq_true in Hc as [c Hc]. split; [split|exact H3].
      * intros [Hne Hsome]. by destruct (Hnot Hsome Hne).
      * intros Hno. apply H2 in Hno. congruence.
    + apply bool_decide_eq_false in Hc.
      assert (cfgs !! "" = None) as Hnone.
      { destruct (cfgs !! ""); [|done]. exfalso. apply Hc. eauto. }
      rewrite lookup_insert_eq. apply H2 in Hnone as [Hbefore Hall].
      split; [split|].
      * done.
      * intros _. split; [by rewrite Hbefore|done].
      * intros c Hsome. congruence.
Qed.

End ProjectManager_discovery.

(** C7, as the specification words it, fails: the workspace
    [exampleSubproject] has a marker file, [sub/tsconfig.json], and
    [createConfigurations] still adds the catch-all root configuration. *)
Lemma catchAll_despite_marker :
  let pm := exampleSubproject in
  Exists (λ uri, ProjectManager.isMarker exampleEnv pm uri = true)
         (MemFs.uris (ProjectManager.localFs pm))
  ∧ ProjectManager.catchAllAdded exampleEnv pm
  ∧ is_Some (ProjectManager.configs (ProjectManager.createConfigurations exampleEnv pm) !! "sub").
Proof.
  intros pm. split; [|split].
  - apply Exists_exists. exists "sub/tsconfig.json". split; [|reflexivity].
    vm_compute. apply list_elem_of_In. simpl. tauto.
  - split; [vm_compute; discriminate|vm_compute; reflexivity].
  - vm_compute. eexists. reflexivity.
Qed.

(** ** Versions and local edits *)

Section ProjectManager_versions.
Import ProjectManager.
Variable E : Env.t.

Local Abbreviation Config := (ProjectConfiguration.t E).

(** The host only ever fills in a missing version: a version that is at
    least 1 is left alone. *)
Lemma getScriptVersion_keeps fileName (h : Host.t E) (vs : gmap string N) k v :
  vs !! k = Some (Npos v) →
  (Host.getScriptVersion E fileName h vs).2 !! k = Some (Npos v).
Proof.
  intros Hk. unfold Host.getScriptVersion.
  set (f := if Env.isAbsolute E fileName then _ else _).
  destruct (vs !! f) as [[|w]|] eqn:Hf; simpl; [|done|].
  - rewrite lookup_insert_ne; [done|]. intros ->. congruence.
  - rewrite lookup_insert_ne; [done|]. intros ->. congruence.
Qed.

Lemma syncVersions_keeps (h : Host.t E) (vs : gmap string N) k v :
  vs !! k = Some (Npos v) → Host.syncVersions E h vs !! k = Some (Npos v).
Proof.
  unfold Host.syncVersions. generalize (Env.scriptVersionQueries E (Host.filePaths h)).
  intros l. revert vs. induction l as [|f l IH]; intros vs Hk; cbn [foldl]; [done|].
  apply IH. by apply getScriptVersion_keeps.
Qed.

Lemma syncProgram_keeps disk (vs : gmap string N) (c : Config) k v :
  vs !! k = Some (Npos v) →
  (ProjectConfiguration.syncProgram E disk vs c).2 !! k = Some (Npos v).
Proof.
  intros Hk. unfold ProjectConfiguration.syncProgram.
  destruct (ProjectConfiguration.service c); [|done].
  destruct (ProjectConfiguration.host c); [|done].
  simpl. by apply syncVersions_keeps.
Qed.

Lemma init_keeps disk (vs : gmap string N) (c : Config) k v :
  vs !! k = Some (Npos v) →
  (ProjectConfiguration.init E disk vs c).2 !! k = Some (Npos v).
Proof.
  intros Hk. unfold ProjectConfiguration.init.
  destruct (ProjectConfiguration.initialized c); [done|].
  unfold ProjectConfiguration.init_executor.
  destruct (ProjectConfiguration.configObject E disk _); [|done].
  destruct (Env.parseJsonConfigFileContent E _ _ _) as [fileNames options].
  destruct (Env.walkInMemoryFs E _ _); [|done].
  simpl. by apply syncVersions_keeps.
Qed.

Lemma resync_keeps dir (config : Config) (pm : t E) k v :
  versions pm !! k = Some (Npos v) →
  versions (resync E dir config pm) !! k = Some (Npos v).
Proof.
  intros Hk. unfold resync, ProjectConfiguration.ensureConfigFile.
  pose proof (init_keeps (localFs pm) (versions pm) config k v Hk) as Hinit.
  destruct (ProjectConfiguration.init E (localFs pm) (versions pm) config)
    as [[ready config1] vs1]. simpl in Hinit.
  destruct ready as [[]|err]; [|done].
  destruct (ProjectConfiguration.host config1) as [h|]; [|done].
  pose proof (syncProgram_keeps (localFs pm) vs1
                (ProjectConfiguration.set_host E (Host.incProjectVersion E h) config1)
                k v Hinit) as Hsync.
  destruct (ProjectConfiguration.syncProgram E (localFs pm) vs1 _) as [[r config2] vs2].
  done.
Qed.

Lemma bumpVersion_lookup p (pm : t E) :
  ∃ v, (default 0 (versions pm !! p) + 1)%N = Npos v
       ∧ versions (bumpVersion E p pm) !! p = Some (Npos v).
Proof.
  unfold bumpVersion. simpl. rewrite lookup_insert_eq.
  destruct (default 0%N (versions pm !! p) + 1)%N as [|v] eqn:Hv; [lia|]. eauto.
Qed.

(** For a relative path [getConfiguration] returns. *)
Lemma getConfiguration_relative_returns (pm : t E) p :
  PosixPath.is_relative p = true → is_Some (getConfiguration E pm p).
Proof.
  intros Hrel. unfold getConfiguration.
  rewrite getConfiguration_walk_relative by done.
  destruct (firstRegistered E _ _); [eauto|].
  destruct (configs pm !! ""); eauto.
Qed.

(** The tail shared by [didChange] and [didClose]: whenever it returns, the
    version set by [bumpVersion] is still there, and for a relative path it
    does return. *)
Lemma edit_tail_bumps p (pm0 : t E) r pm' :
  match getConfiguration E (bumpVersion E p pm0) p with
  | None => None
  | Some (Throw err) => Some (Throw err, bumpVersion E p pm0)
  | Some (Ok (dir, config)) => Some (Ok (), resync E dir config (bumpVersion E p pm0))
  end = Some (r, pm') →
  versions pm' !! p = Some (default 0 (versions pm0 !! p) + 1)%N.
Proof.
  destruct (bumpVersion_lookup p pm0) as (v & Hv & Hlook). rewrite Hv.
  destruct (getConfiguration E _ p) as [[[dir config]|err]|]; [| |done].
  - intros [= _ <-]. by apply resync_keeps.
  - by intros [= _ <-].
Qed.

Lemma edit_tail_returns p (pm0 : t E) :
  PosixPath.is_relative p = true →
  is_Some (match getConfiguration E (bumpVersion E p pm0) p with
           | None => None
           | Some (Throw err) => Some (Throw err, bumpVersion E p pm0)
           | Some (Ok (dir, config)) =>
               Some (Ok (), resync E dir config (bumpVersion E p pm0))
           end).
Proof.
  intros Hrel.
  destruct (getConfiguration_relative_returns (bumpVersion E p pm0) p Hrel)
    as [[[dir config]|err] ->]; eauto.
Qed.

Lemma didChange_bumps p text (pm : t E) r pm' :
  didChange E p text pm = Some (r, pm') →
  versions pm' !! p = Some (default 0 (versions pm !! p) + 1)%N.
Proof. apply (edit_tail_bumps p (set_localFs E _ pm)). Qed.

Lemma didChange_returns p text (pm : t E) :
  PosixPath.is_relative p = true → is_Some (didChange E p text pm).
Proof. apply (edit_tail_returns p (set_localFs E _ pm)). Qed.

Lemma didClose_bumps p (pm : t E) r pm' :
  didClose E p pm = Some (r, pm') →
  versions pm' !! p = Some (default 0 (versions pm !! p) + 1)%N.
Proof. apply (edit_tail_bumps p (set_localFs E _ pm)). Qed.

Lemma didClose_returns p (pm : t E) :
  PosixPath.is_relative p = true → is_Some (didClose E p pm).
Proof. apply (edit_tail_returns p (set_localFs E _ pm)). Qed.

(** C8, as the code has it. Whenever [didOpen], [didChange] or [didClose]
    returns, the stored version of the path is one more than it was (a
    missing version counts as 0), and for a file path relative to the
    workspace root they do return; [didSave] leaves the version map exactly
    as it was. *)
Theorem edits_bump_version (pm : t E) (p text : string) :
  (∀ r pm', didOpen E p text pm = Some (r, pm') →
            versions pm' !! p = Some (default 0 (versions pm !! p) + 1)%N)
  ∧ (∀ r pm', didChange E p text pm = Some (r, pm') →
              versions pm' !! p = Some (default 0 (versions pm !! p) + 1)%N)
  ∧ (∀ r pm', didClose E p pm = Some (r, pm') →
              versions pm' !! p = Some (default 0 (versions pm !! p) + 1)%N)
  ∧ (PosixPath.is_relative p = true →
     is_Some (didOpen E p text pm) ∧ is_Some (didChange E p text pm)
     ∧ is_Some (didClose E p pm))
  ∧ (∃ pm', didSave E p pm = Some (Ok (), pm') ∧ versions pm' = versions pm).
Proof.
  split; [|split; [|split; [|split]]].
  - intros r pm'. apply didChange_bumps.
  - intros r pm'. apply didChange_bumps.
  - intros r pm'. apply didClose_bumps.
  - intros Hrel. split; [|split].
    + by apply didChange_returns.
    + by apply didChange_returns.
    + by apply didClose_returns.
  - by eexists.
Qed.

End ProjectManager_versions.

Lemma edits_bump_version_witness :
  let p := "proj/src/x.ts" in
  ∃ r pm', ProjectManager.didChange exampleEnv p "let x = 1" exampleProject = Some (r, pm')
           ∧ ProjectManager.versions pm' !! p = Some 1%N.
Proof.
  intros p.
  destruct (edits_bump_version exampleEnv exampleProject p "let x = 1")
    as (_ & Hbump & _ & Hreturns & _).
  destruct Hreturns as (_ & [[r pm'] Hchange] & _); [reflexivity|].
  exists r, pm'. split; [exact Hchange|]. exact (Hbump r pm' Hchange).
Defined.

(** C8, as the specification words it, fails for [didSave]: the stored
    version of the saved path is not increased. *)
Lemma didSave_does_not_bump :
  let p := "proj/src/x.ts" in
  ∃ pm', ProjectManager.didSave exampleEnv p exampleProject = Some (Ok (), pm')
         ∧ ¬ (default 0 (ProjectManager.versions exampleProject !! p)
              < default 0 (ProjectManager.versions pm' !! p))%N.
Proof. intros p. eexists. split; [reflexivity|]. vm_compute. by intros [=]. Qed.

(** ** The life cycle of a [ProjectConfiguration] *)

Section ProjectConfiguration_lifecycle.
Import ProjectConfiguration.
Variable E : Env.t.

(** C10. [reset()] clears the memoized state - [initialized],
    [ensuredBasicFiles], [ensuredAllFiles], [service], [program], [host] -
    and nothing else: [configFilePath], [configContent], [rootFilePath],
    [traceModuleResolution] and the references [fs] and [versions] are the
    same. The shared version map itself is out of its reach: the loop of
    [refreshFileTree] that resets the affected configurations leaves the
    manager's [versions] and file system as they were, and every
    configuration is either untouched or reset. *)
Theorem reset_frame :
  (∀ c : t E,
     initialized (reset E c) = None
     ∧ ensuredBasicFiles (reset E c) = None
     ∧ ensuredAllFiles (reset E c) = None
     ∧ service (reset E c) = None
     ∧ program (reset E c) = None
     ∧ host (reset E c) = None
     ∧ configFilePath (reset E c) = configFilePath c
     ∧ configContent (reset E c) = configContent c
     ∧ rootFilePath (reset E c) = rootFilePath c
     ∧ traceModuleResolution (reset E c) = traceModuleResolution c
     ∧ fs (reset E c) = fs c
     ∧ versions (reset E c) = versions c)
  ∧ (∀ (pm : ProjectManager.t E) (rootPath : string),
       let pm' := ProjectManager.resetAffected E rootPath pm in
       ProjectManager.versions pm' = ProjectManager.versions pm
       ∧ ProjectManager.localFs pm' = ProjectManager.localFs pm
       ∧ ∀ dir,
           ProjectManager.configs pm' !! dir = ProjectManager.configs pm !! dir
           ∨ ProjectManager.configs pm' !! dir
             = reset E <$> ProjectManager.configs pm !! dir).
Proof.
  split.
  - intros c. by repeat split.
  - intros pm rootPath pm'. split; [done|]. split; [done|].
    intros dir. subst pm'. unfold ProjectManager.resetAffected. simpl.
    rewrite map_lookup_imap.
    destruct (ProjectManager.configs pm !! dir) as [c|]; simpl; [|by left].
    destruct (ProjectManager.affected _ _); [by right|by left].
Qed.

Lemma init_cached disk vs (c : t E) outcome :
  initialized c = Some outcome → init E disk vs c = (outcome, c, vs).
Proof. unfold init. by intros ->. Qed.

(** C5, as the code has it. When the configuration source does not parse,
    [init] rejects and keeps the rejected promise in [initialized]; [host],
    [service] and [program] are left as they were (unset, for a new or reset
    configuration). Nothing clears that state: [ensureConfigFile] returns
    the same rejection without running the executor again, whatever the file
    system holds by then, and so does [ensureBasicFiles]. Only [reset()]
    makes the next [init] parse again. *)
Theorem failed_init_is_cached (disk : MemFs.t) (vs : gmap string N) (c : t E) (err : string) :
  initialized c = None →
  configObject E disk c = Throw err →
  ∃ c1,
    init E disk vs c = (Throw err, c1, vs)
    ∧ initialized c1 = Some (Throw err)
    ∧ host c1 = host c ∧ service c1 = service c ∧ program c1 = program c
    ∧ parses c1 = S (parses c)
    ∧ (∀ disk' vs', ensureConfigFile E disk' vs' c1 = (Throw err, c1, vs'))
    ∧ (ensuredBasicFiles c = None →
       ∀ disk' vs', ∃ c2, ensureBasicFiles E disk' vs' c1 = (Throw err, c2, vs')
                          ∧ parses c2 = parses c1)
    ∧ (∀ disk' vs', parses (init E disk' vs' (reset E c1)).1.2 = S (parses c1)).
Proof.
  intros Hfresh Hparse. unfold init at 1. rewrite Hfresh.
  unfold init_executor.
  change (configObject E disk (count_parse E c)) with (configObject E disk c).
  rewrite Hparse. eexists. split; [reflexivity|].
  repeat split.
  - intros Hbasic disk' vs'. unfold ensureBasicFiles. simpl. rewrite Hbasic.
    by eexists.
  - intros disk' vs'. unfold init. simpl. unfold init_executor.
    destruct (configObject E disk' _); [|done].
    destruct (Env.parseJsonConfigFileContent E _ _ _) as [fileNames options].
    by destruct (Env.walkInMemoryFs E _ _).
Qed.

End ProjectConfiguration_lifecycle.

Lemma failed_init_is_cached_witness :
  let c := ProjectManager.markerConfig exampleEnv exampleBroken "bad" "bad/tsconfig.json" in
  let err := "Cannot parse bad/tsconfig.json: syntax error" in
  ProjectConfiguration.configObject exampleEnv exampleBrokenDisk c = Throw err
  ∧ ∃ c1,
      ProjectConfiguration.init exampleEnv exampleBrokenDisk ∅ c = (Throw err, c1, ∅)
      ∧ ProjectConfiguration.initialized c1 = Some (Throw err).
Proof.
  intros c err. split; [reflexivity|].
  destruct (failed_init_is_cached exampleEnv exampleBrokenDisk ∅ c err)
    as (c1 & H1 & H2 & _); [reflexivity|reflexivity|].
  exists c1. split; [exact H1|exact H2].
Defined.

(** C5, as the specification words it, fails. The configuration file of
    [bad/] is malformed: [init] fails, the failure stays in [initialized],
    and a later [ensureConfigFile] - even over a file system in which the
    file has been repaired - returns that same failure without parsing
    again ([parses] stays 1). *)
Lemma failed_init_not_cleared :
  let c := ProjectManager.markerConfig exampleEnv exampleBroken "bad" "bad/tsconfig.json" in
  let repaired := MemFs.add "bad/tsconfig.json" (Some "{}") exampleBrokenDisk in
  let err := "Cannot parse bad/tsconfig.json: syntax error" in
  let first := ProjectConfiguration.init exampleEnv exampleBrokenDisk ∅ c in
  let c1 := first.1.2 in
  let second := ProjectConfiguration.ensureConfigFile exampleEnv repaired ∅ c1 in
  let third := ProjectConfiguration.ensureBasicFiles exampleEnv repaired ∅ c1 in
  first.1.1 = Throw err
  ∧ ProjectConfiguration.initialized c1 = Some (Throw err)
  ∧ ProjectConfiguration.host c1 = None
  ∧ second.1.1 = Throw err
  ∧ ProjectConfiguration.parses second.1.2 = 1
  ∧ third.1.1 = Throw err
  ∧ ProjectConfiguration.parses third.1.2 = 1
  ∧ (ProjectConfiguration.init exampleEnv repaired ∅ c).1.1 = Ok ().
Proof. repeat split; vm_compute; reflexivity. Qed.

(** ** A fetch that races with a local edit *)

Section ProjectManager_race.
Import ProjectManager.
Variable E : Env.t.




End ProjectManager_race.



(** ** The dependency crawl never consults [seen] *)

Section ProjectManager_crawl.
Import ProjectManager.
Variable E : Env.t.
Variable remote : string → res string.

Lemma crawl_children_alike (f : string → Crawl E → option (res () * Crawl E)) :
  (∀ uri w1 w2, alike E w1 w2 → alike_result E (f uri w1) (f uri w2)) →
  ∀ importPaths a1 a2,
    alike_acc E a1 a2 →
    alike_acc E
      (foldl (λ acc importPath,
                match acc with
                | None => None
                | Some w => match f importPath w with
                            | None => None
                            | Some (_, w') => Some w'
                            end
                end) a1 importPaths)
      (foldl (λ acc importPath,
                match acc with
                | None => None
                | Some w => match f importPath w with
                            | None => None
                            | Some (_, w') => Some w'
                            end
                end) a2 importPaths).
Proof.
  intros Hf importPaths. induction importPaths as [|uri l IH]; intros a1 a2 Ha; [done|].
  cbn [foldl]. apply IH.
  destruct a1 as [w1|], a2 as [w2|]; try done.
  specialize (Hf uri w1 w2 Ha). unfold alike_result in Hf.
  destruct (f uri w1) as [[r1 w1']|], (f uri w2) as [[r2 w2']|]; try done.
  by destruct Hf.
Qed.

(** Whatever [seen] holds, the crawl does the same: the set is written to
    and never read. *)
Lemma crawl_ignores_seen maxDepth uri (w1 w2 : Crawl E) :
  alike E w1 w2 →
  alike_result E
    (ensureTransitiveFileDependencies E remote maxDepth uri w1)
    (ensureTransitiveFileDependencies E remote maxDepth uri w2).
Proof.
  revert uri w1 w2. induction maxDepth as [|depth IH]; intros uri w1 w2 Ha;
    destruct w1 as [pm1 seen1 vis1 exp1], w2 as [pm2 seen2 vis2 exp2];
    destruct Ha as (Hm & Hv & He); simpl in Hm, Hv, He; subst pm2 vis2 exp2.
  - simpl. destruct (awaitEnsure remote uri (updater pm1)) as [[[]|err] u]; by simpl.
  - cbn [ensureTransitiveFileDependencies manager seen visits expansions set_manager].
    destruct (awaitEnsure remote uri (updater pm1)) as [[[]|err] u]; [|by simpl].
    cbn [manager seen visits expansions set_manager].
    destruct (getConfiguration E (set_updater E u pm1) (Env.uri2path E uri))
      as [[[dir config]|err]|]; [|by simpl|by simpl].
    destruct (ProjectConfiguration.ensureBasicFiles E _ _ config) as [[basic config1] vs].
    cbn [manager seen visits expansions set_manager].
    destruct basic as [[]|err]; [|by simpl].
    destruct (MemFs.getContent uri _) as [contents|err]; [|by simpl].
    destruct (ProjectConfiguration.getHost E config1) as [h|err]; [|by simpl].
    cbn [manager seen visits expansions set_manager].
    match goal with
    | |- alike_result E
           (match foldl ?step (Some ?a1) ?l with _ => _ end)
           (match foldl _ (Some ?a2) _ with _ => _ end) =>
        pose proof (crawl_children_alike
                      (ensureTransitiveFileDependencies E remote depth)
                      IH l (Some a1) (Some a2)) as Hfold
    end.
    cbv beta in Hfold.
    match type of Hfold with
    | _ → alike_acc _ ?x ?y => destruct x as [w1'|], y as [w2'|]
    end; simpl; simpl in Hfold; try (by apply Hfold); try (by exfalso; apply Hfold).
    split; [done|]. by apply Hfold.
Qed.

End ProjectManager_crawl.

(** ** The dependency crawl on a cyclic import graph *)

(** C2 fails on the code. [a.ts] imports [b.ts] and [b.ts] imports [a.ts].
    [seen] receives every visited path but is never consulted, so the crawl
    of [a.ts] (depth 30, fresh [seen]) re-enters both files until the depth
    runs out: [ensureTransitiveFileDependencies] is called 16 times for
    [a.ts] and 15 times for [b.ts], and the imports of each are collected 15
    times. Only the remote fetch happens once per file, because [ensure]
    caches it. *)
Theorem crawl_revisits_on_cycle :
  ∃ w,
    ProjectManager.crawl exampleEnv exampleCyclicRemote "a.ts" exampleCyclic = Some (Ok (), w)
    ∧ ProjectManager.seen w = {["a.ts"; "b.ts"]}
    ∧ occurrences "a.ts" (ProjectManager.visits w) = 16
    ∧ occurrences "b.ts" (ProjectManager.visits w) = 15
    ∧ occurrences "a.ts" (ProjectManager.expansions w) = 15
    ∧ occurrences "b.ts" (ProjectManager.expansions w) = 15
    ∧ FileSystemUpdater.count (FileSystemUpdater.Invoked "a.ts")
        (FileSystemUpdater.history (ProjectManager.updater (ProjectManager.manager w))) = 1
    ∧ FileSystemUpdater.count (FileSystemUpdater.Invoked "b.ts")
        (FileSystemUpdater.history (ProjectManager.updater (ProjectManager.manager w))) = 1.
Proof.
  eexists. repeat (split; [vm_compute; reflexivity|]). vm_compute; reflexivity.
Qed.

(** Already at depth 2 the path the crawl started from is entered again
    although it is in [seen]. *)
Example crawl_depth_2 :
  ∃ w,
    ProjectManager.ensureTransitiveFileDependencies exampleEnv exampleCyclicRemote 2 "a.ts"
      (ProjectManager.mkCrawl exampleEnv exampleCyclic ∅ [] []) = Some (Ok (), w)
    ∧ ProjectManager.visits w = ["a.ts"; "b.ts"; "a.ts"].
Proof. eexists. split; vm_compute; reflexivity. Qed.


(** ** Insertion-ordered maps and sets *)

Section JsMap_facts.
Context {V : Type}.
Implicit Types (m : list (string * V)) (s : list string).

Lemma JsMap_get_None key m : JsMap.get key m = None ↔ key ∉ m.*1.
Proof.
  induction m as [|[k v] m IH]; simpl.
  - split; [intros _; apply not_elem_of_nil|done].
  - rewrite not_elem_of_cons. destruct (decide (k = key)) as [->|Hne].
    + split; [done|]. by intros [? _].
    + rewrite IH. split; [by intros ?; split; [congruence|]|by intros [_ ?]].
Qed.

Lemma JsMap_has_keys key m : JsMap.has key m = bool_decide (key ∈ m.*1).
Proof.
  unfold JsMap.has. apply bool_decide_ext.
  rewrite <- not_eq_None_Some, JsMap_get_None.
  split; [apply dec_stable|by intros ? ?].
Qed.

Lemma JsMap_get_set_eq key value m : JsMap.get key (JsMap.set key value m) = Some value.
Proof.
  induction m as [|[k v] m IH]; simpl.
  - by destruct (decide (key = key)).
  - destruct (decide (k = key)) as [->|Hne]; simpl.
    + by destruct (decide (key = key)).
    + by destruct (decide (k = key)).
Qed.

Lemma JsMap_get_set_ne key key' value m :
  key' ≠ key → JsMap.get key' (JsMap.set key value m) = JsMap.get key' m.
Proof.
  intros Hne. induction m as [|[k v] m IH]; simpl.
  - by destruct (decide (key = key')) as [->|].
  - destruct (decide (k = key)) as [->|Hk]; simpl.
    + by destruct (decide (key = key')) as [->|].
    + by rewrite IH.
Qed.

Lemma JsMap_set_absent key value m :
  key ∉ m.*1 → JsMap.set key value m = m ++ [(key, value)].
Proof.
  induction m as [|[k v] m IH]; simpl; [done|].
  rewrite not_elem_of_cons. intros [Hne Hnot].
  destruct (decide (k = key)); [congruence|]. by rewrite IH.
Qed.

Lemma JsMap_set_keys key value m :
  (JsMap.set key value m).*1 = JsMap.add key (m.*1).
Proof.
  unfold JsMap.add. destruct (decide (key ∈ m.*1)) as [Hin|Hnot].
  - induction m as [|[k v] m IH]; simpl in *; [by apply elem_of_nil in Hin|].
    destruct (decide (k = key)) as [->|Hne]; simpl; [done|].
    apply elem_of_cons in Hin as [?|Hin]; [congruence|]. f_equal. by apply IH.
  - rewrite JsMap_set_absent by done. by rewrite fmap_app.
Qed.

Lemma JsMap_elem_of_add x y s : y ∈ JsMap.add x s ↔ y = x ∨ y ∈ s.
Proof.
  unfold JsMap.add. destruct (decide (x ∈ s)) as [Hin|Hnot].
  - split; [by right|]. by intros [->|?].
  - rewrite elem_of_app, list_elem_of_singleton. tauto.
Qed.

Lemma JsMap_NoDup_add x s : NoDup s → NoDup (JsMap.add x s).
Proof.
  intros Hs. unfold JsMap.add. destruct (decide (x ∈ s)) as [Hin|Hnot]; [done|].
  apply NoDup_app. split; [done|]. split; [|apply NoDup_singleton].
  intros y Hy. rewrite list_elem_of_singleton. by intros ->.
Qed.

(** In a map with distinct keys every entry is what [get] finds. *)
Lemma JsMap_get_entry key value m :
  NoDup m.*1 → (key, value) ∈ m → JsMap.get key m = Some value.
Proof.
  induction m as [|[k v] m IH]; simpl.
  - intros _ Hin. by apply elem_of_nil in Hin.
  - rewrite NoDup_cons. intros [Hk Hnd]. rewrite elem_of_cons.
    destruct (decide (k = key)) as [->|Hne].
    + intros [Heq|Hin]; [congruence|].
      exfalso. apply Hk. apply list_elem_of_fmap. by exists (key, value).
    + intros [Heq|Hin]; [congruence|]. by apply IH.
Qed.

End JsMap_facts.

(** ** Publishing diagnostics *)

Section Diagnostics_facts.
Import Diagnostics.
Variable MessageText : Type.
Variable flattenDiagnosticMessageText : MessageText → string → string.
Variable getLineAndCharacterOfPosition : string → nat → nat * nat.
Variable path2uri : string → string → string.

Local Abbreviation Diag := (Diagnostic MessageText).
Local Abbreviation publish :=
  (publishFileDiagnostics MessageText flattenDiagnosticMessageText
     getLineAndCharacterOfPosition path2uri).
Local Abbreviation update :=
  (updateFileDiagnostics MessageText flattenDiagnosticMessageText
     getLineAndCharacterOfPosition path2uri).
Local Abbreviation ofFile f := (λ d : Diag, file MessageText d = Some f).

(** For diagnostics that all have a file the loops are those of total
    functions of the file name [name d]. *)
Local Abbreviation name d := (default "" (file MessageText d)).
Local Abbreviation named f := (λ d : Diag, name d = f).
Local Abbreviation group_step :=
  (λ (byFile : list (string * list Diag)) (d : Diag),
     match JsMap.get (name d) byFile with
     | None => JsMap.set (name d) [d] byFile
     | Some diagnosticsForFile =>
         JsMap.set (name d) (diagnosticsForFile ++ [d]) byFile
     end).
Local Abbreviation grouped ds := (foldl group_step [] ds).
Local Abbreviation names ds :=
  (foldl (λ files (d : Diag), JsMap.add (name d) files) [] ds).
Local Abbreviation convert :=
  (λ d : Diag,
     mkLspDiagnostic
       (getLineAndCharacterOfPosition (name d) (start MessageText d),
        getLineAndCharacterOfPosition (name d)
          (start MessageText d + length MessageText d))
       (flattenDiagnosticMessageText (messageText MessageText d) newline)
       (parseDiagnosticCategory (category MessageText d))
       (code MessageText d) "ts").
Local Abbreviation paramsOf f l := (mkParams (path2uri "" f) (map convert l)).

Lemma group_fold_get (ds : list Diag) (m : list (string * list Diag)) f :
  JsMap.get f (foldl group_step m ds)
  = match filter (named f) ds with
    | [] => JsMap.get f m
    | l => Some (default [] (JsMap.get f m) ++ l)
    end.
Proof.
  revert m. induction ds as [|d ds IH]; intros m; cbn [foldl]; [done|].
  rewrite IH. destruct (decide (name d = f)) as [Heq|Hne].
  - rewrite filter_cons_True by done.
    assert (JsMap.get f (group_step m d)
            = Some (default [] (JsMap.get f m) ++ [d])) as ->.
    { cbv beta. rewrite Heq. destruct (JsMap.get f m); simpl;
        by rewrite JsMap_get_set_eq. }
    simpl. destruct (filter (named f) ds); [done|].
    by rewrite <- app_assoc.
  - rewrite filter_cons_False by done.
    assert (JsMap.get f (group_step m d) = JsMap.get f m) as ->; [|done].
    cbv beta. destruct (JsMap.get (name d) m);
      by rewrite JsMap_get_set_ne.
Qed.

Lemma group_fold_keys (ds : list Diag) (m : list (string * list Diag)) :
  (foldl group_step m ds).*1
  = foldl (λ files d, JsMap.add (name d) files) (m.*1) ds.
Proof.
  revert m. induction ds as [|d ds IH]; intros m; cbn [foldl]; [done|].
  rewrite IH. f_equal. cbv beta.
  destruct (JsMap.get (name d) m); apply JsMap_set_keys.
Qed.

Lemma add_fold_facts (ds : list Diag) (s : list string) :
  NoDup s →
  NoDup (foldl (λ files d, JsMap.add (name d) files) s ds)
  ∧ ∀ f, f ∈ foldl (λ files d, JsMap.add (name d) files) s ds
         ↔ f ∈ s ∨ ∃ d, d ∈ ds ∧ name d = f.
Proof.
  revert s. induction ds as [|d ds IH]; intros s Hs; cbn [foldl].
  - split; [done|]. intros f. split; [by left|].
    intros [?|(d & Hd & _)]; [done|]. by apply elem_of_nil in Hd.
  - destruct (IH _ (JsMap_NoDup_add (name d) s Hs)) as [Hnd Hin].
    split; [done|]. intros f. rewrite Hin, JsMap_elem_of_add. split.
    + intros [[->|?]|(d' & Hd' & Hf)]; [right|by left|right].
      * exists d. split; [left|done].
      * exists d'. split; [by right|done].
    + intros [?|(d' & Hd' & Hf)]; [by left; right|].
      apply elem_of_cons in Hd' as [->|Hd']; [by left; left|].
      right. by exists d'.
Qed.

Lemma names_NoDup (ds : list Diag) : NoDup (names ds).
Proof. apply add_fold_facts, NoDup_nil_2. Qed.

Lemma names_elem (ds : list Diag) f :
  f ∈ names ds ↔ ∃ d, d ∈ ds ∧ name d = f.
Proof.
  destruct (add_fold_facts ds [] (NoDup_nil_2)) as [_ ->].
  split; [|by right]. intros [Hin|?]; [|done]. by apply elem_of_nil in Hin.
Qed.

Lemma filter_named_nil (ds : list Diag) f :
  filter (named f) ds = [] ↔ f ∉ names ds.
Proof.
  rewrite names_elem. split.
  - intros Hnil (d & Hd & Hf).
    assert (d ∈ filter (named f) ds) as Hin by (by apply list_elem_of_filter).
    rewrite Hnil in Hin. by apply elem_of_nil in Hin.
  - intros Hno. destruct (filter (named f) ds) as [|d l] eqn:Hfilter; [done|].
    exfalso. apply Hno. exists d.
    assert (d ∈ filter (named f) ds) as Hin by (rewrite Hfilter; left).
    apply list_elem_of_filter in Hin as [? ?]. done.
Qed.

Lemma grouped_facts (ds : list Diag) :
  (grouped ds).*1 = names ds
  ∧ NoDup (grouped ds).*1
  ∧ ∀ f, JsMap.get f (grouped ds)
         = match filter (named f) ds with
           | [] => None
           | l => Some l
           end.
Proof.
  assert ((grouped ds).*1 = names ds) as Hkeys.
  { apply (group_fold_keys ds []). }
  split; [done|]. split; [rewrite Hkeys; apply names_NoDup|].
  intros f. by rewrite group_fold_get.
Qed.

Lemma grouped_nonempty (ds : list Diag) :
  Forall (λ e, e.2 ≠ []) (grouped ds).
Proof.
  destruct (grouped_facts ds) as (_ & Hnd & Hget).
  apply Forall_forall. intros [f l] Hin. simpl. intros ->.
  apply (JsMap_get_entry f [] _ Hnd) in Hin. rewrite Hget in Hin.
  by destruct (filter (named f) ds).
Qed.

(** Every group is a sublist of the diagnostics. *)
Lemma grouped_sublists (ds : list Diag) (P : Diag → Prop) :
  Forall P ds → Forall (λ e, Forall P e.2) (grouped ds).
Proof.
  intros Hall. destruct (grouped_facts ds) as (_ & Hnd & Hget).
  apply Forall_forall. intros [f l] Hin. simpl.
  apply (JsMap_get_entry f l _ Hnd) in Hin. rewrite Hget in Hin.
  assert (l = filter (named f) ds) as ->.
  { destruct (filter (named f) ds); [done|]. by injection Hin as <-. }
  apply Forall_forall. intros d Hd. apply list_elem_of_filter in Hd as [_ Hd].
  rewrite Forall_forall in Hall. by apply Hall.
Qed.

Local Abbreviation clear_step :=
  (λ (byFile : list (string * list Diag)) (fileName : string),
     if JsMap.has fileName byFile then byFile
     else JsMap.set fileName [] byFile).

(** The loop over [problemFiles] appends an empty list for every problem
    file that has no key yet, and touches nothing else. *)
Lemma clear_fold (problemFiles : list string) (m : list (string * list Diag)) :
  ∃ cleared,
    foldl clear_step m problemFiles = m ++ map (λ f, (f, [])) cleared
    ∧ NoDup cleared
    ∧ ∀ f, f ∈ cleared ↔ f ∈ problemFiles ∧ f ∉ m.*1.
Proof.
  revert m. induction problemFiles as [|p ps IH]; intros m; cbn [foldl].
  - exists []. split; [by rewrite app_nil_r|]. split; [apply NoDup_nil_2|].
    intros f. split; [intros Hin|intros [Hin _]]; by apply elem_of_nil in Hin.
  - cbv beta. rewrite JsMap_has_keys.
    destruct (bool_decide (p ∈ m.*1)) eqn:Hp.
    + apply bool_decide_eq_true in Hp.
      destruct (IH m) as (cleared & Heq & Hnd & Hin).
      exists cleared. split; [done|]. split; [done|]. intros f. rewrite Hin.
      rewrite elem_of_cons. split; [tauto|]. intros [[->|?] ?]; [done|tauto].
    + apply bool_decide_eq_false in Hp. rewrite JsMap_set_absent by done.
      destruct (IH (m ++ [(p, [])])) as (cleared & Heq & Hnd & Hin).
      exists (p :: cleared). split; [|split].
      * rewrite Heq. by rewrite <- app_assoc.
      * apply NoDup_cons. split; [|done]. rewrite Hin, fmap_app, elem_of_app.
        intros [_ Hnot]. apply Hnot. right. simpl. left.
      * intros f. rewrite elem_of_cons, Hin, fmap_app, elem_of_app, elem_of_cons.
        simpl. rewrite list_elem_of_singleton.
        destruct (decide (f = p)) as [->|Hne]; [tauto|]. tauto.
Qed.

Lemma clear_fold_fresh (files : list string) (m : list (string * list Diag)) :
  NoDup (m.*1 ++ files) →
  foldl clear_step m files = m ++ map (λ f, (f, [])) files.
Proof.
  revert m. induction files as [|p ps IH]; intros m Hnd; cbn [foldl].
  - by rewrite app_nil_r.
  - cbv beta. rewrite JsMap_has_keys.
    assert (p ∉ m.*1) as Hp.
    { apply NoDup_app in Hnd as (_ & Hdisj & _). intros Hin.
      apply (Hdisj p Hin). left. }
    rewrite bool_decide_eq_false_2 by done.
    rewrite JsMap_set_absent by done. rewrite IH.
    + by rewrite <- app_assoc.
    + rewrite fmap_app. simpl. by rewrite <- app_assoc.
Qed.

Lemma mapRes_Ok {A B : Type} (g : A → res B) (h : A → B) (l : list A) :
  Forall (λ x, g x = Ok (h x)) l → mapRes g l = Ok (map h l).
Proof.
  induction 1 as [|x l Hx _ IH]; [done|]. simpl. by rewrite Hx, IH.
Qed.

Lemma publish_Ok f (l : list Diag) :
  allHaveFile MessageText l → publish f l = Ok (paramsOf f l).
Proof.
  intros Hall. unfold publishFileDiagnostics.
  rewrite (mapRes_Ok _ convert); [done|].
  eapply Forall_impl; [exact Hall|]. intros d [g Hg].
  unfold lspDiagnostic. by rewrite Hg.
Qed.

Local Abbreviation update_step :=
  (λ '(outcome, sent, problemFiles) '(fileName, diagnostics),
     match (outcome : res ()) with
     | Throw err => (Throw err, sent, problemFiles)
     | Ok _ =>
         match publish fileName diagnostics with
         | Throw err => (Throw err, sent, problemFiles)
         | Ok params =>
             (Ok (), sent ++ [params],
              if decide (0 < List.length (diagnostics : list Diag))
              then JsMap.add fileName problemFiles
              else problemFiles)
         end
     end).

Lemma update_fold (entries : list (string * list Diag)) sent problemFiles :
  Forall (λ e, allHaveFile MessageText e.2) entries →
  foldl update_step (Ok (), sent, problemFiles) entries
  = (Ok (), sent ++ map (λ e, paramsOf e.1 e.2) entries,
     foldl (λ s e, if decide (0 < List.length e.2) then JsMap.add e.1 s else s)
           problemFiles entries).
Proof.
  revert sent problemFiles. induction entries as [|[f l] entries IH];
    intros sent problemFiles Hall; cbn [foldl].
  - by rewrite app_nil_r.
  - apply Forall_cons in Hall as [Hl Hall]. simpl in Hl.
    cbv beta iota. rewrite (publish_Ok f l Hl). rewrite IH by done.
    simpl. by rewrite <- app_assoc.
Qed.

Lemma problems_of_groups (entries : list (string * list Diag)) s :
  Forall (λ e, e.2 ≠ []) entries → NoDup (s ++ entries.*1) →
  foldl (λ s e, if decide (0 < List.length e.2) then JsMap.add e.1 s else s)
        s entries
  = s ++ entries.*1.
Proof.
  revert s. induction entries as [|[f l] entries IH]; intros s Hne Hnd; cbn [foldl].
  - by rewrite app_nil_r.
  - apply Forall_cons in Hne as [Hl Hne]. simpl in *.
    destruct (decide (0 < List.length l)) as [_|Hz]; [|destruct l; [done|simpl in Hz; lia]].
    assert (f ∉ s) as Hf.
    { apply NoDup_app in Hnd as (_ & Hdisj & _). intros Hin.
      apply (Hdisj f Hin). left. }
    unfold JsMap.add. destruct (decide (f ∈ s)); [done|].
    rewrite IH; [by rewrite <- app_assoc|done|by rewrite <- app_assoc].
Qed.

Lemma problems_of_cleared (cleared : list string) s :
  foldl (λ s (e : string * list Diag),
           if decide (0 < List.length e.2) then JsMap.add e.1 s else s)
        s (map (λ f, (f, [])) cleared)
  = s.
Proof.
  revert s. induction cleared as [|f cleared IH]; intros s; [done|].
  cbn [map foldl]. simpl. apply IH.
Qed.

(** *** Diagnostics that all have a file *)

Lemma filter_named (ds : list Diag) f :
  allHaveFile MessageText ds → filter (named f) ds = filter (ofFile f) ds.
Proof.
  induction 1 as [|d ds [g Hg] _ IH]; [done|].
  destruct (decide (g = f)) as [->|Hne].
  - rewrite !filter_cons_True; [by rewrite IH|done|by rewrite Hg].
  - rewrite !filter_cons_False; [done|rewrite Hg; congruence|by rewrite Hg].
Qed.

Lemma named_elem (ds : list Diag) f :
  allHaveFile MessageText ds →
  (∃ d, d ∈ ds ∧ name d = f) ↔ (∃ d, d ∈ ds ∧ file MessageText d = Some f).
Proof.
  intros Hall. unfold allHaveFile in Hall. rewrite Forall_forall in Hall.
  split; intros (d & Hd & Hf); exists d; (split; [done|]).
  - destruct (Hall d Hd) as [g Hg]. rewrite Hg in Hf. simpl in Hf. congruence.
  - by rewrite Hf.
Qed.

Lemma filesOf_names (ds : list Diag) :
  allHaveFile MessageText ds → filesOf MessageText ds = names ds.
Proof.
  unfold filesOf. generalize ([] : list string).
  intros s Hall. revert s. induction Hall as [|d ds [g Hg] _ IH]; intros s; [done|].
  cbn [foldl]. rewrite Hg. simpl. apply IH.
Qed.

Lemma groupByFile_grouped (ds : list Diag) :
  allHaveFile MessageText ds → groupByFile MessageText ds = Ok (grouped ds).
Proof.
  unfold groupByFile. generalize ([] : list (string * list Diag)).
  intros m Hall. revert m. induction Hall as [|d ds [g Hg] _ IH]; intros m; [done|].
  cbn [foldl]. rewrite Hg. simpl. apply IH.
Qed.

Lemma update_with_files (problemFiles : list string) (ds : list Diag) :
  allHaveFile MessageText ds →
  ∃ cleared,
    update problemFiles ds
    = (Ok (),
       map (λ e, paramsOf e.1 e.2) (grouped ds ++ map (λ f, (f, [])) cleared),
       names ds)
    ∧ NoDup cleared
    ∧ ∀ f, f ∈ cleared ↔ f ∈ problemFiles ∧ f ∉ names ds.
Proof.
  intros Hall. destruct (grouped_facts ds) as (Hkeys & Hnd & _).
  destruct (clear_fold problemFiles (grouped ds)) as (cleared & Heq & Hndc & Hin).
  rewrite Hkeys in Hin. exists cleared. split; [|done].
  unfold updateFileDiagnostics, diagnosticsByFile.
  rewrite (groupByFile_grouped ds Hall), Heq, update_fold.
  - simpl. rewrite foldl_app, problems_of_cleared.
    rewrite problems_of_groups; [by rewrite Hkeys|apply grouped_nonempty|done].
  - apply Forall_app. split; [by apply grouped_sublists|].
    apply Forall_fmap, Forall_forall. intros f _. apply Forall_nil_2.
Qed.

(** X1. One call of [updateFileDiagnostics] with diagnostics that all have
    a file ends normally and sends exactly one message per file concerned: a
    file with diagnostics in this update gets precisely its own
    diagnostics, in order; a file that was a problem file and has none now
    gets an empty list; any other file gets no message. The files with
    diagnostics come first, in the order of their first diagnostic. *)
Theorem updateFileDiagnostics_messages (problemFiles : list string) (ds : list Diag) :
  allHaveFile MessageText ds →
  ∃ groups cleared,
    groupByFile MessageText ds = Ok groups
    ∧ (update problemFiles ds).1.1 = Ok ()
    ∧ mapRes (λ e, publish e.1 e.2) (groups ++ map (λ f, (f, [])) cleared)
      = Ok (update problemFiles ds).1.2
    ∧ NoDup (groups ++ map (λ f, (f, [])) cleared).*1
    ∧ (∀ f, f ∈ cleared ↔ f ∈ problemFiles ∧ f ∉ filesOf MessageText ds)
    ∧ ∀ f, JsMap.get f (groups ++ map (λ f, (f, [])) cleared)
           = match filter (ofFile f) ds with
             | [] => if decide (f ∈ problemFiles) then Some [] else None
             | l => Some l
             end.
Proof.
  intros Hall.
  destruct (grouped_facts ds) as (Hkeys & Hnd & Hget).
  destruct (update_with_files problemFiles ds Hall) as (cleared & Hupdate & Hndc & Hin).
  assert (NoDup (grouped ds ++ map (λ f, (f, [])) cleared).*1) as Hnd'.
  { rewrite fmap_app. apply NoDup_app. split; [done|]. split.
    - intros f Hf. rewrite <- list_fmap_compose. simpl. rewrite list_fmap_id.
      rewrite Hin, <- Hkeys. tauto.
    - rewrite <- list_fmap_compose. simpl. by rewrite list_fmap_id. }
  exists (grouped ds), cleared. rewrite Hupdate. simpl.
  split; [by apply groupByFile_grouped|]. split; [done|]. split.
  { apply mapRes_Ok. apply Forall_app. split.
    - eapply Forall_impl; [apply (grouped_sublists ds _ Hall)|].
      intros [f l] Hl. by apply publish_Ok.
    - apply Forall_fmap, Forall_forall. intros f _. simpl.
      apply publish_Ok, Forall_nil_2. }
  split; [done|]. split; [by rewrite filesOf_names|].
  intros f. rewrite <- (filter_named ds f Hall).
  destruct (filter (named f) ds) as [|d l] eqn:Hfilter.
  - apply filter_named_nil in Hfilter.
    destruct (decide (f ∈ problemFiles)) as [Hp|Hp].
    + apply JsMap_get_entry; [done|]. apply elem_of_app. right.
      apply list_elem_of_fmap. exists f. split; [done|]. by apply Hin.
    + apply JsMap_get_None. rewrite fmap_app, elem_of_app, Hkeys.
      rewrite <- list_fmap_compose. simpl. rewrite list_fmap_id, Hin. tauto.
  - apply JsMap_get_entry; [done|]. apply elem_of_app. left.
    specialize (Hget f). rewrite Hfilter in Hget.
    clear -Hget. induction (grouped ds) as [|[k v] m IH];
      simpl in Hget; [done|].
    destruct (decide (k = f)) as [->|Hne]; [injection Hget as ->; left|].
    right. by apply IH.
Qed.

(** X2. A round without diagnostics clears what the round before reported:
    after a round with diagnostics that all have a file, it sends one
    empty message for each file that had diagnostics, in the same order,
    and leaves no problem file, so that a further such round sends nothing
    at all. *)
Theorem updateFileDiagnostics_clears (problemFiles : list string) (ds : list Diag) :
  allHaveFile MessageText ds →
  let reported := (update problemFiles ds).2 in
  update reported []
  = (Ok (), map (λ f, mkParams (path2uri "" f) []) (filesOf MessageText ds), [])
  ∧ update (update reported []).2 [] = (Ok (), [], []).
Proof.
  intros Hall. cbv zeta.
  destruct (update_with_files problemFiles ds Hall) as (cleared & -> & _).
  rewrite (filesOf_names ds Hall). simpl.
  assert (update (names ds) []
          = (Ok (), map (λ f, mkParams (path2uri "" f) []) (names ds), [])) as Hclear.
  { unfold updateFileDiagnostics, diagnosticsByFile.
    change (groupByFile MessageText []) with (Ok ([] : list (string * list Diag))).
    cbv iota. rewrite clear_fold_fresh by apply names_NoDup.
    rewrite app_nil_l, update_fold, problems_of_cleared.
    - simpl. by rewrite <- list_fmap_compose.
    - apply Forall_fmap, Forall_forall. intros f _. apply Forall_nil_2. }
  split; [done|]. by rewrite Hclear.
Qed.

(** X3. [groupByFile], given diagnostics that all have a file, sorts every
    diagnostic under its own file: the keys are the files that have a
    diagnostic, each once and in the order of their first diagnostic, and
    the list kept for a file is the sublist of its diagnostics, in their
    original order. *)
Theorem groupByFile_partitions (ds : list Diag) :
  allHaveFile MessageText ds →
  ∃ groups,
    groupByFile MessageText ds = Ok groups
    ∧ groups.*1 = filesOf MessageText ds
    ∧ NoDup groups.*1
    ∧ ∀ f, JsMap.get f groups
           = match filter (ofFile f) ds with
             | [] => None
             | l => Some l
             end.
Proof.
  intros Hall. exists (grouped ds).
  destruct (grouped_facts ds) as (Hkeys & Hnd & Hget).
  split; [by apply groupByFile_grouped|]. split; [by rewrite filesOf_names|].
  split; [done|]. intros f. by rewrite <- (filter_named ds f Hall).
Qed.

(** X4. After [updateFileDiagnostics] with diagnostics that all have a file
    the problem files are exactly the files that have a diagnostic in this
    update, each once, whatever the problem files were before. *)
Theorem updateFileDiagnostics_problemFiles (problemFiles : list string) (ds : list Diag) :
  allHaveFile MessageText ds →
  (update problemFiles ds).2 = filesOf MessageText ds
  ∧ NoDup (update problemFiles ds).2
  ∧ ∀ f, f ∈ (update problemFiles ds).2 ↔ ∃ d, d ∈ ds ∧ file MessageText d = Some f.
Proof.
  intros Hall.
  destruct (update_with_files problemFiles ds Hall) as (cleared & -> & _). simpl.
  split; [by rewrite filesOf_names|]. split; [apply names_NoDup|].
  intros f. rewrite names_elem. by apply named_elem.
Qed.

(** *** A diagnostic without a file *)

Lemma groupByFile_thrown (ds : list Diag) err :
  foldl (λ acc d,
           match acc with
           | Throw err => Throw err
           | Ok diagnosticsByFile =>
               match file MessageText d with
               | None => Throw (typeError "fileName")
               | Some fileName =>
                   Ok (match JsMap.get fileName diagnosticsByFile with
                       | None => JsMap.set fileName [d] diagnosticsByFile
                       | Some diagnosticsForFile =>
                           JsMap.set fileName (diagnosticsForFile ++ [d])
                             diagnosticsByFile
                       end)
               end
           end)
        (Throw err) ds
  = Throw err.
Proof. by induction ds. Qed.

Lemma groupByFile_throws (ds : list Diag) :
  Exists (λ d, file MessageText d = None) ds →
  groupByFile MessageText ds = Throw (typeError "fileName").
Proof.
  unfold groupByFile. generalize ([] : list (string * list Diag)).
  intros m Hex. revert m. induction ds as [|d ds IH]; intros m.
  - by apply Exists_nil in Hex.
  - cbn [foldl]. destruct (file MessageText d) as [g|] eqn:Hg.
    + apply Exists_cons in Hex as [Hd|Hex]; [congruence|]. by apply IH.
    + apply groupByFile_thrown.
Qed.

(** X24. When some diagnostic has no file ([ts.getPreEmitDiagnostics] returns
    such diagnostics), [groupByFile] throws the [TypeError] of
    [d.file.fileName] and [updateFileDiagnostics] ends with it before
    anything else happens: no message is sent, not even for the diagnostics
    that do have a file, and [problemFiles] is left as it was, so files
    that were fixed are not cleared. *)
Theorem updateFileDiagnostics_throws_without_file (problemFiles : list string)
    (ds : list Diag) :
  Exists (λ d, file MessageText d = None) ds →
  groupByFile MessageText ds = Throw (typeError "fileName")
  ∧ update problemFiles ds = (Throw (typeError "fileName"), [], problemFiles).
Proof.
  intros Hex. pose proof (groupByFile_throws ds Hex) as Hthrow.
  split; [done|]. unfold updateFileDiagnostics. by rewrite Hthrow.
Qed.

End Diagnostics_facts.

Lemma exampleDiagnostics_allHaveFile :
  Diagnostics.allHaveFile string exampleDiagnostics.
Proof. repeat constructor; by eexists. Qed.

Lemma exampleGlobalDiagnostics_without_file :
  Exists (λ d, Diagnostics.file string d = None) exampleGlobalDiagnostics.
Proof. apply Exists_cons_tl, Exists_cons_hd. reflexivity. Qed.

Lemma updateFileDiagnostics_messages_witness :
  Diagnostics.allHaveFile string exampleDiagnostics
  ∧ (Diagnostics.updateFileDiagnostics string (λ text _, text) (λ _ n, (0, n))
       (λ _ f, f) ["old.ts"; "b.ts"] exampleDiagnostics).1.1 = Ok ().
Proof.
  split; [exact exampleDiagnostics_allHaveFile|].
  destruct (updateFileDiagnostics_messages string (λ text _, text) (λ _ n, (0, n))
              (λ _ f, f) ["old.ts"; "b.ts"] exampleDiagnostics
              exampleDiagnostics_allHaveFile)
    as (groups & cleared & _ & Hends & _).
  exact Hends.
Defined.

Lemma updateFileDiagnostics_clears_witness :
  Diagnostics.allHaveFile string exampleDiagnostics
  ∧ Diagnostics.updateFileDiagnostics string (λ text _, text) (λ _ n, (0, n))
      (λ _ f, f)
      (Diagnostics.updateFileDiagnostics string (λ text _, text) (λ _ n, (0, n))
         (λ _ f, f) ["old.ts"; "b.ts"] exampleDiagnostics).2 []
    = (Ok (),
       map (λ f, Diagnostics.mkParams ((λ _ f, f) "" f) [])
           (Diagnostics.filesOf string exampleDiagnostics),
       []).
Proof.
  split; [exact exampleDiagnostics_allHaveFile|].
  pose proof (updateFileDiagnostics_clears string (λ text _, text) (λ _ n, (0, n))
                (λ _ f, f) ["old.ts"; "b.ts"] exampleDiagnostics
                exampleDiagnostics_allHaveFile) as Hclears.
  cbv zeta in Hclears. destruct Hclears as [Hclears _]. exact Hclears.
Defined.

Lemma groupByFile_partitions_witness :
  Diagnostics.allHaveFile string exampleDiagnostics
  ∧ ∃ groups,
      Diagnostics.groupByFile string exampleDiagnostics = Ok groups
      ∧ groups.*1 = Diagnostics.filesOf string exampleDiagnostics.
Proof.
  split; [exact exampleDiagnostics_allHaveFile|].
  destruct (groupByFile_partitions string exampleDiagnostics
              exampleDiagnostics_allHaveFile)
    as (groups & Hgroups & Hkeys & _).
  exists groups. split; [exact Hgroups|exact Hkeys].
Defined.

Lemma updateFileDiagnostics_problemFiles_witness :
  Diagnostics.allHaveFile string exampleDiagnostics
  ∧ (Diagnostics.updateFileDiagnostics string (λ text _, text) (λ _ n, (0, n))
       (λ _ f, f) ["old.ts"; "b.ts"] exampleDiagnostics).2
    = Diagnostics.filesOf string exampleDiagnostics.
Proof.
  split; [exact exampleDiagnostics_allHaveFile|].
  destruct (updateFileDiagnostics_problemFiles string (λ text _, text) (λ _ n, (0, n))
              (λ _ f, f) ["old.ts"; "b.ts"] exampleDiagnostics
              exampleDiagnostics_allHaveFile)
    as (Hfiles & _).
  exact Hfiles.
Defined.

Lemma updateFileDiagnostics_throws_without_file_witness :
  Exists (λ d, Diagnostics.file string d = None) exampleGlobalDiagnostics
  ∧ Diagnostics.updateFileDiagnostics string (λ text _, text) (λ _ n, (0, n))
      (λ _ f, f) ["old.ts"] exampleGlobalDiagnostics
    = (Throw (Diagnostics.typeError "fileName"), [], ["old.ts"]).
Proof.
  split; [exact exampleGlobalDiagnostics_without_file|].
  destruct (updateFileDiagnostics_throws_without_file string (λ text _, text)
              (λ _ n, (0, n)) (λ _ f, f) ["old.ts"] exampleGlobalDiagnostics
              exampleGlobalDiagnostics_without_file)
    as (_ & Hthrows).
  exact Hthrows.
Defined.

(** ** More on [FileSystemUpdater] *)

Section FileSystemUpdater_more.
Import FileSystemUpdater.

(** X5. [invalidate(uri)] followed by [ensure(uri)] starts exactly one new
    fetch, whatever was cached for [uri] before (also a fetch that had
    succeeded): one new body is queued for [uri], its promise is cached, a
    further [ensure(uri)] returns that promise and queues nothing, and the
    entries of all other files are untouched. *)
Theorem invalidate_then_ensure_refetches (uri : string) (s : t) :
  let s1 := invalidate uri s in
  let s2 := (ensure uri s1).2 in
  let promise := length (promises s) in
  ensure uri s1 = fetch uri s1
  ∧ waiting s2 = waiting s ++ [(promise, uri)]
  ∧ running s2 = running s
  ∧ fetches s2 !! uri = Some promise
  ∧ ensure uri s2 = (promise, s2)
  ∧ ∀ uri', uri' ≠ uri → fetches s2 !! uri' = fetches s !! uri'.
Proof.
  cbv zeta.
  assert (fetches (invalidate uri s) !! uri = None) as Hnone.
  { simpl. apply lookup_delete_eq. }
  assert (ensure uri (invalidate uri s) = fetch uri (invalidate uri s)) as Hens.
  { unfold ensure. by rewrite Hnone. }
  rewrite Hens.
  destruct (fetch_frame uri (invalidate uri s)) as (_ & Hf & Hw & Hr & _).
  split; [done|]. split; [done|]. split; [done|].
  assert (fetches (fetch uri (invalidate uri s)).2 !! uri = Some (length (promises s))) as Hentry.
  { rewrite Hf. simpl. apply lookup_insert_eq. }
  split; [done|]. split; [by apply ensure_cached|].
  intros uri' Hne. rewrite Hf. simpl.
  rewrite lookup_insert_ne by done. by rewrite lookup_delete_ne.
Qed.

Lemma listings_step ev s s' :
  usesStructureCache ev → step ev s = Some s' →
  count Listed (history s') + noListingCached s'
  ≤ count Listed (history s) + noListingCached s + failedListings [ev].
Proof.
  unfold noListingCached.
  intros Hcalm. destruct ev as [uri|uri|uri| | | | |w| |pr a|pr a|f];
    try done; cbn [step].
  - intros Heq. injection Heq as <-. unfold ensure.
    destruct (fetches s !! uri); [simpl; lia|].
    destruct (fetch_frame uri s) as (_ & _ & _ & _ & _ & _ & -> & _ & -> & _).
    simpl. lia.
  - intros Heq. injection Heq as <-. simpl. lia.
  - intros Heq. injection Heq as <-. simpl. lia.
  - intros Heq. injection Heq as <-. unfold ensureStructure.
    destruct (structureFetch s) eqn:Hs; simpl; [rewrite Hs|]; lia.
  - unfold start. destruct (waiting s) as [|[pr uri] rest]; [done|].
    destruct (decide _); [|done]. intros Heq. injection Heq as <-. simpl. lia.
  - unfold content_reply. destruct (take pr (running s)) as [[uri rest]|]; [|done].
    destruct a as [content|err]; [destruct (MemFs.getContent _ _)|];
      intros Heq; injection Heq as <-; simpl; lia.
  - unfold files_reply. destruct (decide _); [|done].
    destruct a as [uris|err]; intros Heq; injection Heq as <-; simpl;
      destruct (structureFetch s); lia.
  - intros Heq. injection Heq as <-. simpl. lia.
Qed.

Lemma failedListings_cons ev evs :
  failedListings (ev :: evs) = failedListings [ev] + failedListings evs.
Proof. destruct ev as [| | | | | | | | | |pr [|]|]; simpl; lia. Qed.

Lemma listings_run evs s s' :
  Forall usesStructureCache evs → run evs s = Some s' →
  count Listed (history s') + noListingCached s'
  ≤ count Listed (history s) + noListingCached s + failedListings evs.
Proof.
  revert s. induction evs as [|ev evs IH]; intros s Hall; simpl run.
  - intros Heq. injection Heq as <-. simpl. lia.
  - destruct (step ev s) as [s1|] eqn:Hstep; [|done]. intros Hrun.
    apply Forall_cons in Hall as [Hev Hall].
    pose proof (listings_step ev s s1 Hev Hstep).
    pose proof (IH s1 Hall Hrun). rewrite failedListings_cons. lia.
Qed.

(** X6. The later revision's structure fetch is single-flight over whole runs:
    as long as the structure is only asked for through [ensureStructure],
    [getWorkspaceFiles] is called at most once more than listings have
    failed - once only, if none failed - and while a listing is cached
    [ensureStructure] returns it and changes nothing. *)
Theorem ensureStructure_lists_once (fs : MemFs.t) (evs : list event) (s : t) :
  Forall usesStructureCache evs →
  run evs (create fs) = Some s →
  count Listed (history s) ≤ 1 + failedListings evs
  ∧ ∀ promise, structureFetch s = Some promise → ensureStructure s = (promise, s).
Proof.
  intros Hall Hrun. split.
  - pose proof (listings_run evs _ _ Hall Hrun) as H.
    unfold noListingCached in H. simpl in H. lia.
  - intros promise. apply ensureStructure_cached.
Qed.

Lemma ensureStructure_lists_once_witness :
  let evs := [EnsureStructure; Ensure "file:///a.ts"; EnsureStructure;
              FilesReply 0 (Ok ["file:///a.ts"]); EnsureStructure] in
  ∃ s, run evs (create MemFs.empty) = Some s
       ∧ count Listed (history s) ≤ 1
       ∧ ensureStructure s = (0, s).
Proof.
  intros evs. eexists. split; [vm_compute; reflexivity|].
  match goal with |- count Listed (history ?s) ≤ 1 ∧ _ =>
    destruct (ensureStructure_lists_once MemFs.empty evs s) as [H1 H2]
  end.
  - repeat constructor.
  - vm_compute; reflexivity.
  - split; [exact H1|]. apply H2. reflexivity.
Defined.

Lemma running_step ev s s' :
  length (running s) ≤ concurrencyLimit → step ev s = Some s' →
  length (running s') ≤ concurrencyLimit.
Proof.
  intros Hle.
  assert (∀ pr (l : list (nat * string)) uri rest,
            take pr l = Some (uri, rest) → length l = S (length rest)) as Htake.
  { intros pr l. induction l as [|[q u] l IH]; intros uri rest; simpl; [done|].
    destruct (decide (q = pr)).
    - intros Heq. by injection Heq as -> ->.
    - destruct (take pr l) as [[b r]|]; [|done]. intros Heq.
      injection Heq as _ <-. simpl. by rewrite (IH b r). }
  destruct ev as [uri|uri|uri| | | | |w| |pr a|pr a|f]; simpl.
  - intros Heq. injection Heq as <-. unfold ensure.
    by destruct (fetches s !! uri).
  - intros Heq. by injection Heq as <-.
  - intros Heq. by injection Heq as <-.
  - intros Heq. injection Heq as <-. unfold ensureStructure.
    by destruct (structureFetch s).
  - intros Heq. by injection Heq as <-.
  - intros Heq. by injection Heq as <-.
  - intros Heq. by injection Heq as <-.
  - intros Hr. apply resume_v1_frame in Hr as (_ & _ & -> & _). done.
  - unfold start. destruct (waiting s) as [|[pr uri] rest]; [done|].
    destruct (decide (length (running s) < concurrencyLimit)) as [Hlt|]; [|done].
    intros Heq. injection Heq as <-. simpl. rewrite length_app. simpl. lia.
  - unfold content_reply. destruct (take pr (running s)) as [[uri rest]|] eqn:Ht; [|done].
    apply Htake in Ht.
    destruct a as [content|err]; [destruct (MemFs.getContent _ _)|];
      intros Heq; injection Heq as <-; simpl; lia.
  - intros Hr. apply files_reply_frame in Hr as (_ & _ & -> & _). done.
  - intros Heq. by injection Heq as <-.
Qed.

(** X7. However the updater is used, never more than 100 fetch bodies are
    awaiting an answer of [getTextDocumentContent] at the same time; a body
    is let in only while fewer than 100 are. *)
Theorem concurrent_fetches_bounded (fs : MemFs.t) (evs : list event) (s : t) :
  run evs (create fs) = Some s →
  length (running s) ≤ 100
  ∧ (length (running s) = 100 → start s = None).
Proof.
  intros Hrun.
  assert (length (running s) ≤ concurrencyLimit) as Hle.
  { assert (length (running (create fs)) ≤ concurrencyLimit) as H0 by (simpl; lia).
    revert Hrun H0. generalize (create fs). induction evs as [|ev evs IH];
      intros s0; simpl run.
    - intros Heq. by injection Heq as <-.
    - destruct (step ev s0) as [s1|] eqn:Hstep; [|done]. intros Hrun H0.
      apply (IH s1 Hrun). by apply (running_step ev s0). }
  split; [exact Hle|]. intros Hfull. unfold start.
  destruct (waiting s) as [|[pr uri] rest]; [done|].
  destruct (decide (length (running s) < concurrencyLimit)) as [Hlt|]; [|done].
  unfold concurrencyLimit in Hlt. lia.
Qed.

Lemma concurrent_fetches_bounded_witness :
  let evs := [Ensure "file:///a.ts"; Ensure "file:///b.ts"; Start; Start] in
  ∃ s, run evs (create MemFs.empty) = Some s ∧ length (running s) ≤ 100.
Proof.
  intros evs. eexists. split; [vm_compute; reflexivity|].
  match goal with |- length (running ?s) ≤ 100 =>
    destruct (concurrent_fetches_bounded MemFs.empty evs s) as [H _];
      [vm_compute; reflexivity|exact H]
  end.
Defined.

End FileSystemUpdater_more.

(** ** More on project discovery *)

Section ProjectManager_discovery_more.
Import ProjectManager.
Variable E : Env.t.

Local Abbreviation Config := (ProjectConfiguration.t E).

Lemma step_cases (pm : t E) (cfgs : gmap string Config) (rd : gset string) uri :
  createConfigurations_step E pm (cfgs, rd) uri
  = if isMarker E pm uri
    then (match cfgs !! markerDir E pm uri with
          | Some _ => cfgs
          | None =>
              <[markerDir E pm uri :=
                  markerConfig E pm (markerDir E pm uri)
                    (Env.relative E (rootPath pm) (Env.uri2path E uri))]> cfgs
          end, {[markerDir E pm uri]} ∪ rd)
    else (cfgs, rd).
Proof.
  unfold createConfigurations_step, isMarker, markerDir.
  destruct (PosixPath.is_config_marker _); simpl; [|done].
  by destruct (PosixPath.in_node_modules _).
Qed.

Lemma fold_keeps (pm : t E) uris (cfgs cfgs' : gmap string Config) (rd rd' : gset string) :
  foldl (createConfigurations_step E pm) (cfgs, rd) uris = (cfgs', rd') →
  cfgs ⊆ cfgs'.
Proof.
  revert cfgs rd. induction uris as [|uri uris IH]; intros cfgs rd; cbn [foldl].
  - intros Heq. by injection Heq as <- <-.
  - rewrite step_cases. destruct (isMarker E pm uri); [|apply IH].
    intros Hfold. apply IH in Hfold. etrans; [|exact Hfold].
    destruct (cfgs !! markerDir E pm uri) eqn:Hc; [done|].
    by apply insert_subseteq.
Qed.

Lemma fold_domain (pm : t E) uris (cfgs cfgs' : gmap string Config) (rd rd' : gset string) :
  foldl (createConfigurations_step E pm) (cfgs, rd) uris = (cfgs', rd') →
  ∀ dir, is_Some (cfgs' !! dir) ↔
         is_Some (cfgs !! dir)
         ∨ ∃ uri, uri ∈ uris ∧ isMarker E pm uri = true ∧ markerDir E pm uri = dir.
Proof.
  revert cfgs rd. induction uris as [|uri uris IH]; intros cfgs rd; cbn [foldl].
  - intros Heq. injection Heq as <- <-. intros dir. split; [by left|].
    intros [?|(uri & Hin & _)]; [done|]. by apply elem_of_nil in Hin.
  - rewrite step_cases. intros Hfold dir. destruct (isMarker E pm uri) eqn:Hm.
    + rewrite (IH _ _ Hfold dir). split.
      * intros [Hs|(u & Hin & Hu & Hd)].
        -- destruct (cfgs !! markerDir E pm uri) eqn:Hc; [by left|].
           destruct (decide (markerDir E pm uri = dir)) as [Hd|Hd].
           ++ right. exists uri. split; [left|done].
           ++ rewrite lookup_insert_ne in Hs by done. by left.
        -- right. exists u. split; [by right|done].
      * intros [Hs|(u & Hin & Hu & Hd)].
        -- left. destruct (cfgs !! markerDir E pm uri) eqn:Hc; [done|].
           destruct (decide (markerDir E pm uri = dir)) as [->|Hne].
           ++ rewrite lookup_insert_eq. eauto.
           ++ by rewrite lookup_insert_ne.
        -- apply elem_of_cons in Hin as [->|Hin].
           ++ left. rewrite <- Hd.
              destruct (cfgs !! markerDir E pm uri) eqn:Hc; [by rewrite Hc; eauto|].
              rewrite lookup_insert_eq. eauto.
           ++ right. by exists u.
    + rewrite (IH _ _ Hfold dir). split.
      * intros [?|(u & Hin & Hu & Hd)]; [by left|]. right. exists u.
        split; [by right|done].
      * intros [?|(u & Hin & Hu & Hd)]; [by left|].
        apply elem_of_cons in Hin as [->|Hin]; [congruence|]. right. by exists u.
Qed.

(** When every marker directory has a configuration already, the loop
    changes no configuration. *)
Lemma fold_fixed (pm : t E) uris (cfgs : gmap string Config) (rd : gset string) :
  (∀ uri, uri ∈ uris → isMarker E pm uri = true →
          is_Some (cfgs !! markerDir E pm uri)) →
  ∃ rd', foldl (createConfigurations_step E pm) (cfgs, rd) uris = (cfgs, rd').
Proof.
  revert rd. induction uris as [|uri uris IH]; intros rd Hall; cbn [foldl].
  - by exists rd.
  - rewrite step_cases. destruct (isMarker E pm uri) eqn:Hm.
    + destruct (Hall uri) as [c Hc]; [left|done|]. rewrite Hc.
      apply IH. intros u Hin. apply Hall. by right.
    + apply IH. intros u Hin. apply Hall. by right.
Qed.

Lemma createConfigurations_includes (pm : t E) :
  configs pm ⊆ configs (createConfigurations E pm).
Proof.
  unfold createConfigurations.
  destruct (foldl _ _ _) as [cfgs rd] eqn:Hfold.
  pose proof (fold_keeps _ _ _ _ _ _ Hfold) as Hsub.
  destruct (negb (bool_decide ("" ∈ rd))); simpl; [|done].
  destruct (bool_decide (is_Some (cfgs !! ""))) eqn:Hc; simpl; [done|].
  apply bool_decide_eq_false in Hc.
  etrans; [exact Hsub|]. apply insert_subseteq.
  destruct (cfgs !! ""); [|done]. exfalso. apply Hc. eauto.
Qed.

Lemma createConfigurations_dom (pm : t E) dir :
  is_Some (configs (createConfigurations E pm) !! dir) ↔
  is_Some (configs pm !! dir) ∨ dir = ""
  ∨ ∃ uri, uri ∈ MemFs.uris (localFs pm) ∧ isMarker E pm uri = true
           ∧ markerDir E pm uri = dir.
Proof.
  destruct (decide (dir = "")) as [->|Hne].
  { split; [by right; left|]. intros _. apply createConfigurations_rooted. }
  unfold createConfigurations.
  destruct (foldl _ _ _) as [cfgs rd] eqn:Hfold.
  pose proof (fold_domain _ _ _ _ _ _ Hfold dir) as Hdom.
  assert (∀ X : gmap string Config, is_Some (cfgs !! dir) ↔ is_Some (X !! dir) →
               (is_Some (X !! dir) ↔
                is_Some (configs pm !! dir) ∨ dir = ""
                ∨ ∃ uri, uri ∈ MemFs.uris (localFs pm) ∧ isMarker E pm uri = true
                         ∧ markerDir E pm uri = dir)) as Hgoal.
  { intros X <-. rewrite Hdom. tauto. }
  destruct (negb (bool_decide ("" ∈ rd)) && negb (bool_decide (is_Some (cfgs !! ""))));
    simpl; apply Hgoal; [|done].
  by rewrite lookup_insert_ne.
Qed.

(** X8. [createConfigurations] never discards or replaces a configuration: all
    the configurations registered before the call are registered, unchanged,
    after it. *)
Theorem createConfigurations_keeps_configurations (pm : t E) :
  configs pm ⊆ configs (createConfigurations E pm).
Proof. apply createConfigurations_includes. Qed.

(** X9. After [createConfigurations] the registered directories are the ones
    registered before, the root directory [""], and the directory of every
    marker file ([tsconfig.json] or [jsconfig.json] outside [node_modules])
    in the in-memory file system; nothing else. *)
Theorem createConfigurations_registers (pm : t E) (dir : string) :
  is_Some (configs (createConfigurations E pm) !! dir) ↔
  is_Some (configs pm !! dir) ∨ dir = ""
  ∨ ∃ uri, uri ∈ MemFs.uris (localFs pm) ∧ isMarker E pm uri = true
           ∧ markerDir E pm uri = dir.
Proof. apply createConfigurations_dom. Qed.

(** X10. Running [createConfigurations] again on an unchanged file system
    changes nothing. *)
Theorem createConfigurations_idempotent (pm : t E) :
  createConfigurations E (createConfigurations E pm) = createConfigurations E pm.
Proof.
  set (pm' := createConfigurations E pm).
  assert (localFs pm' = localFs pm ∧ rootPath pm' = rootPath pm
          ∧ traceModuleResolution pm' = traceModuleResolution pm
          ∧ pm' = set_configs E (configs pm') pm) as (Hfs & Hroot & Htrace & Hpm').
  { subst pm'. unfold createConfigurations.
    destruct (foldl _ _ _) as [cfgs rd].
    by destruct (negb (bool_decide ("" ∈ rd)) && negb (bool_decide (is_Some (cfgs !! "")))). }
  assert (∀ acc uri, createConfigurations_step E pm' acc uri
                     = createConfigurations_step E pm acc uri) as Hstep.
  { intros [cfgs rd] uri. unfold createConfigurations_step, markerConfig.
    by rewrite Hroot, Htrace. }
  unfold createConfigurations at 1. rewrite Hfs.
  assert (∀ uris acc, foldl (createConfigurations_step E pm') acc uris
                      = foldl (createConfigurations_step E pm) acc uris) as Hfold.
  { intros uris. induction uris as [|u uris IH]; intros acc; cbn [foldl]; [done|].
    by rewrite Hstep, IH. }
  rewrite Hfold.
  destruct (fold_fixed pm (MemFs.uris (localFs pm)) (configs pm') ∅) as [rd' ->].
  { intros uri Hin Hm. apply createConfigurations_dom. right. right. by exists uri. }
  assert (bool_decide (is_Some (configs pm' !! "")) = true) as ->.
  { apply bool_decide_eq_true. apply createConfigurations_rooted. }
  rewrite andb_false_r. rewrite Hpm' at 2. by rewrite Hpm' at 1.
Qed.

End ProjectManager_discovery_more.

(** ** Paths on which [getConfiguration] does not return *)

Section ProjectManager_divergence.
Import ProjectManager.
Variable E : Env.t.

Local Abbreviation Config := (ProjectConfiguration.t E).

(** The parent of an absolute path is absolute. *)
Lemma dirname_or_empty_absolute path :
  PosixPath.is_relative path = false →
  PosixPath.is_relative (PosixPath.dirname_or_empty path) = false.
Proof.
  unfold PosixPath.is_relative, PosixPath.dirname_or_empty, PosixPath.dirname.
  cbv zeta. intros Habs. apply negb_false_iff in Habs.
  destruct (decide (String.length path = 0)) as [Hz|_].
  { destruct path; [done|discriminate]. }
  rewrite Habs.
  destruct (PosixPath.dirname_scan _ _ true) as [e|] eqn:Hscan; [|done].
  apply dirname_scan_bound in Hscan as (He1 & _ & _).
  destruct (e =? 1)%nat; simpl; [done|].
  pose proof (get_substring_0 path e He1) as Hget.
  destruct (String.substring 0 e path) as [|c rest]; [by rewrite <- Hget in Habs|].
  simpl in Hget. rewrite <- Hget in Habs. simpl in Habs.
  unfold PosixPath.is_slash in Habs.
  destruct (decide (c = PosixPath.slash)) as [->|]; [|done].
  simpl. done.
Qed.

Lemma absolute_nonempty path : PosixPath.is_relative path = false → path ≠ "".
Proof. by intros H ->. Qed.

Lemma getConfiguration_walk_diverges n (configs : gmap string Config) rootPath dir :
  PosixPath.is_relative dir = false →
  String.length dir ≤ S n →
  Forall (λ d, d ≠ rootPath ∧ configs !! d = None) (parents n dir) →
  ∀ fuel, getConfiguration_walk E fuel configs rootPath dir = None.
Proof.
  revert dir. induction n as [|n IH]; intros dir Habs Hlen Hall fuel.
  - assert (dir = "/") as ->.
    { destruct dir as [|c [|c' rest]]; [done| |simpl in Hlen; lia].
      unfold PosixPath.is_relative, PosixPath.is_slash in Habs. simpl in Habs.
      by destruct (decide (c = PosixPath.slash)) as [->|]. }
    apply Forall_cons in Hall as [[Hroot Hnone] _].
    apply getConfiguration_walk_stuck; [congruence|done].
  - simpl in Hall. apply Forall_cons in Hall as [[Hroot Hnone] Hall].
    destruct (decide (dir = "/")) as [->|Hns].
    { apply getConfiguration_walk_stuck; [congruence|done]. }
    assert (∀ fuel', getConfiguration_walk E fuel' configs rootPath
                       (PosixPath.dirname_or_empty dir) = None) as Hparent.
    { apply IH; [by apply dirname_or_empty_absolute| |done].
      pose proof (dirname_or_empty_shorter dir (absolute_nonempty dir Habs) Hns). lia. }
    destruct fuel as [|fuel]; [done|]. simpl.
    destruct (decide (dir = "")) as [->|_]; [done|].
    destruct (decide (dir = rootPath)); [done|].
    rewrite Hnone. apply Hparent.
Qed.

(** X11. For an absolute path none of whose ancestors (the path itself
    included) is the workspace root or a registered directory, the loop of
    [getConfiguration] reaches [/] and stays there: with no amount of fuel
    does the walk end, so [getConfiguration] does not return, and neither
    do [didOpen], [didChange] and [didClose] for that path. *)
Theorem getConfiguration_diverges (pm : t E) (p : string) :
  PosixPath.is_relative p = false →
  Forall (λ d, d ≠ rootPath pm ∧ configs pm !! d = None)
         (parents (String.length p) p) →
  (∀ fuel, getConfiguration_walk E fuel (configs pm) (rootPath pm) p = None)
  ∧ getConfiguration E pm p = None
  ∧ ∀ text, didOpen E p text pm = None ∧ didChange E p text pm = None
            ∧ didClose E p pm = None.
Proof.
  intros Habs Hall.
  assert (∀ (pm' : t E), configs pm' = configs pm → rootPath pm' = rootPath pm →
            ∀ fuel, getConfiguration_walk E fuel (configs pm') (rootPath pm') p = None)
    as Hwalk.
  { intros pm' -> -> fuel.
    apply (getConfiguration_walk_diverges (String.length p)); [done|lia|done]. }
  assert (∀ (pm' : t E), configs pm' = configs pm → rootPath pm' = rootPath pm →
            getConfiguration E pm' p = None) as Hget.
  { intros pm' Hc Hr. unfold getConfiguration. by rewrite Hwalk. }
  split; [by apply Hwalk|]. split; [by apply Hget|].
  intros text. unfold didOpen, didChange, didClose.
  rewrite !Hget by done. done.
Qed.

End ProjectManager_divergence.

Lemma getConfiguration_diverges_witness :
  let p := "/other/y.ts" in
  PosixPath.is_relative p = false
  ∧ ProjectManager.getConfiguration exampleEnv exampleWorkspaceManager p = None
  ∧ ProjectManager.didChange exampleEnv p "x" exampleWorkspaceManager = None.
Proof.
  intros p. split; [reflexivity|].
  destruct (getConfiguration_diverges exampleEnv exampleWorkspaceManager p)
    as (_ & Hget & Hdid).
  - reflexivity.
  - vm_compute parents.
    repeat (apply Forall_cons; split; [split; [discriminate|reflexivity]|]).
    apply Forall_nil_2.
  - split; [exact Hget|]. apply (Hdid "x").
Defined.

(** ** File versions never go down *)

Section Versions_grow.
Import ProjectManager.
Variable E : Env.t.

Local Abbreviation Config := (ProjectConfiguration.t E).

Lemma versionsGrow_refl vs : versionsGrow vs vs.
Proof. intros k. lia. Qed.

Lemma versionsGrow_trans vs1 vs2 vs3 :
  versionsGrow vs1 vs2 → versionsGrow vs2 vs3 → versionsGrow vs1 vs3.
Proof. intros H12 H23 k. specialize (H12 k). specialize (H23 k). lia. Qed.

Lemma getScriptVersion_grows fileName (h : Host.t E) vs :
  versionsGrow vs (Host.getScriptVersion E fileName h vs).2.
Proof.
  unfold Host.getScriptVersion.
  set (f := if Env.isAbsolute E fileName then _ else _).
  destruct (vs !! f) as [[|v]|] eqn:Hf; simpl; [|apply versionsGrow_refl|];
    intros k; (destruct (decide (f = k)) as [<-|Hne];
      [rewrite lookup_insert_eq, Hf; simpl; lia|rewrite lookup_insert_ne by done; lia]).
Qed.

Lemma syncVersions_grows (h : Host.t E) vs : versionsGrow vs (Host.syncVersions E h vs).
Proof.
  unfold Host.syncVersions. generalize (Env.scriptVersionQueries E (Host.filePaths h)).
  intros l. revert vs. induction l as [|f l IH]; intros vs; cbn [foldl].
  - apply versionsGrow_refl.
  - eapply versionsGrow_trans; [apply getScriptVersion_grows|apply IH].
Qed.

Lemma syncProgram_grows disk vs (c : Config) :
  versionsGrow vs (ProjectConfiguration.syncProgram E disk vs c).2.
Proof.
  unfold ProjectConfiguration.syncProgram.
  destruct (ProjectConfiguration.service c); [|apply versionsGrow_refl].
  destruct (ProjectConfiguration.host c); [|apply versionsGrow_refl].
  simpl. apply syncVersions_grows.
Qed.

Lemma init_grows disk vs (c : Config) :
  versionsGrow vs (ProjectConfiguration.init E disk vs c).2.
Proof.
  unfold ProjectConfiguration.init.
  destruct (ProjectConfiguration.initialized c); [apply versionsGrow_refl|].
  unfold ProjectConfiguration.init_executor.
  destruct (ProjectConfiguration.configObject E disk _); [|apply versionsGrow_refl].
  destruct (Env.parseJsonConfigFileContent E _ _ _) as [fileNames options].
  destruct (Env.walkInMemoryFs E _ _); [|apply versionsGrow_refl].
  simpl. apply syncVersions_grows.
Qed.

Lemma materialize_grows wanted disk vs (c : Config) :
  versionsGrow vs (ProjectConfiguration.materialize E wanted disk vs c).2.
Proof.
  unfold ProjectConfiguration.materialize.
  destruct (ProjectConfiguration.host c) as [h|]; [|apply versionsGrow_refl].
  destruct (ProjectConfiguration.program c) as [prog|]; [|apply versionsGrow_refl].
  destruct (ProjectConfiguration.addMissing E wanted prog h) as [h' changed].
  destruct changed; [|apply versionsGrow_refl].
  pose proof (syncProgram_grows disk vs (ProjectConfiguration.set_host E h' c)) as Hs.
  destruct (ProjectConfiguration.syncProgram E disk vs _) as [[r c'] vs']. done.
Qed.

Lemma ensureBasicFiles_grows disk vs (c : Config) :
  versionsGrow vs (ProjectConfiguration.ensureBasicFiles E disk vs c).2.
Proof.
  unfold ProjectConfiguration.ensureBasicFiles.
  destruct (ProjectConfiguration.ensuredBasicFiles c); [apply versionsGrow_refl|].
  pose proof (init_grows disk vs c) as Hi.
  destruct (ProjectConfiguration.init E disk vs c) as [[ready c1] vs1].
  destruct ready as [[]|err]; [|done].
  match goal with |- context [ProjectConfiguration.materialize E ?w disk vs1 c1] =>
    pose proof (materialize_grows w disk vs1 c1) as Hm;
    destruct (ProjectConfiguration.materialize E w disk vs1 c1) as [[r c2] vs2]
  end.
  simpl in *. by eapply versionsGrow_trans.
Qed.

Lemma ensureAllFiles_grows disk vs (c : Config) :
  versionsGrow vs (ProjectConfiguration.ensureAllFiles E disk vs c).2.
Proof.
  unfold ProjectConfiguration.ensureAllFiles.
  destruct (ProjectConfiguration.ensuredAllFiles c); [apply versionsGrow_refl|].
  pose proof (init_grows disk vs c) as Hi.
  destruct (ProjectConfiguration.init E disk vs c) as [[ready c1] vs1].
  destruct ready as [[]|err]; [|done].
  destruct (ProjectConfiguration.host c1) as [h|]; [|done].
  destruct (Host.complete h); [done|].
  pose proof (materialize_grows (λ _, true) disk vs1 c1) as Hm.
  destruct (ProjectConfiguration.materialize E _ disk vs1 c1) as [[r c2] vs2].
  simpl in *.
  destruct r as [b|err]; [destruct (ProjectConfiguration.host c2)|];
    simpl; by eapply versionsGrow_trans.
Qed.

Lemma resync_grows dir (config : Config) (pm : t E) :
  versionsGrow (versions pm) (versions (resync E dir config pm)).
Proof.
  unfold resync, ProjectConfiguration.ensureConfigFile.
  pose proof (init_grows (localFs pm) (versions pm) config) as Hi.
  destruct (ProjectConfiguration.init E (localFs pm) (versions pm) config)
    as [[ready config1] vs1]. simpl in Hi.
  destruct ready as [[]|err]; [|done].
  destruct (ProjectConfiguration.host config1) as [h|]; [|done].
  pose proof (syncProgram_grows (localFs pm) vs1
                (ProjectConfiguration.set_host E (Host.incProjectVersion E h) config1))
    as Hs.
  destruct (ProjectConfiguration.syncProgram E (localFs pm) vs1 _) as [[r config2] vs2].
  simpl in *. by eapply versionsGrow_trans.
Qed.

Lemma bumpVersion_grows p (pm : t E) :
  versionsGrow (versions pm) (versions (bumpVersion E p pm)).
Proof.
  intros k. unfold bumpVersion. simpl.
  destruct (decide (p = k)) as [<-|Hne].
  - rewrite lookup_insert_eq. simpl. lia.
  - rewrite lookup_insert_ne by done. lia.
Qed.

Lemma edit_tail_grows p (pm0 : t E) r pm' :
  match getConfiguration E (bumpVersion E p pm0) p with
  | None => None
  | Some (Throw err) => Some (Throw err, bumpVersion E p pm0)
  | Some (Ok (dir, config)) => Some (Ok (), resync E dir config (bumpVersion E p pm0))
  end = Some (r, pm') →
  versionsGrow (versions pm0) (versions pm').
Proof.
  destruct (getConfiguration E _ p) as [[[dir config]|err]|]; [| |done];
    intros Heq; injection Heq as _ <-.
  - eapply versionsGrow_trans; [apply bumpVersion_grows|apply resync_grows].
  - apply bumpVersion_grows.
Qed.

(** X12. No notification and no [ensure] call ever lowers the version of any
    file: after [didOpen], [didChange], [didClose] or [didSave], and after
    [ensureConfigFile], [ensureBasicFiles], [ensureAllFiles] or
    [syncProgram] of a configuration, every file's version is at least what
    it was (a missing version counts as 0). *)
Theorem versions_never_decrease (pm : t E) (p text : string) (c : Config)
    (disk : MemFs.t) (vs : gmap string N) :
  (∀ r pm', didOpen E p text pm = Some (r, pm') → versionsGrow (versions pm) (versions pm'))
  ∧ (∀ r pm', didChange E p text pm = Some (r, pm') → versionsGrow (versions pm) (versions pm'))
  ∧ (∀ r pm', didClose E p pm = Some (r, pm') → versionsGrow (versions pm) (versions pm'))
  ∧ (∀ r pm', didSave E p pm = Some (r, pm') → versionsGrow (versions pm) (versions pm'))
  ∧ versionsGrow vs (ProjectConfiguration.ensureConfigFile E disk vs c).2
  ∧ versionsGrow vs (ProjectConfiguration.ensureBasicFiles E disk vs c).2
  ∧ versionsGrow vs (ProjectConfiguration.ensureAllFiles E disk vs c).2
  ∧ versionsGrow vs (ProjectConfiguration.syncProgram E disk vs c).2.
Proof.
  split; [|split; [|split; [|split; [|split; [|split; [|split]]]]]].
  - intros r pm'. apply (edit_tail_grows p (set_localFs E _ pm)).
  - intros r pm'. apply (edit_tail_grows p (set_localFs E _ pm)).
  - intros r pm'. apply (edit_tail_grows p (set_localFs E _ pm)).
  - intros r pm' Heq. injection Heq as _ <-. apply versionsGrow_refl.
  - apply init_grows.
  - apply ensureBasicFiles_grows.
  - apply ensureAllFiles_grows.
  - apply syncProgram_grows.
Qed.

(** X13. [getScriptVersion] answers for the key it looks up (the file name,
    made relative to the root when it is absolute): a file without a
    version (or with version 0) gets version 1, a file with a version keeps
    it. The answer is at least 1 and the shared map holds it afterwards
    under that key, with every other key as it was; asking again gives the
    same answer and changes nothing. *)
Theorem getScriptVersion_positive (fileName : string) (h : Host.t E) (vs : gmap string N) :
  let key :=
    if Env.isAbsolute E fileName
    then Env.relative E (Host.rootPath h) (Env.toUnixPath E fileName)
    else fileName in
  let answer := (Host.getScriptVersion E fileName h vs).1 in
  let vs' := (Host.getScriptVersion E fileName h vs).2 in
  answer = match vs !! key with
           | Some (Npos v) => Npos v
           | _ => 1%N
           end
  ∧ vs' !! key = Some answer
  ∧ (∀ k, k ≠ key → vs' !! k = vs !! k)
  ∧ (1 ≤ answer)%N
  ∧ Host.getScriptVersion E fileName h vs' = (answer, vs')
  ∧ versionsGrow vs vs'
  ∧ ∀ k v, vs !! k = Some (Npos v) → vs' !! k = Some (Npos v).
Proof.
  cbv zeta. split; [|split; [|split; [|split; [|split; [|split]]]]].
  - unfold Host.getScriptVersion.
    set (f := if Env.isAbsolute E fileName then _ else _).
    by destruct (vs !! f) as [[|v]|].
  - unfold Host.getScriptVersion.
    set (f := if Env.isAbsolute E fileName then _ else _).
    destruct (vs !! f) as [[|v]|] eqn:Hf; simpl.
    + by rewrite lookup_insert_eq.
    + done.
    + by rewrite lookup_insert_eq.
  - intros k Hk. unfold Host.getScriptVersion.
    set (f := if Env.isAbsolute E fileName then _ else _) in *.
    destruct (vs !! f) as [[|v]|]; simpl; [|done|]; by rewrite lookup_insert_ne.
  - unfold Host.getScriptVersion.
    set (f := if Env.isAbsolute E fileName then _ else _).
    destruct (vs !! f) as [[|v]|]; simpl; lia.
  - unfold Host.getScriptVersion.
    set (f := if Env.isAbsolute E fileName then _ else _).
    destruct (vs !! f) as [[|v]|] eqn:Hf; simpl.
    + by rewrite lookup_insert_eq.
    + by rewrite Hf.
    + by rewrite lookup_insert_eq.
  - apply getScriptVersion_grows.
  - intros k v. apply getScriptVersion_keeps.
Qed.

End Versions_grow.

(** ** [ProjectConfiguration]: what the memoized promises guarantee *)

Section ProjectConfiguration_memo.
Variable E : Env.t.

Local Abbreviation Config := (ProjectConfiguration.t E).

Lemma coherent_create fs rootFilePath versions configFilePath configContent trace :
  coherent E (ProjectConfiguration.create E fs rootFilePath versions configFilePath
                configContent trace).
Proof. by repeat split. Qed.

Lemma coherent_reset (c : Config) : coherent E (ProjectConfiguration.reset E c).
Proof. by repeat split. Qed.

Lemma coherent_syncProgram disk vs (c : Config) :
  coherent E c → coherent E (ProjectConfiguration.syncProgram E disk vs c).1.2.
Proof.
  intros Hc. unfold ProjectConfiguration.syncProgram.
  destruct (ProjectConfiguration.service c) eqn:Hs; [|done].
  destruct (ProjectConfiguration.host c) eqn:Hh; [|done].
  destruct Hc as (Hi & Hb & Ha).
  split; [|split]; simpl; rewrite ?Hs, ?Hh.
  - done.
  - done.
  - intros Hx. destruct (Ha Hx) as [Hy Hc]. by rewrite Hh in Hc.
Qed.

Lemma init_outcome disk vs (c : Config) :
  ProjectConfiguration.initialized (ProjectConfiguration.init E disk vs c).1.2
  = Some (ProjectConfiguration.init E disk vs c).1.1.
Proof.
  unfold ProjectConfiguration.init.
  destruct (ProjectConfiguration.initialized c) eqn:Hi; [done|].
  destruct (ProjectConfiguration.init_executor E disk vs c) as [[outcome c1] vs1].
  done.
Qed.

Lemma coherent_init disk vs (c : Config) :
  coherent E c → coherent E (ProjectConfiguration.init E disk vs c).1.2.
Proof.
  intros Hc. unfold ProjectConfiguration.init.
  destruct (ProjectConfiguration.initialized c) eqn:Hini; [done|].
  destruct Hc as (Hi & Hb & Ha).
  assert (ProjectConfiguration.ensuredBasicFiles c ≠ Some (Ok ())) as Hnb.
  { intros H. specialize (Hb H). congruence. }
  assert (ProjectConfiguration.ensuredAllFiles c ≠ Some (Ok ())) as Hna.
  { intros H. destruct (Ha H). congruence. }
  unfold ProjectConfiguration.init_executor.
  destruct (ProjectConfiguration.configObject E disk _);
    [|by repeat split; simpl].
  destruct (Env.parseJsonConfigFileContent E _ _ _) as [fileNames options].
  destruct (Env.walkInMemoryFs E _ _); by repeat split; simpl.
Qed.

Lemma init_ready disk vs (c : Config) :
  coherent E c →
  (ProjectConfiguration.init E disk vs c).1.1 = Ok () →
  let c' := (ProjectConfiguration.init E disk vs c).1.2 in
  is_Some (ProjectConfiguration.service c')
  ∧ is_Some (ProjectConfiguration.host c')
  ∧ is_Some (ProjectConfiguration.program c').
Proof.
  intros Hc Hok. cbv zeta.
  pose proof (coherent_init disk vs c Hc) as (Hi & _).
  apply Hi. by rewrite init_outcome, Hok.
Qed.

(** The loop shared by the two [ensure] methods, as a filter. *)
Lemma addMissing_fold wanted (prog : Env.program E) (l : list string) (h : Host.t E) b :
  let added := filter (λ f, wanted f && negb (Env.getSourceFile E prog f) = true) l in
  foldl (λ '(h, changed) fileName,
           if wanted fileName && negb (Env.getSourceFile E prog fileName)
           then (Host.addFile E fileName h, true)
           else (h, changed))
        (h, b) l
  = (Host.mk E (Host.complete h) (Host.rootPath h) (Host.options h)
       (Host.expectedFilePaths h) (Host.filePaths h ++ added)
       (Host.projectVersion h + N.of_nat (length added)),
     b || bool_decide (added ≠ [])).
Proof.
  cbv zeta. revert h b. induction l as [|f l IH]; intros h b; cbn [foldl].
  - rewrite filter_nil. simpl. rewrite app_nil_r, N.add_0_r, orb_false_r.
    by destruct h.
  - destruct (wanted f && negb (Env.getSourceFile E prog f)) eqn:Hf.
    + rewrite IH, filter_cons_True by done. simpl.
      rewrite <- app_assoc. simpl. f_equal; [f_equal; lia|by destruct b].
    + rewrite IH, filter_cons_False by (rewrite Hf; done). done.
Qed.

Lemma addMissing_missing wanted (prog : Env.program E) (h : Host.t E) :
  ProjectConfiguration.addMissing E wanted prog h
  = (Host.mk E (Host.complete h) (Host.rootPath h) (Host.options h)
       (Host.expectedFilePaths h) (Host.filePaths h ++ missing E wanted prog h)
       (Host.projectVersion h + N.of_nat (length (missing E wanted prog h))),
     bool_decide (missing E wanted prog h ≠ [])).
Proof.
  unfold ProjectConfiguration.addMissing, missing. by rewrite addMissing_fold.
Qed.

Lemma materialize_ready wanted disk vs (c : Config) h prog :
  is_Some (ProjectConfiguration.service c) →
  ProjectConfiguration.host c = Some h →
  ProjectConfiguration.program c = Some prog →
  let added := missing E wanted prog h in
  let h' := Host.mk E (Host.complete h) (Host.rootPath h) (Host.options h)
              (Host.expectedFilePaths h) (Host.filePaths h ++ added)
              (Host.projectVersion h + N.of_nat (length added)) in
  let c' := (ProjectConfiguration.materialize E wanted disk vs c).1.2 in
  (ProjectConfiguration.materialize E wanted disk vs c).1.1
    = Ok (bool_decide (added ≠ []))
  ∧ ProjectConfiguration.host c' = Some h'
  ∧ ProjectConfiguration.service c' = ProjectConfiguration.service c
  ∧ ProjectConfiguration.program c'
    = (if bool_decide (added ≠ []) then Some (Host.getProgram E h' disk) else Some prog)
  ∧ ProjectConfiguration.initialized c' = ProjectConfiguration.initialized c
  ∧ ProjectConfiguration.ensuredBasicFiles c' = ProjectConfiguration.ensuredBasicFiles c
  ∧ ProjectConfiguration.ensuredAllFiles c' = ProjectConfiguration.ensuredAllFiles c
  ∧ ProjectConfiguration.parses c' = ProjectConfiguration.parses c.
Proof.
  intros [s Hs] Hh Hp. cbv zeta. unfold ProjectConfiguration.materialize.
  rewrite Hh, Hp, addMissing_missing.
  destruct (bool_decide (missing E wanted prog h ≠ [])).
  - unfold ProjectConfiguration.syncProgram. simpl. rewrite Hs. by simpl.
  - by simpl.
Qed.

Lemma coherent_ensureBasicFiles disk vs (c : Config) :
  coherent E c →
  coherent E (ProjectConfiguration.ensureBasicFiles E disk vs c).1.2
  ∧ ((ProjectConfiguration.ensureBasicFiles E disk vs c).1.1 = Ok () →
     ProjectConfiguration.initialized
       (ProjectConfiguration.ensureBasicFiles E disk vs c).1.2 = Some (Ok ())).
Proof.
  intros Hc. unfold ProjectConfiguration.ensureBasicFiles.
  destruct (ProjectConfiguration.ensuredBasicFiles c) as [outcome|] eqn:Hmemo.
  { simpl. split; [done|]. intros ->. destruct Hc as (_ & Hb & _). by apply Hb. }
  pose proof (coherent_init disk vs c Hc) as Hc1.
  pose proof (init_outcome disk vs c) as Hini.
  destruct (ProjectConfiguration.init E disk vs c) as [[ready c1] vs1].
  simpl in Hc1, Hini. destruct ready as [[]|err].
  2:{ simpl. split; [|done]. destruct Hc1 as (Hi & Hb & Ha). by split; [|split]. }
  destruct Hc1 as (Hi & Hb & Ha).
  destruct (Hi Hini) as (Hs & [h Hh] & [prog Hp]).
  match goal with |- context [ProjectConfiguration.materialize E ?w disk vs1 c1] =>
    pose proof (materialize_ready w disk vs1 c1 h prog Hs Hh Hp) as Hm;
    destruct (ProjectConfiguration.materialize E w disk vs1 c1) as [[r c2] vs2]
  end.
  cbv zeta in Hm. simpl in Hm.
  destruct Hm as (-> & Hh2 & Hs2 & Hp2 & Hi2 & Hb2 & Ha2 & _).
  simpl. split; [|congruence].
  split; [|split]; simpl.
  - intros _. rewrite Hs2, Hh2, Hp2. split; [done|]. split; [done|].
    by destruct (bool_decide _).
  - intros _. congruence.
  - rewrite Ha2, Hh2. intros Hx. destruct (Ha Hx) as [_ Hcomplete].
    split; [congruence|]. rewrite Hh in Hcomplete. done.
Qed.

Lemma coherent_ensureAllFiles disk vs (c : Config) :
  coherent E c →
  coherent E (ProjectConfiguration.ensureAllFiles E disk vs c).1.2
  ∧ ((ProjectConfiguration.ensureAllFiles E disk vs c).1.1 = Ok () →
     ProjectConfiguration.initialized
       (ProjectConfiguration.ensureAllFiles E disk vs c).1.2 = Some (Ok ())).
Proof.
  intros Hc. unfold ProjectConfiguration.ensureAllFiles.
  destruct (ProjectConfiguration.ensuredAllFiles c) as [outcome|] eqn:Hmemo.
  { simpl. split; [done|]. intros ->. destruct Hc as (_ & _ & Ha). by destruct (Ha Hmemo). }
  pose proof (coherent_init disk vs c Hc) as Hc1.
  pose proof (init_outcome disk vs c) as Hini.
  destruct (ProjectConfiguration.init E disk vs c) as [[ready c1] vs1].
  simpl in Hc1, Hini. destruct ready as [[]|err].
  2:{ simpl. split; [|done]. destruct Hc1 as (Hi & Hb & Ha). by split; [|split]. }
  destruct Hc1 as (Hi & Hb & Ha).
  destruct (Hi Hini) as (Hs & [h Hh] & [prog Hp]).
  rewrite Hh. destruct (Host.complete h) eqn:Hcomplete.
  { simpl. split; [|done]. split; [|split]; simpl; [done|done|].
    intros _. by rewrite Hh, Hini; simpl; rewrite Hcomplete. }
  pose proof (materialize_ready (λ _, true) disk vs1 c1 h prog Hs Hh Hp) as Hm.
  destruct (ProjectConfiguration.materialize E _ disk vs1 c1) as [[r c2] vs2].
  cbv zeta in Hm. simpl in Hm.
  destruct Hm as (-> & Hh2 & Hs2 & Hp2 & Hi2 & Hb2 & Ha2 & _).
  rewrite Hh2. simpl. split; [|congruence].
  split; [|split]; simpl.
  - intros _. rewrite Hs2, Hp2. split; [done|]. split; [done|].
    by destruct (bool_decide _).
  - intros _. congruence.
  - intros _. split; [congruence|done].
Qed.

Lemma coherent_perform (st : Config * gmap string N) k :
  coherent E st.1 → coherent E (perform E st k).1.
Proof.
  destruct st as [c vs], k as [disk []]; simpl; intros Hc.
  - pose proof (coherent_init disk vs c Hc) as H.
    unfold ProjectConfiguration.ensureConfigFile.
    by destruct (ProjectConfiguration.init E disk vs c) as [[r c1] vs1].
  - pose proof (coherent_ensureBasicFiles disk vs c Hc) as [H _].
    by destruct (ProjectConfiguration.ensureBasicFiles E disk vs c) as [[r c1] vs1].
  - pose proof (coherent_ensureAllFiles disk vs c Hc) as [H _].
    by destruct (ProjectConfiguration.ensureAllFiles E disk vs c) as [[r c1] vs1].
  - pose proof (coherent_syncProgram disk vs c Hc) as H.
    by destruct (ProjectConfiguration.syncProgram E disk vs c) as [[r c1] vs1].
  - apply coherent_reset.
Qed.

Lemma coherent_performAll ks (st : Config * gmap string N) :
  coherent E st.1 → coherent E (performAll E ks st).1.
Proof.
  unfold performAll. revert st. induction ks as [|k ks IH]; intros st Hc; cbn [foldl].
  - done.
  - apply IH. by apply coherent_perform.
Qed.

(** X14. Whatever calls were made on a configuration since it was
    constructed - [ensureConfigFile], [ensureBasicFiles], [ensureAllFiles],
    [syncProgram] and [reset], in any order and against any state of the
    file system - a call of one of the three [ensure] methods that succeeds
    leaves it with its host, service and program: [getHost()],
    [getService()] and [getProgram()] then return instead of throwing
    "project is uninitialized". *)
Theorem ensure_makes_getters_safe fs rootFilePath versions configFilePath
    configContent trace (ks : list (MemFs.t * call)) (vs : gmap string N)
    (disk : MemFs.t) :
  let st := performAll E ks
              (ProjectConfiguration.create E fs rootFilePath versions
                 configFilePath configContent trace, vs) in
  ((ProjectConfiguration.ensureConfigFile E disk st.2 st.1).1.1 = Ok () →
   gettersReturn E (ProjectConfiguration.ensureConfigFile E disk st.2 st.1).1.2)
  ∧ ((ProjectConfiguration.ensureBasicFiles E disk st.2 st.1).1.1 = Ok () →
     gettersReturn E (ProjectConfiguration.ensureBasicFiles E disk st.2 st.1).1.2)
  ∧ ((ProjectConfiguration.ensureAllFiles E disk st.2 st.1).1.1 = Ok () →
     gettersReturn E (ProjectConfiguration.ensureAllFiles E disk st.2 st.1).1.2).
Proof.
  cbv zeta. set (st := performAll E ks _).
  assert (coherent E st.1) as Hc.
  { apply coherent_performAll. apply coherent_create. }
  assert (∀ c' : Config, coherent E c' →
            ProjectConfiguration.initialized c' = Some (Ok ()) → gettersReturn E c')
    as Hsafe.
  { intros c' (Hi & _) Hini. destruct (Hi Hini) as ([s Hs] & [h Hh] & [p Hp]).
    unfold gettersReturn, ProjectConfiguration.getHost, ProjectConfiguration.getService,
      ProjectConfiguration.getProgram.
    rewrite Hs, Hh, Hp. repeat split; eauto. }
  split; [|split]; intros Hok; apply Hsafe.
  - by apply coherent_init.
  - unfold ProjectConfiguration.ensureConfigFile in *. by rewrite init_outcome, Hok.
  - by apply coherent_ensureBasicFiles.
  - by apply coherent_ensureBasicFiles.
  - by apply coherent_ensureAllFiles.
  - by apply coherent_ensureAllFiles.
Qed.

Lemma init_budget disk vs (c : Config) :
  let c' := (ProjectConfiguration.init E disk vs c).1.2 in
  ProjectConfiguration.parses c ≤ ProjectConfiguration.parses c'
  ∧ parseBudget E c' ≤ parseBudget E c
  ∧ ProjectConfiguration.ensuredBasicFiles c' = ProjectConfiguration.ensuredBasicFiles c
  ∧ ProjectConfiguration.ensuredAllFiles c' = ProjectConfiguration.ensuredAllFiles c.
Proof.
  cbv zeta. unfold parseBudget, ProjectConfiguration.init.
  destruct (ProjectConfiguration.initialized c) eqn:Hini.
  { simpl. rewrite Hini. repeat split; lia. }
  unfold ProjectConfiguration.init_executor.
  destruct (ProjectConfiguration.configObject E disk _);
    [|simpl; repeat split; lia].
  destruct (Env.parseJsonConfigFileContent E _ _ _) as [fileNames options].
  destruct (Env.walkInMemoryFs E _ _); simpl; repeat split; lia.
Qed.

Lemma syncProgram_budget disk vs (c : Config) :
  let c' := (ProjectConfiguration.syncProgram E disk vs c).1.2 in
  ProjectConfiguration.parses c' = ProjectConfiguration.parses c
  ∧ ProjectConfiguration.initialized c' = ProjectConfiguration.initialized c.
Proof.
  cbv zeta. unfold ProjectConfiguration.syncProgram.
  destruct (ProjectConfiguration.service c); [|done].
  by destruct (ProjectConfiguration.host c).
Qed.

Lemma materialize_budget wanted disk vs (c : Config) :
  let c' := (ProjectConfiguration.materialize E wanted disk vs c).1.2 in
  ProjectConfiguration.parses c' = ProjectConfiguration.parses c
  ∧ ProjectConfiguration.initialized c' = ProjectConfiguration.initialized c.
Proof.
  cbv zeta. unfold ProjectConfiguration.materialize.
  destruct (ProjectConfiguration.host c) as [h|]; [|done].
  destruct (ProjectConfiguration.program c) as [prog|]; [|done].
  destruct (ProjectConfiguration.addMissing E wanted prog h) as [h' changed].
  destruct changed; [|done].
  pose proof (syncProgram_budget disk vs (ProjectConfiguration.set_host E h' c)) as Hs.
  by destruct (ProjectConfiguration.syncProgram E disk vs _) as [[r c'] vs'].
Qed.

Lemma ensureBasicFiles_budget disk vs (c : Config) :
  let c' := (ProjectConfiguration.ensureBasicFiles E disk vs c).1.2 in
  ProjectConfiguration.parses c ≤ ProjectConfiguration.parses c'
  ∧ parseBudget E c' ≤ parseBudget E c.
Proof.
  cbv zeta. unfold ProjectConfiguration.ensureBasicFiles.
  destruct (ProjectConfiguration.ensuredBasicFiles c); [done|].
  pose proof (init_budget disk vs c) as (Hp & Hb & _).
  destruct (ProjectConfiguration.init E disk vs c) as [[ready c1] vs1].
  simpl in Hp, Hb. destruct ready as [[]|err]; [|done].
  match goal with |- context [ProjectConfiguration.materialize E ?w disk vs1 c1] =>
    pose proof (materialize_budget w disk vs1 c1) as [Hm1 Hm2];
    destruct (ProjectConfiguration.materialize E w disk vs1 c1) as [[r c2] vs2]
  end.
  simpl in *. unfold parseBudget in *. simpl. rewrite Hm1, Hm2. lia.
Qed.

Lemma ensureAllFiles_budget disk vs (c : Config) :
  let c' := (ProjectConfiguration.ensureAllFiles E disk vs c).1.2 in
  ProjectConfiguration.parses c ≤ ProjectConfiguration.parses c'
  ∧ parseBudget E c' ≤ parseBudget E c.
Proof.
  cbv zeta. unfold ProjectConfiguration.ensureAllFiles.
  destruct (ProjectConfiguration.ensuredAllFiles c); [done|].
  pose proof (init_budget disk vs c) as (Hp & Hb & _).
  destruct (ProjectConfiguration.init E disk vs c) as [[ready c1] vs1].
  simpl in Hp, Hb. destruct ready as [[]|err]; [|done].
  destruct (ProjectConfiguration.host c1) as [h|]; [|done].
  destruct (Host.complete h); [done|].
  pose proof (materialize_budget (λ _, true) disk vs1 c1) as [Hm1 Hm2].
  destruct (ProjectConfiguration.materialize E _ disk vs1 c1) as [[r c2] vs2].
  simpl in *. unfold parseBudget in *.
  destruct r as [b|err]; [destruct (ProjectConfiguration.host c2)|];
    simpl; rewrite Hm1, Hm2; lia.
Qed.

Lemma perform_budget (st : Config * gmap string N) k :
  let reset := match k.2 with Reset => 1 | _ => 0 end in
  ProjectConfiguration.parses st.1 ≤ ProjectConfiguration.parses (perform E st k).1
  ∧ parseBudget E (perform E st k).1 ≤ parseBudget E st.1 + reset.
Proof.
  destruct st as [c vs], k as [disk []]; simpl.
  - pose proof (init_budget disk vs c) as (H1 & H2 & _).
    unfold ProjectConfiguration.ensureConfigFile.
    destruct (ProjectConfiguration.init E disk vs c) as [[r c1] vs1]. simpl in *. lia.
  - pose proof (ensureBasicFiles_budget disk vs c) as (H1 & H2).
    destruct (ProjectConfiguration.ensureBasicFiles E disk vs c) as [[r c1] vs1].
    simpl in *. lia.
  - pose proof (ensureAllFiles_budget disk vs c) as (H1 & H2).
    destruct (ProjectConfiguration.ensureAllFiles E disk vs c) as [[r c1] vs1].
    simpl in *. lia.
  - pose proof (syncProgram_budget disk vs c) as (H1 & H2).
    destruct (ProjectConfiguration.syncProgram E disk vs c) as [[r c1] vs1].
    simpl in *. unfold parseBudget. rewrite H1, H2. lia.
  - unfold parseBudget. simpl. lia.
Qed.

Lemma performAll_budget ks (st : Config * gmap string N) :
  ProjectConfiguration.parses st.1 ≤ ProjectConfiguration.parses (performAll E ks st).1
  ∧ parseBudget E (performAll E ks st).1 ≤ parseBudget E st.1 + resets ks.
Proof.
  unfold performAll. revert st.
  induction ks as [|k ks IH]; intros st; cbn [foldl].
  - unfold resets. simpl. lia.
  - pose proof (perform_budget st k) as [H1 H2]. cbv zeta in H2.
    destruct (IH (perform E st k)) as [H3 H4].
    change (resets (k :: ks))
      with (match k.2 with Reset => 1 | _ => 0 end + resets ks). lia.
Qed.

(** X15. The configuration source is parsed at most once between two
    [reset()]s: over any sequence of calls of [ensureConfigFile],
    [ensureBasicFiles], [ensureAllFiles], [syncProgram] and [reset] (each
    run to completion before the next) the executor of [init] runs at most
    once more than there are resets, whether or not it succeeded; and once
    [initialized] is set, a sequence without [reset] never runs it again. *)
Theorem init_runs_once_between_resets (ks : list (MemFs.t * call)) (c : Config)
    (vs : gmap string N) :
  let c' := (performAll E ks (c, vs)).1 in
  ProjectConfiguration.parses c' ≤ ProjectConfiguration.parses c + 1 + resets ks
  ∧ (is_Some (ProjectConfiguration.initialized c) → resets ks = 0 →
     ProjectConfiguration.parses c' = ProjectConfiguration.parses c).
Proof.
  cbv zeta. pose proof (performAll_budget ks (c, vs)) as [H1 H2]. simpl in H1, H2.
  unfold parseBudget in H2. split.
  - destruct (ProjectConfiguration.initialized (performAll E ks (c, vs)).1),
      (ProjectConfiguration.initialized c); lia.
  - intros [o Ho] Hr. rewrite Ho in H2.
    destruct (ProjectConfiguration.initialized (performAll E ks (c, vs)).1); lia.
Qed.

(** X16. [ensureBasicFiles], called for the first time on a configuration
    that [init] makes ready with host [h] and program [prog], succeeds and
    adds to the host exactly the expected files that are basic (a global
    file, or a declaration file outside the dependencies) and have no source
    file in [prog] - in the order of [expectedFilePaths], after the files
    the host had, one step of the project version per file. The program is
    requeried only when a file was added, and the outcome is memoized. *)
Theorem ensureBasicFiles_adds_basic_files (disk : MemFs.t) (vs : gmap string N)
    (c : Config) (h : Host.t E) (prog : Env.program E) :
  ProjectConfiguration.ensuredBasicFiles c = None →
  (ProjectConfiguration.init E disk vs c).1.1 = Ok () →
  is_Some (ProjectConfiguration.service (ProjectConfiguration.init E disk vs c).1.2) →
  ProjectConfiguration.host (ProjectConfiguration.init E disk vs c).1.2 = Some h →
  ProjectConfiguration.program (ProjectConfiguration.init E disk vs c).1.2 = Some prog →
  let added := missing E (isBasicFile E) prog h in
  let c' := (ProjectConfiguration.ensureBasicFiles E disk vs c).1.2 in
  (ProjectConfiguration.ensureBasicFiles E disk vs c).1.1 = Ok ()
  ∧ Host.filePaths <$> ProjectConfiguration.host c' = Some (Host.filePaths h ++ added)
  ∧ Host.projectVersion <$> ProjectConfiguration.host c'
    = Some (Host.projectVersion h + N.of_nat (length added))%N
  ∧ (added = [] → ProjectConfiguration.program c' = Some prog)
  ∧ ProjectConfiguration.ensuredBasicFiles c' = Some (Ok ())
  ∧ (∀ f, f ∈ added ↔
          f ∈ Host.expectedFilePaths h ∧ isBasicFile E f = true
          ∧ Env.getSourceFile E prog f = false).
Proof.
  intros Hmemo Hok Hs Hh Hp. cbv zeta.
  unfold ProjectConfiguration.ensureBasicFiles. rewrite Hmemo.
  destruct (ProjectConfiguration.init E disk vs c) as [[ready c1] vs1].
  simpl in Hok, Hs, Hh, Hp. subst ready.
  pose proof (materialize_ready (isBasicFile E) disk vs1 c1 h prog Hs Hh Hp) as Hm.
  match goal with |- context [ProjectConfiguration.materialize E ?w disk vs1 c1] =>
    change w with (isBasicFile E)
  end.
  destruct (ProjectConfiguration.materialize E _ disk vs1 c1) as [[r c2] vs2].
  cbv zeta in Hm. simpl in Hm.
  destruct Hm as (-> & Hh2 & Hs2 & Hp2 & Hi2 & Hb2 & Ha2 & _).
  simpl. rewrite Hh2. simpl.
  split; [done|]. split; [done|]. split; [done|]. split; [|split; [done|]].
  - intros Hnone. rewrite Hp2. by rewrite Hnone.
  - intros f. unfold missing. rewrite list_elem_of_filter.
    rewrite andb_true_iff, negb_true_iff. tauto.
Qed.

(** X17. [ensureAllFiles], called for the first time on a configuration
    that [init] makes ready with a host [h] not yet complete and program
    [prog], succeeds, adds every expected file that has no source file in
    [prog], and marks the host complete: afterwards every expected file is
    one of the host's files or was in the program already. On a host that
    is complete it adds nothing. *)
Theorem ensureAllFiles_completes_host (disk : MemFs.t) (vs : gmap string N)
    (c : Config) (h : Host.t E) (prog : Env.program E) :
  ProjectConfiguration.ensuredAllFiles c = None →
  (ProjectConfiguration.init E disk vs c).1.1 = Ok () →
  is_Some (ProjectConfiguration.service (ProjectConfiguration.init E disk vs c).1.2) →
  ProjectConfiguration.host (ProjectConfiguration.init E disk vs c).1.2 = Some h →
  ProjectConfiguration.program (ProjectConfiguration.init E disk vs c).1.2 = Some prog →
  let added := missing E (λ _, true) prog h in
  let c' := (ProjectConfiguration.ensureAllFiles E disk vs c).1.2 in
  (ProjectConfiguration.ensureAllFiles E disk vs c).1.1 = Ok ()
  ∧ ProjectConfiguration.ensuredAllFiles c' = Some (Ok ())
  ∧ (Host.complete h = true → ProjectConfiguration.host c' = Some h)
  ∧ (Host.complete h = false →
     Host.complete <$> ProjectConfiguration.host c' = Some true
     ∧ Host.filePaths <$> ProjectConfiguration.host c' = Some (Host.filePaths h ++ added)
     ∧ ∀ f, f ∈ Host.expectedFilePaths h →
            Env.getSourceFile E prog f = true ∨ f ∈ Host.filePaths h ++ added).
Proof.
  intros Hmemo Hok Hs Hh Hp. cbv zeta.
  unfold ProjectConfiguration.ensureAllFiles. rewrite Hmemo.
  destruct (ProjectConfiguration.init E disk vs c) as [[ready c1] vs1].
  simpl in Hok, Hs, Hh, Hp. subst ready. rewrite Hh.
  destruct (Host.complete h) eqn:Hcomplete.
  { simpl. by repeat split. }
  pose proof (materialize_ready (λ _, true) disk vs1 c1 h prog Hs Hh Hp) as Hm.
  destruct (ProjectConfiguration.materialize E _ disk vs1 c1) as [[r c2] vs2].
  cbv zeta in Hm. simpl in Hm.
  destruct Hm as (-> & Hh2 & Hs2 & Hp2 & Hi2 & Hb2 & Ha2 & _).
  rewrite Hh2. simpl. repeat split; try done.
  intros f Hin. destruct (Env.getSourceFile E prog f) eqn:Hsrc; [by left|right].
  apply elem_of_app. right. unfold missing. apply list_elem_of_filter.
  split; [|done]. by rewrite Hsrc.
Qed.

End ProjectConfiguration_memo.

Lemma ensureBasicFiles_adds_basic_files_witness :
  Host.filePaths <$> ProjectConfiguration.host
    (ProjectConfiguration.ensureBasicFiles exampleListingEnv exampleTypedDisk ∅
       exampleTypedConfig).1.2
  = Some ["types.d.ts"].
Proof.
  refine (proj1 (proj2
    (ensureBasicFiles_adds_basic_files exampleListingEnv exampleTypedDisk ∅
       exampleTypedConfig exampleTypedHost [] _ _ _ _ _)));
    [vm_compute; reflexivity | vm_compute; reflexivity
    | eexists; vm_compute; reflexivity
    | vm_compute; reflexivity | vm_compute; reflexivity].
Defined.

Lemma ensureAllFiles_completes_host_witness :
  Host.filePaths <$> ProjectConfiguration.host
    (ProjectConfiguration.ensureAllFiles exampleListingEnv exampleTypedDisk ∅
       exampleTypedConfig).1.2
  = Some ["main.ts"; "tsconfig.json"; "types.d.ts"].
Proof.
  refine (proj1 (proj2 (proj2 (proj2 (proj2
    (ensureAllFiles_completes_host exampleListingEnv exampleTypedDisk ∅
       exampleTypedConfig exampleTypedHost [] _ _ _ _ _))) eq_refl)));
    [vm_compute; reflexivity | vm_compute; reflexivity
    | eexists; vm_compute; reflexivity
    | vm_compute; reflexivity | vm_compute; reflexivity].
Defined.

(** ** The [seen] set of the dependency crawl *)

Section ProjectManager_crawl_log.
Import ProjectManager.
Variable E : Env.t.
Variable remote : string → res string.

Lemma continues_trans (w0 w1 w2 : Crawl E) new1 new2 :
  continues E w0 w1 new1 → continues E w1 w2 new2 → continues E w0 w2 (new2 ++ new1).
Proof.
  intros [Hv1 Hs1] [Hv2 Hs2]. split.
  - by rewrite Hv2, Hv1, app_assoc.
  - by rewrite Hs2, Hs1, list_to_set_app_L, (assoc_L (∪)).
Qed.

Lemma crawl_children_stuck (f : string → Crawl E → option (res () * Crawl E)) l :
  foldl (λ acc importPath,
           match acc with
           | None => None
           | Some w => match f importPath w with
                       | None => None
                       | Some (_, w') => Some w'
                       end
           end) None l = None.
Proof. by induction l. Qed.

Lemma crawl_children_log (f : string → Crawl E → option (res () * Crawl E)) :
  (∀ uri w r w', f uri w = Some (r, w') → ∃ new, continues E w w' new) →
  ∀ importPaths w w',
    foldl (λ acc importPath,
             match acc with
             | None => None
             | Some w => match f importPath w with
                         | None => None
                         | Some (_, w') => Some w'
                         end
             end) (Some w) importPaths = Some w' →
    ∃ new, continues E w w' new.
Proof.
  intros Hf importPaths. induction importPaths as [|uri l IH]; intros w w'; cbn [foldl].
  - intros [= <-]. exists []. split; [done|]. simpl. by rewrite (left_id_L ∅ (∪)).
  - destruct (f uri w) as [[r w1]|] eqn:Hcall.
    + intros Hrest. destruct (Hf _ _ _ _ Hcall) as [new1 H1].
      destruct (IH _ _ Hrest) as [new2 H2].
      exists (new2 ++ new1). by eapply continues_trans.
    + by rewrite crawl_children_stuck.
Qed.

Lemma crawl_log maxDepth uri (w : Crawl E) r w' :
  ensureTransitiveFileDependencies E remote maxDepth uri w = Some (r, w') →
  ∃ later, continues E w w' (later ++ [uri]).
Proof.
  assert (∀ pm rest, continues E w
            (mkCrawl E pm ({[uri]} ∪ seen w) (uri :: visits w) rest) ([] ++ [uri]))
    as Hentry.
  { intros pm rest. split; simpl; [done|]. by rewrite (right_id_L ∅ (∪)). }
  revert uri w r w' Hentry. induction maxDepth as [|depth IH]; intros uri w r w' Hentry.
  - simpl. destruct (awaitEnsure remote uri (updater (manager w))) as [[[]|err] u];
      intros [= <- <-]; exists []; apply Hentry.
  - cbn [ensureTransitiveFileDependencies manager seen visits expansions set_manager].
    destruct (awaitEnsure remote uri (updater (manager w))) as [[[]|err] u];
      [|intros [= <- <-]; exists []; apply Hentry].
    cbn [manager seen visits expansions set_manager].
    destruct (getConfiguration E (set_updater E u (manager w)) (Env.uri2path E uri))
      as [[[dir config]|err]|]; [|intros [= <- <-]; exists []; apply Hentry|done].
    destruct (ProjectConfiguration.ensureBasicFiles E _ _ config) as [[basic config1] vs].
    cbn [manager seen visits expansions set_manager].
    destruct basic as [[]|err]; [|intros [= <- <-]; exists []; apply Hentry].
    destruct (MemFs.getContent uri _) as [contents|err];
      [|intros [= <- <-]; exists []; apply Hentry].
    destruct (ProjectConfiguration.getHost E config1) as [h|err];
      [|intros [= <- <-]; exists []; apply Hentry].
    cbn [manager seen visits expansions set_manager].
    match goal with
    | |- match foldl ?step (Some ?a) ?l with _ => _ end = _ → _ =>
        pose proof (crawl_children_log
                      (ensureTransitiveFileDependencies E remote depth)) as Hfold;
        destruct (foldl step (Some a) l) as [w1|] eqn:Hchildren; [|done]
    end.
    intros [= <- <-].
    destruct (Hfold) with (2 := Hchildren) as [new Hnew].
    { intros uri' w0 r0 w0' Hcall.
      destruct (IH uri' w0 r0 w0') as [later Hlater]; [|done|by eexists].
      intros pm rest. split; simpl; [done|]. by rewrite (right_id_L ∅ (∪)). }
    exists new. rewrite <- (app_nil_l [uri]), app_assoc, app_nil_r.
    eapply continues_trans; [apply Hentry|apply Hnew].
Qed.

(** X18. The [seen] set of [ensureTransitiveFileDependencies] is written
    and never read. Started with two different [seen] sets on otherwise
    equal states, the call does the same: both return or neither does, with
    the same outcome, the same manager and the same calls of itself. And
    all the call does to [seen] is add the [uri]s it was called with, its
    own first: the visits it adds to the log are [new], ending with [uri],
    and [seen] grows by exactly these. *)
Theorem seen_is_write_only (maxDepth : nat) (uri : string) (pm : t E)
    (seen1 seen2 : gset string) (visited expanded : list string) :
  match ensureTransitiveFileDependencies E remote maxDepth uri
          (mkCrawl E pm seen1 visited expanded),
        ensureTransitiveFileDependencies E remote maxDepth uri
          (mkCrawl E pm seen2 visited expanded) with
  | Some (r1, w1), Some (r2, w2) =>
      r1 = r2 ∧ manager w1 = manager w2 ∧ expansions w1 = expansions w2
      ∧ ∃ new, last new = Some uri
               ∧ visits w1 = new ++ visited ∧ visits w2 = new ++ visited
               ∧ seen w1 = list_to_set new ∪ seen1
               ∧ seen w2 = list_to_set new ∪ seen2
  | None, None => True
  | _, _ => False
  end.
Proof.
  pose proof (crawl_ignores_seen E remote maxDepth uri
                (mkCrawl E pm seen1 visited expanded)
                (mkCrawl E pm seen2 visited expanded)) as Halike.
  unfold alike_result, alike in Halike.
  destruct (ensureTransitiveFileDependencies E remote maxDepth uri
              (mkCrawl E pm seen1 visited expanded)) as [[r1 w1]|] eqn:H1;
    destruct (ensureTransitiveFileDependencies E remote maxDepth uri
                (mkCrawl E pm seen2 visited expanded)) as [[r2 w2]|] eqn:H2;
    try (by apply Halike).
  destruct Halike as (-> & Hm & Hv & He); [done|].
  split; [done|]. split; [done|]. split; [done|].
  destruct (crawl_log _ _ _ _ _ H1) as [later1 [Hv1 Hs1]].
  destruct (crawl_log _ _ _ _ _ H2) as [later2 [Hv2 Hs2]].
  simpl in Hv1, Hs1, Hv2, Hs2.
  assert (later2 = later1) as ->.
  { rewrite Hv1, Hv2 in Hv. apply app_inv_tail in Hv. by apply app_inj_tail in Hv as [-> _]. }
  exists (later1 ++ [uri]). by rewrite last_snoc.
Qed.

End ProjectManager_crawl_log.

(** ** [ensureFiles]: every listed file is fetched or left for a retry *)

Section ProjectManager_ensureFiles.
Import FileSystemUpdater.
Variable E : Env.t.
Variable path2uri : string → string → string.
Variable remote : string → res string.

Lemma reply_all_idle (u : FileSystemUpdater.t) :
  running u = [] → ProjectManager.reply_all remote u = u.
Proof. unfold ProjectManager.reply_all. by intros ->. Qed.

(** One turn of [drain] on an updater with nothing running: the oldest
    waiting body is let in, asks the remote and takes its answer. *)
Lemma drain_turn (u : FileSystemUpdater.t) promise uri rest :
  waiting u = (promise, uri) :: rest → running u = [] →
  let u' := match start u with
            | Some u' => ProjectManager.reply_all remote u'
            | None => u
            end in
  waiting u' = rest ∧ running u' = []
  ∧ inMemoryFs u'
    = match remote uri with
      | Ok content => MemFs.add uri (Some content) (inMemoryFs u)
      | Throw _ => inMemoryFs u
      end
  ∧ fetches u'
    = match remote uri with
      | Ok _ => fetches u
      | Throw _ => delete uri (fetches u)
      end.
Proof.
  intros Hw Hr. cbv zeta. unfold start. rewrite Hw, Hr.
  destruct (decide (length ([] : list (nat * string)) < concurrencyLimit)) as [_|Hn];
    [|exfalso; apply Hn; unfold concurrencyLimit; simpl; lia].
  unfold ProjectManager.reply_all. simpl.
  unfold content_reply. simpl.
  destruct (decide (promise = promise)) as [_|Hne]; [|done].
  destruct (remote uri) as [content|err]; simpl.
  - rewrite getContent_add. by simpl.
  - done.
Qed.

Lemma drain_turns (W : list (nat * string)) : ∀ u : FileSystemUpdater.t,
  waiting u = W → running u = [] →
  let u' := foldl (λ u _, match start u with
                          | Some u' => ProjectManager.reply_all remote u'
                          | None => u
                          end) u W in
  waiting u' = [] ∧ running u' = []
  ∧ (∀ uri text, remote uri = Ok text →
       uri ∈ W.*2 ∨ MemFs.getContent uri (inMemoryFs u) = Ok text →
       MemFs.getContent uri (inMemoryFs u') = Ok text)
  ∧ (∀ uri text, remote uri = Ok text → fetches u' !! uri = fetches u !! uri)
  ∧ (∀ uri err, remote uri = Throw err →
       uri ∈ W.*2 ∨ fetches u !! uri = None → fetches u' !! uri = None).
Proof.
  induction W as [|[promise uri0] rest IH]; intros u Hw Hr; cbv zeta; cbn [foldl].
  - split; [done|]. split; [done|]. split; [|split].
    + intros uri text _ [Hin|H]; [by apply elem_of_nil in Hin|done].
    + done.
    + intros uri err _ [Hin|H]; [by apply elem_of_nil in Hin|done].
  - destruct (drain_turn u promise uri0 rest Hw Hr) as (Hw1 & Hr1 & Hfs1 & Hf1).
    set (u1 := match start u with
               | Some u' => ProjectManager.reply_all remote u'
               | None => u
               end) in *.
    destruct (IH u1 Hw1 Hr1) as (Hw2 & Hr2 & Hfs2 & Hok2 & Hf2).
    split; [done|]. split; [done|]. split; [|split].
    + intros uri text Huri Hcase. apply (Hfs2 uri text Huri).
      destruct (decide (uri = uri0)) as [->|Hne].
      * right. rewrite Hfs1, Huri. apply getContent_add.
      * destruct Hcase as [Hin|Hhave].
        -- left. rewrite fmap_cons, elem_of_cons in Hin. by destruct Hin.
        -- right. rewrite Hfs1. destruct (remote uri0); [|done].
           unfold MemFs.getContent, MemFs.add in *. simpl.
           by rewrite lookup_insert_ne.
    + intros uri text Huri. rewrite (Hok2 uri text Huri), Hf1.
      destruct (remote uri0) as [content|err] eqn:H0; [done|].
      rewrite lookup_delete_ne; [done|]. intros <-. congruence.
    + intros uri err Huri Hcase. apply (Hf2 uri err Huri).
      destruct (decide (uri = uri0)) as [->|Hne].
      * right. rewrite Hf1, Huri. apply lookup_delete_eq.
      * destruct Hcase as [Hin|Hnone].
        -- left. rewrite fmap_cons, elem_of_cons in Hin. by destruct Hin.
        -- right. rewrite Hf1. destruct (remote uri0); [done|].
           by rewrite lookup_delete_ne.
Qed.

(** The calls of [ensure] that [ensureFiles] makes before any answer. *)
Lemma ensure_all (files : list string) : ∀ u : FileSystemUpdater.t,
  let u' := foldl (λ u path, (ensure (path2uri "" path) u).2) u files in
  running u' = running u ∧ inMemoryFs u' = inMemoryFs u
  ∧ (∀ uri, uri ∈ (waiting u).*2 → uri ∈ (waiting u').*2)
  ∧ (∀ uri, is_Some (fetches u !! uri) → is_Some (fetches u' !! uri))
  ∧ (∀ path, path ∈ files → is_Some (fetches u' !! path2uri "" path))
  ∧ (∀ path, path ∈ files → fetches u !! path2uri "" path = None →
       path2uri "" path ∈ (waiting u').*2).
Proof.
  induction files as [|path0 files IH]; intros u; cbv zeta; cbn [foldl].
  - repeat split; try done; intros path Hin; by apply elem_of_nil in Hin.
  - set (u1 := (ensure (path2uri "" path0) u).2).
    assert (running u1 = running u ∧ inMemoryFs u1 = inMemoryFs u
            ∧ (∀ uri, uri ∈ (waiting u).*2 → uri ∈ (waiting u1).*2)
            ∧ (∀ uri, is_Some (fetches u !! uri) → is_Some (fetches u1 !! uri))
            ∧ is_Some (fetches u1 !! path2uri "" path0)
            ∧ (fetches u !! path2uri "" path0 = None →
               path2uri "" path0 ∈ (waiting u1).*2)
            ∧ (∀ uri, uri ≠ path2uri "" path0 →
                 fetches u1 !! uri = fetches u !! uri))
      as (Hr1 & Hfs1 & Hw1 & Hkeep1 & Hnew1 & Hwait1 & Hother1).
    { subst u1. unfold ensure.
      destruct (fetches u !! path2uri "" path0) as [pr|] eqn:Hcached.
      - simpl. rewrite Hcached. by repeat split.
      - destruct (fetch_frame (path2uri "" path0) u)
          as (_ & Hf & Hw & Hr & _ & _ & _ & Hfs & _).
        split; [done|]. split; [done|]. split; [|split; [|split; [|split]]].
        + intros uri Hin. rewrite Hw, fmap_app, elem_of_app. by left.
        + intros uri [pr Hpr]. rewrite Hf.
          destruct (decide (uri = path2uri "" path0)) as [->|Hne]; [congruence|].
          by rewrite lookup_insert_ne.
        + rewrite Hf, lookup_insert_eq. by eexists.
        + intros _. rewrite Hw, fmap_app, elem_of_app. right. simpl.
          apply list_elem_of_singleton. done.
        + intros uri Hne. rewrite Hf. by rewrite lookup_insert_ne. }
    destruct (IH u1) as (Hr2 & Hfs2 & Hw2 & Hkeep2 & Hnew2 & Hwait2).
    split; [congruence|]. split; [congruence|]. split; [|split; [|split]].
    + intros uri Hin. by apply Hw2, Hw1.
    + intros uri Hsome. by apply Hkeep2, Hkeep1.
    + intros path Hin. rewrite elem_of_cons in Hin. destruct Hin as [->|Hin].
      * by apply Hkeep2.
      * by apply Hnew2.
    + intros path Hin Hnone. rewrite elem_of_cons in Hin.
      destruct (decide (path2uri "" path = path2uri "" path0)) as [Heq|Hne].
      * rewrite Heq in *. by apply Hw2, Hwait1.
      * destruct Hin as [->|Hin]; [done|].
        apply Hwait2; [done|]. by rewrite Hother1.
Qed.

(** X19. [ensureFiles(files)] on a manager whose updater has no fetch
    awaiting the remote's answer. When it is over nothing is waiting or
    running. For every listed file that had no entry in [fetches]: if the
    remote file system has its content, the local file system holds that
    content and the fetch stays cached; if the remote fails for it, the
    error is swallowed and [fetches] has no entry for the file, so a later
    [ensure] asks again. Nothing but the updater changes. *)
Theorem ensureFiles_fetches_or_forgets (files : list string) (pm : ProjectManager.t E) :
  running (ProjectManager.updater pm) = [] →
  let pm' := ensureFiles E path2uri remote files pm in
  waiting (ProjectManager.updater pm') = []
  ∧ running (ProjectManager.updater pm') = []
  ∧ ProjectManager.configs pm' = ProjectManager.configs pm
  ∧ ProjectManager.versions pm' = ProjectManager.versions pm
  ∧ ∀ path, path ∈ files →
      fetches (ProjectManager.updater pm) !! path2uri "" path = None →
      match remote (path2uri "" path) with
      | Ok text =>
          MemFs.getContent (path2uri "" path) (ProjectManager.localFs pm') = Ok text
          ∧ is_Some (fetches (ProjectManager.updater pm') !! path2uri "" path)
      | Throw _ => fetches (ProjectManager.updater pm') !! path2uri "" path = None
      end.
Proof.
  intros Hidle. cbv zeta. unfold ensureFiles, ProjectManager.localFs. simpl.
  destruct (ensure_all files (ProjectManager.updater pm))
    as (Hr1 & Hfs1 & Hw1 & Hkeep1 & Hnew1 & Hwait1).
  set (u1 := foldl _ (ProjectManager.updater pm) files) in *.
  assert (running u1 = []) as Hidle1 by congruence.
  unfold ProjectManager.drain. rewrite (reply_all_idle u1 Hidle1).
  destruct (drain_turns (waiting u1) u1 eq_refl Hidle1)
    as (Hw2 & Hr2 & Hfs2 & Hok2 & Hf2).
  split; [done|]. split; [done|]. split; [done|]. split; [done|].
  intros path Hin Hnone.
  destruct (remote (path2uri "" path)) as [text|err] eqn:Hremote.
  - split.
    + apply (Hfs2 _ text Hremote). left. by apply Hwait1.
    + rewrite (Hok2 _ text Hremote). by apply Hnew1.
  - apply (Hf2 _ err Hremote). left. by apply Hwait1.
Qed.

End ProjectManager_ensureFiles.

Lemma ensureFiles_fetches_or_forgets_witness :
  let pm' := ensureFiles exampleEnv (λ _ path, path) exampleCyclicRemote
               ["a.ts"; "c.ts"; "a.ts"] exampleManager in
  MemFs.getContent "a.ts" (ProjectManager.localFs pm') = Ok "b.ts"
  ∧ FileSystemUpdater.fetches (ProjectManager.updater pm') !! "c.ts" = None.
Proof.
  pose proof (ensureFiles_fetches_or_forgets exampleEnv (λ _ path, path)
                exampleCyclicRemote ["a.ts"; "c.ts"; "a.ts"] exampleManager eq_refl)
    as (_ & _ & _ & _ & Hfiles).
  split.
  - assert ("a.ts" ∈ ["a.ts"; "c.ts"; "a.ts"]) as Hin by apply list_elem_of_here.
    exact (proj1 (Hfiles "a.ts" Hin eq_refl)).
  - assert ("c.ts" ∈ ["a.ts"; "c.ts"; "a.ts"]) as Hin
      by apply list_elem_of_further, list_elem_of_here.
    exact (Hfiles "c.ts" Hin eq_refl).
Defined.

(** ** [getPackageName]: the search for [package.json] *)

Section ProjectConfiguration_getPackageName.
Variable E : Env.t.
Variable jsonName : string → res (option string).

Local Abbreviation Config := (ProjectConfiguration.t E).

Lemma dirname_shorter (dir : string) :
  PosixPath.dirname dir ≠ "." → PosixPath.dirname dir ≠ "/" →
  PosixPath.dirname dir ≠ dir →
  String.length (PosixPath.dirname dir) < String.length dir.
Proof.
  intros Hdot Hroot Hfix.
  assert (dir ≠ "") as Hne by (intros ->; by apply Hdot).
  assert (dir ≠ "/") as Hnr by (intros ->; by apply Hfix).
  pose proof (dirname_or_empty_shorter dir Hne Hnr) as Hlt.
  unfold PosixPath.dirname_or_empty in Hlt. cbv zeta in Hlt.
  destruct (String.eqb (PosixPath.dirname dir) ".") eqn:Heq; [|done].
  apply String.eqb_eq in Heq. done.
Qed.

Lemma getPackageName_loop_total disk (fuel : nat) : ∀ dir,
  String.length dir < fuel →
  ∃ r, getPackageName_loop E jsonName fuel disk dir = Some r
       ∧ ∀ fuel', String.length dir < fuel' →
                  getPackageName_loop E jsonName fuel' disk dir = Some r.
Proof.
  induction fuel as [|fuel IH]; intros dir Hlen; [lia|].
  cbn [getPackageName_loop]. cbv zeta.
  destruct (MemFs.fileExists (Env.join E dir "package.json") disk) eqn:Hexists.
  { eexists. split; [done|]. intros [|fuel'] Hlen'; [lia|].
    cbn [getPackageName_loop]. cbv zeta. by rewrite Hexists. }
  destruct (decide (PosixPath.dirname dir = "." ∨ PosixPath.dirname dir = "/"
                    ∨ PosixPath.dirname dir = dir)) as [Hstop|Hgo].
  { eexists. split; [done|]. intros [|fuel'] Hlen'; [lia|].
    cbn [getPackageName_loop]. cbv zeta. rewrite Hexists.
    by destruct (decide _). }
  assert (String.length (PosixPath.dirname dir) < String.length dir) as Hshort.
  { apply dirname_shorter; intros H; apply Hgo; auto. }
  destruct (IH (PosixPath.dirname dir)) as (r & Hr & Hmore); [lia|].
  exists r. split; [done|]. intros [|fuel'] Hlen'; [lia|].
  cbn [getPackageName_loop]. cbv zeta. rewrite Hexists.
  destruct (decide _) as [Hstop|_]; [done|]. apply Hmore. lia.
Qed.

Lemma getPackageName_loop_none disk (fuel : nat) : ∀ dir,
  (∀ d, MemFs.fileExists (Env.join E d "package.json") disk = false) →
  String.length dir < fuel →
  getPackageName_loop E jsonName fuel disk dir = Some (Ok None).
Proof.
  induction fuel as [|fuel IH]; intros dir Hnone Hlen; [lia|].
  cbn [getPackageName_loop]. cbv zeta. rewrite Hnone.
  destruct (decide _) as [Hstop|Hgo]; [done|].
  apply IH; [done|].
  assert (String.length (PosixPath.dirname dir) < String.length dir); [|lia].
  apply dirname_shorter; intros H; apply Hgo; auto.
Qed.

Lemma getPackageName_loop_frame disk1 disk2 (fuel : nat) : ∀ dir,
  (∀ d, mayProbe dir d →
        MemFs.files disk1 !! Env.join E d "package.json"
        = MemFs.files disk2 !! Env.join E d "package.json") →
  getPackageName_loop E jsonName fuel disk1 dir
  = getPackageName_loop E jsonName fuel disk2 dir.
Proof.
  induction fuel as [|fuel IH]; intros dir Hsame; [done|].
  cbn [getPackageName_loop]. cbv zeta.
  unfold MemFs.fileExists, MemFs.readFile, MemFs.getContent.
  rewrite (Hsame dir) by (exists 0; auto).
  destruct (bool_decide _); [done|].
  destruct (decide _) as [Hstop|Hgo]; [done|].
  apply IH. intros d (n & Hn & Hd). apply Hsame.
  exists (S n). rewrite Nat.iter_succ_r. split; [done|]. right.
  destruct Hd as [->|Hd]; [|done].
  simpl in Hn. subst d. split; intros H; apply Hgo; auto.
Qed.

(** X20. [getPackageName()] always returns: its [while (true)] loop ends
    within one turn per character of [rootFilePath] (and one more), so the
    fuel given to the embedding is never used up and more fuel changes
    nothing. When no directory has a [package.json], the answer is
    [null]. *)
Theorem getPackageName_returns (disk : MemFs.t) (c : Config) :
  (∃ r, getPackageName E jsonName disk c = Some r
        ∧ ∀ fuel, String.length (ProjectConfiguration.rootFilePath c) < fuel →
            getPackageName_loop E jsonName fuel disk
              (ProjectConfiguration.rootFilePath c) = Some r)
  ∧ ((∀ d, MemFs.fileExists (Env.join E d "package.json") disk = false) →
     getPackageName E jsonName disk c = Some (Ok None)).
Proof.
  unfold getPackageName. split.
  - apply getPackageName_loop_total. lia.
  - intros Hnone. apply getPackageName_loop_none; [done|lia].
Qed.

(** X21. [getPackageName()] looks at [package.json] in [rootFilePath] and
    in the directories above it only, and never in ["/"] or ["."] unless
    that is [rootFilePath] itself: two file systems that agree on those
    files give the same answer. *)
Theorem getPackageName_reads_ancestors_only (disk1 disk2 : MemFs.t) (c : Config) :
  (∀ d, mayProbe (ProjectConfiguration.rootFilePath c) d →
        MemFs.files disk1 !! Env.join E d "package.json"
        = MemFs.files disk2 !! Env.join E d "package.json") →
  getPackageName E jsonName disk1 c = getPackageName E jsonName disk2 c.
Proof. intros Hsame. unfold getPackageName. by apply getPackageName_loop_frame. Qed.

End ProjectConfiguration_getPackageName.

Lemma getPackageName_reads_ancestors_only_witness :
  getPackageName exampleEnv (λ text, Ok (Some text)) examplePackageDisk
    examplePackageConfig
  = getPackageName exampleEnv (λ text, Ok (Some text)) examplePackageDisk'
      examplePackageConfig.
Proof.
  apply getPackageName_reads_ancestors_only.
  assert (∀ n, Nat.iter n PosixPath.dirname "/" = "/") as Hroot.
  { induction n as [|n IH]; [reflexivity|]. simpl. rewrite IH. reflexivity. }
  intros d (n & Hn & Hd).
  destruct n as [|[|n]].
  - simpl in Hn. subst d. vm_compute. reflexivity.
  - simpl in Hn. subst d. vm_compute. reflexivity.
  - exfalso. rewrite !Nat.iter_succ_r in Hn.
    change (PosixPath.dirname
              (PosixPath.dirname (ProjectConfiguration.rootFilePath examplePackageConfig)))
      with "/" in Hn.
    rewrite Hroot in Hn. destruct Hd as [Hd|[Hd _]]; [discriminate|]. by apply Hd.
Defined.

(** ** An edit resynchronizes the project of the edited file *)

Section ProjectManager_resync.
Import ProjectManager.
Variable E : Env.t.

Local Abbreviation Config := (ProjectConfiguration.t E).

(** X22. [didChange(p, text)] for a file whose configuration [config] is
    registered under [dir] and is (or becomes, by [ensureConfigFile]) ready
    with host [h]: the call returns normally, the edit is in the local file
    system, the host of that configuration has its project version
    incremented once and keeps everything else, the program is requeried
    against the edited file system, and the configurations of all other
    directories are untouched. *)
Theorem didChange_resyncs_project (pm : t E) (p text dir : string) (config : Config)
    (h : Host.t E) :
  let pm1 := bumpVersion E p (set_localFs E (MemFs.didChange p text (localFs pm)) pm) in
  let ready := ProjectConfiguration.init E (localFs pm1) (versions pm1) config in
  getConfiguration E pm p = Some (Ok (dir, config)) →
  ready.1.1 = Ok () →
  is_Some (ProjectConfiguration.service ready.1.2) →
  ProjectConfiguration.host ready.1.2 = Some h →
  ∃ pm' config',
    didChange E p text pm = Some (Ok (), pm')
    ∧ configs pm' !! dir = Some config'
    ∧ ProjectConfiguration.host config' = Some (Host.incProjectVersion E h)
    ∧ ProjectConfiguration.program config'
      = Some (Host.getProgram E (Host.incProjectVersion E h) (localFs pm'))
    ∧ localFs pm' = MemFs.didChange p text (localFs pm)
    ∧ ∀ dir', dir' ≠ dir → configs pm' !! dir' = configs pm !! dir'.
Proof.
  cbv zeta. intros Hget Hok [s Hs] Hh.
  unfold didChange.
  change (getConfiguration E
            (bumpVersion E p (set_localFs E (MemFs.didChange p text (localFs pm)) pm)) p)
    with (getConfiguration E pm p).
  rewrite Hget. unfold resync, ProjectConfiguration.ensureConfigFile.
  destruct (ProjectConfiguration.init E _ _ config) as [[outcome c1] vs1].
  simpl in Hok, Hs, Hh. subst outcome. rewrite Hh.
  unfold ProjectConfiguration.syncProgram. simpl. rewrite Hs.
  do 2 eexists. split; [done|]. simpl.
  split; [by rewrite lookup_insert_eq|].
  split; [done|]. split; [done|]. split; [done|].
  intros dir' Hne. by rewrite lookup_insert_ne.
Qed.

End ProjectManager_resync.

Lemma didChange_resyncs_project_witness :
  ∃ pm' config',
    ProjectManager.didChange exampleEnv "proj/src/x.ts" "y.ts" exampleProject
    = Some (Ok (), pm')
    ∧ ProjectManager.configs pm' !! "proj" = Some config'
    ∧ Host.projectVersion <$> ProjectConfiguration.host config' = Some 2%N.
Proof.
  destruct (didChange_resyncs_project exampleEnv exampleProject "proj/src/x.ts" "y.ts"
              "proj"
              (ProjectManager.markerConfig exampleEnv exampleProject "proj"
                 "proj/tsconfig.json")
              (Host.create exampleEnv "/" () []))
    as (pm' & config' & Hdid & Hcfg & Hhost & _).
  - vm_compute. reflexivity.
  - vm_compute. reflexivity.
  - eexists. vm_compute. reflexivity.
  - vm_compute. reflexivity.
  - exists pm', config'. split; [exact Hdid|]. split; [exact Hcfg|].
    rewrite Hhost. reflexivity.
Defined.

(** ** The dependency crawl returns *)

Section ProjectManager_crawl_returns.
Import ProjectManager.
Variable E : Env.t.
Variable remote : string → res string.

Local Abbreviation Config := (ProjectConfiguration.t E).

(** When the workspace root is ["/"] the walk of [getConfiguration] ends
    for every path: an absolute path comes down to ["/"], a relative one to
    [""]. *)
Lemma getConfiguration_walk_root n (configs : gmap string Config) dir :
  String.length dir ≤ n →
  is_Some (getConfiguration_walk E (S n) configs "/" dir).
Proof.
  revert dir. induction n as [|n IH]; intros dir Hlen.
  - apply Nat.le_0_r, empty_string_length in Hlen as ->. by eexists.
  - change (getConfiguration_walk E (S (S n)) configs "/" dir) with
      (if decide (dir = "") then Some None
       else if decide (dir = "/") then Some None
       else match configs !! dir with
            | Some config => Some (Some (dir, config))
            | None => getConfiguration_walk E (S n) configs "/"
                        (PosixPath.dirname_or_empty dir)
            end).
    destruct (decide (dir = "")) as [|Hne]; [by eexists|].
    destruct (decide (dir = "/")) as [|Hnr]; [by eexists|].
    destruct (configs !! dir); [by eexists|].
    apply IH. pose proof (dirname_or_empty_shorter dir Hne Hnr). lia.
Qed.

Lemma getConfiguration_root_returns (pm : t E) p :
  rootPath pm = "/" → is_Some (getConfiguration E pm p).
Proof.
  intros Hroot. unfold getConfiguration. rewrite Hroot.
  destruct (getConfiguration_walk_root (String.length p) (configs pm) p) as [o ->]; [lia|].
  destruct o; [by eexists|]. destruct (configs pm !! ""); by eexists.
Qed.

Lemma crawl_children_return (f : string → Crawl E → option (res () * Crawl E)) root :
  (∀ uri w, rootPath (manager w) = root →
            ∃ r w', f uri w = Some (r, w') ∧ rootPath (manager w') = root) →
  ∀ importPaths w,
    rootPath (manager w) = root →
    ∃ w', foldl (λ acc importPath,
                   match acc with
                   | None => None
                   | Some w => match f importPath w with
                               | None => None
                               | Some (_, w') => Some w'
                               end
                   end) (Some w) importPaths = Some w'
          ∧ rootPath (manager w') = root.
Proof.
  intros Hf importPaths. induction importPaths as [|uri l IH]; intros w Hroot; cbn [foldl].
  - by exists w.
  - destruct (Hf uri w Hroot) as (r & w1 & -> & Hroot1). by apply IH.
Qed.

Lemma crawl_returns maxDepth : ∀ uri (w : Crawl E),
  rootPath (manager w) = "/" →
  ∃ r w', ensureTransitiveFileDependencies E remote maxDepth uri w = Some (r, w')
          ∧ rootPath (manager w') = "/".
Proof.
  induction maxDepth as [|depth IH]; intros uri w Hroot.
  - simpl. destruct (awaitEnsure remote uri (updater (manager w))) as [[[]|err] u];
      by do 2 eexists.
  - cbn [ensureTransitiveFileDependencies manager seen visits expansions set_manager].
    destruct (awaitEnsure remote uri (updater (manager w))) as [[[]|err] u];
      [|by do 2 eexists].
    cbn [manager seen visits expansions set_manager].
    destruct (getConfiguration_root_returns (set_updater E u (manager w))
                (Env.uri2path E uri) Hroot) as [found ->].
    destruct found as [[dir config]|err]; [|by do 2 eexists].
    destruct (ProjectConfiguration.ensureBasicFiles E _ _ config) as [[basic config1] vs].
    cbn [manager seen visits expansions set_manager].
    destruct basic as [[]|err]; [|by do 2 eexists].
    destruct (MemFs.getContent uri _) as [contents|err]; [|by do 2 eexists].
    destruct (ProjectConfiguration.getHost E config1) as [h|err]; [|by do 2 eexists].
    cbn [manager seen visits expansions set_manager].
    match goal with
    | |- ∃ r w', match foldl ?step (Some ?a) ?l with _ => _ end = _ ∧ _ =>
        destruct (crawl_children_return
                    (ensureTransitiveFileDependencies E remote depth) "/" IH l a)
          as (w1 & -> & Hroot1); [done|]
    end.
    by do 2 eexists.
Qed.

(** X23. In a workspace whose root is ["/"] the dependency crawl is never
    caught in the loop of [getConfiguration]: in the schedule of the crawl,
    where the remote file system answers every request,
    [ensureTransitiveFileDependencies] ends at every depth, from every
    state and on every import graph (cyclic ones included, where it is the
    depth alone that stops it), whatever the answers are; so does the crawl
    of depth 30 that [ensureFilesForHoverAndDefinition] starts. *)
Theorem crawl_always_returns (maxDepth : nat) (uri : string) (w : Crawl E) (pm : t E) :
  rootPath (manager w) = "/" → rootPath pm = "/" →
  is_Some (ensureTransitiveFileDependencies E remote maxDepth uri w)
  ∧ is_Some (crawl E remote uri pm).
Proof.
  intros Hw Hpm. split.
  - destruct (crawl_returns maxDepth uri w Hw) as (r & w' & -> & _). by eexists.
  - unfold crawl.
    destruct (crawl_returns 30 uri (mkCrawl E pm ∅ [] []) Hpm) as (r & w' & -> & _).
    by eexists.
Qed.

End ProjectManager_crawl_returns.

Lemma crawl_always_returns_witness :
  is_Some (ProjectManager.ensureTransitiveFileDependencies exampleEnv exampleCyclicRemote 2
             "a.ts" (ProjectManager.mkCrawl exampleEnv exampleCyclic ∅ [] []))
  ∧ is_Some (ProjectManager.crawl exampleEnv exampleCyclicRemote "a.ts" exampleCyclic).
Proof.
  apply crawl_always_returns; reflexivity.
Defined.
